(** * Imposter: the session engine of [bot.py], embedded in Rocq

    The Python module keeps one [GameState] object per (guild, channel) in
    the process-wide dictionary [GAMES].  Every handler is a coroutine; the
    parts of a handler that touch a session run inside [async with
    state.lock], so each such block is one atomic step here, and a coroutine
    that awaits between two blocks is split into one function per block.

    Conventions of the embedding:
    - user, guild, channel and message ids are Python [int]s: [Z];
    - a [dict] is a [gmap], a [set] a [gset], a [list] a [list]; a [gmap] is
      traversed in the order of its keys, a [dict] in insertion order, and
      nothing below depends on either;
    - what a handler sends back is a [Reply], one constructor per message;
      the checks that an interaction comes from a text channel of a server
      are taken as passed;
    - what the outside world decides (whether the lobby message can still be
      fetched, what the host answers, what the random generator draws, what
      the players do while a coroutine awaits) is an explicit argument of
      the function that consumes it;
    - [refresh_lobby_embed] is called right after the locked block of Join
      and Leave and is folded into that step;
    - the [asyncio] handles of a session ([lock], [game_task], [vote_task])
      hold no game data and are left out of the record; one round loop runs
      per session. *)

From Stdlib Require Import ZArith Ascii String.
From stdpp Require Import gmap strings list fin_maps.

Open Scope Z_scope.

(** ** Configuration *)

Definition MIN_PLAYERS : nat := 3.
Definition MAX_CLUE_LEN : nat := 80.
Definition ROUNDS_BEFORE_FINAL_VOTE : Z := 3.
Definition ALLOW_2_IMPOSTERS_AT : nat := 7.

(** ** State *)

Record Player := mkPlayer { user_id : Z; alive : bool }.

(** [Player(user_id=uid)]: [alive] defaults to [True]. *)
Definition new_player (uid : Z) : Player := mkPlayer uid true.

Record GameState := mkGameState {
  guild_id : Z;
  channel_id : Z;
  host_id : Z;
  started : bool;
  players : gmap Z Player;
  join_order : list Z;
  secret_word : option string;
  imposters : gset Z;
  lobby_message_id : option Z;
  round_no : Z;
  current_turn_index : Z;
  current_round_clues : gmap Z string;
  history : list (Z * gmap Z string);
  expecting_clue_from : option Z;
  voting_open : bool;
  votes : gmap Z Z
}.

(** [GameState(guild_id=g, channel_id=c, host_id=h)] with the dataclass
    defaults. *)
Definition new_state (g c h : Z) : GameState :=
  mkGameState g c h false ∅ [] None ∅ None 0 0 ∅ [] None false ∅.

Definition set_started (b : bool) (s : GameState) : GameState :=
  mkGameState (guild_id s) (channel_id s) (host_id s) b (players s)
    (join_order s) (secret_word s) (imposters s) (lobby_message_id s)
    (round_no s) (current_turn_index s) (current_round_clues s) (history s)
    (expecting_clue_from s) (voting_open s) (votes s).

Definition set_players (p : gmap Z Player) (s : GameState) : GameState :=
  mkGameState (guild_id s) (channel_id s) (host_id s) (started s) p
    (join_order s) (secret_word s) (imposters s) (lobby_message_id s)
    (round_no s) (current_turn_index s) (current_round_clues s) (history s)
    (expecting_clue_from s) (voting_open s) (votes s).

Definition set_join_order (l : list Z) (s : GameState) : GameState :=
  mkGameState (guild_id s) (channel_id s) (host_id s) (started s) (players s)
    l (secret_word s) (imposters s) (lobby_message_id s)
    (round_no s) (current_turn_index s) (current_round_clues s) (history s)
    (expecting_clue_from s) (voting_open s) (votes s).

Definition set_secret_word (w : option string) (s : GameState) : GameState :=
  mkGameState (guild_id s) (channel_id s) (host_id s) (started s) (players s)
    (join_order s) w (imposters s) (lobby_message_id s)
    (round_no s) (current_turn_index s) (current_round_clues s) (history s)
    (expecting_clue_from s) (voting_open s) (votes s).

Definition set_imposters (i : gset Z) (s : GameState) : GameState :=
  mkGameState (guild_id s) (channel_id s) (host_id s) (started s) (players s)
    (join_order s) (secret_word s) i (lobby_message_id s)
    (round_no s) (current_turn_index s) (current_round_clues s) (history s)
    (expecting_clue_from s) (voting_open s) (votes s).

Definition set_lobby_message_id (m : option Z) (s : GameState) : GameState :=
  mkGameState (guild_id s) (channel_id s) (host_id s) (started s) (players s)
    (join_order s) (secret_word s) (imposters s) m
    (round_no s) (current_turn_index s) (current_round_clues s) (history s)
    (expecting_clue_from s) (voting_open s) (votes s).

Definition set_round_no (n : Z) (s : GameState) : GameState :=
  mkGameState (guild_id s) (channel_id s) (host_id s) (started s) (players s)
    (join_order s) (secret_word s) (imposters s) (lobby_message_id s)
    n (current_turn_index s) (current_round_clues s) (history s)
    (expecting_clue_from s) (voting_open s) (votes s).

Definition set_current_turn_index (n : Z) (s : GameState) : GameState :=
  mkGameState (guild_id s) (channel_id s) (host_id s) (started s) (players s)
    (join_order s) (secret_word s) (imposters s) (lobby_message_id s)
    (round_no s) n (current_round_clues s) (history s)
    (expecting_clue_from s) (voting_open s) (votes s).

Definition set_current_round_clues (c : gmap Z string) (s : GameState)
  : GameState :=
  mkGameState (guild_id s) (channel_id s) (host_id s) (started s) (players s)
    (join_order s) (secret_word s) (imposters s) (lobby_message_id s)
    (round_no s) (current_turn_index s) c (history s)
    (expecting_clue_from s) (voting_open s) (votes s).

Definition set_history (h : list (Z * gmap Z string)) (s : GameState)
  : GameState :=
  mkGameState (guild_id s) (channel_id s) (host_id s) (started s) (players s)
    (join_order s) (secret_word s) (imposters s) (lobby_message_id s)
    (round_no s) (current_turn_index s) (current_round_clues s) h
    (expecting_clue_from s) (voting_open s) (votes s).

Definition set_expecting_clue_from (e : option Z) (s : GameState)
  : GameState :=
  mkGameState (guild_id s) (channel_id s) (host_id s) (started s) (players s)
    (join_order s) (secret_word s) (imposters s) (lobby_message_id s)
    (round_no s) (current_turn_index s) (current_round_clues s) (history s)
    e (voting_open s) (votes s).

Definition set_voting_open (b : bool) (s : GameState) : GameState :=
  mkGameState (guild_id s) (channel_id s) (host_id s) (started s) (players s)
    (join_order s) (secret_word s) (imposters s) (lobby_message_id s)
    (round_no s) (current_turn_index s) (current_round_clues s) (history s)
    (expecting_clue_from s) b (votes s).

Definition set_votes (v : gmap Z Z) (s : GameState) : GameState :=
  mkGameState (guild_id s) (channel_id s) (host_id s) (started s) (players s)
    (join_order s) (secret_word s) (imposters s) (lobby_message_id s)
    (round_no s) (current_turn_index s) (current_round_clues s) (history s)
    (expecting_clue_from s) (voting_open s) v.

(** [k in d] for a Python dict [d]. *)
Definition has_key {V} (d : gmap Z V) (k : Z) : bool :=
  match d !! k with Some _ => true | None => false end.

(** [GameState.is_host]. *)
Definition is_host (s : GameState) (uid : Z) : bool :=
  bool_decide (uid = host_id s).

(** [GameState.alive_players]: the join order, filtered by membership of the
    roster and by the [alive] flag. *)
Definition in_alive (s : GameState) (uid : Z) : bool :=
  match players s !! uid with
  | Some p => alive p
  | None => false
  end.

Definition alive_players (s : GameState) : list Z :=
  filter (λ uid, in_alive s uid = true) (join_order s).

(** [GAMES]: at most one session per (guild, channel). *)
Definition Key : Type := Z * Z.
Abbreviation Games := (gmap Key GameState).

Definition get_state_from_channel (G : Games) (key : Key) : option GameState :=
  G !! key.

(** [imposter_options]. *)
Definition imposter_options (n : nat) : list nat :=
  if (ALLOW_2_IMPOSTERS_AT <=? n)%nat then [1; 2]%nat else [1%nat].

(** ** Replies

    One constructor per message a handler sends back to the acting user.
    The names follow the error taxonomy of the specification where it has
    one. *)
Inductive Reply :=
  (* lobby *)
  | NoLobbyHere                (* "No lobby here." *)
  | GameAlreadyStarted         (* "Game already started." *)
  | AlreadyJoined              (* "You're already in the lobby." *)
  | JoinedLobby                (* "Joined the lobby!" *)
  | CantLeaveMidGame           (* "Can't leave mid-game." *)
  | NotInLobby                 (* "You're not in this lobby." *)
  | HostLeftLobbyClosed        (* "Host left - lobby closed." *)
  | LeftLobby                  (* "Left the lobby." *)
  (* clues *)
  | NoActiveGame               (* "No active game here." *)
  | VotingOpenNoClues          (* "Voting is open - no clues right now." *)
  | NotInGame                  (* "You're not in this game." *)
  | NotYourTurn (who : option Z) (* "Not your turn. Current turn: ..." *)
  | AlreadySubmittedThisRound  (* "You already submitted this round." *)
  | ModalOpened                (* send_modal(ClueModal()) *)
  | EmptyClue                  (* "Clue can't be empty." *)
  | ExactWordClue              (* "Don't type the exact secret word." *)
  | ClueSubmitted              (* "Clue submitted!" *)
  (* votes *)
  | VotingClosed               (* "Voting is closed." *)
  | NotAPlayer                 (* "Only players can vote." *)
  | SelfVote                   (* "You can't vote yourself." *)
  | UnknownTarget              (* "That player isn't in this game." *)
  | VotedSkip                  (* "You voted to skip." *)
  | VoteRecorded (target : Z)  (* "Vote recorded for ..." *)
  | VoteCleared                (* "Cleared your vote." *)
  (* commands *)
  | LobbyCreated               (* "Lobby created" *)
  | NotHost                    (* "Host only" *)
  | AlreadyStarted             (* "Already started" *)
  | NotEnoughPlayers           (* "Not enough players" *)
  | ChooseImposters (opts : list nat) (* "Choose imposters": reply with ... *)
  | GameStarted                (* "Game started!" *)
  | NoGameHere                 (* "No game here" *)
  | Ended.                     (* "Ended" *)

(** What a handler did to the session object it looked up in [GAMES]:
    nothing ([Keep]), a mutation ([Store], with the object as it is
    afterwards), or [GAMES.pop(key)] ([Drop]; the object itself is not
    touched). *)
Inductive Outcome :=
  | Keep (r : Reply)
  | Store (r : Reply) (state : GameState)
  | Drop (r : Reply).

Definition reply_of (o : Outcome) : Reply :=
  match o with Keep r | Store r _ | Drop r => r end.

(** The session object after the handler has run. *)
Definition after (state : GameState) (o : Outcome) : GameState :=
  match o with Store _ state' => state' | _ => state end.

(** The registry after the handler has run. *)
Definition commit (G : Games) (key : Key) (o : Outcome) : Reply * Games :=
  match o with
  | Keep r => (r, G)
  | Store r state => (r, <[key := state]> G)
  | Drop r => (r, delete key G)
  end.


(** ** Lobby *)

(** [refresh_lobby_embed].  [found] tells whether [channel.fetch_message]
    returns the lobby message ([true]) or raises [discord.NotFound]
    ([false]); editing the message changes nothing in the session. *)
Definition refresh_lobby_embed (found : bool) (state : GameState) : GameState :=
  match lobby_message_id state with
  | None => state
  | Some mid =>
      if mid =? 0 then state
      else if found then state
      else set_lobby_message_id None state
  end.

(** [LobbyView.join] from [async with state.lock] on, for the user [uid]. *)
Definition join_locked (state : GameState) (uid : Z) (found : bool) : Outcome :=
  if started state then Keep GameAlreadyStarted
  else if has_key (players state) uid then Keep AlreadyJoined
  else
    let state := set_players (<[uid := new_player uid]> (players state)) state in
    let state := set_join_order (join_order state ++ [uid]) state in
    let state := refresh_lobby_embed found state in
    Store JoinedLobby state.

Definition LobbyView_join (G : Games) (key : Key) (uid : Z) (found : bool)
  : Reply * Games :=
  match get_state_from_channel G key with
  | None => (NoLobbyHere, G)
  | Some state => commit G key (join_locked state uid found)
  end.

(** [LobbyView.leave] from [async with state.lock] on. *)
Definition leave_locked (state : GameState) (uid : Z) (found : bool) : Outcome :=
  if started state then Keep CantLeaveMidGame
  else if negb (has_key (players state) uid) then Keep NotInLobby
  else if bool_decide (uid = host_id state) then Drop HostLeftLobbyClosed
  else
    let state := set_players (delete uid (players state)) state in
    let state :=
      set_join_order (filter (λ u, u ≠ uid) (join_order state)) state in
    let state := refresh_lobby_embed found state in
    Store LeftLobby state.

Definition LobbyView_leave (G : Games) (key : Key) (uid : Z) (found : bool)
  : Reply * Games :=
  match get_state_from_channel G key with
  | None => (NoLobbyHere, G)
  | Some state => commit G key (leave_locked state uid found)
  end.

(** ** Text

    Clues and words are Python [str]s; they are modelled as strings of 8-bit
    characters, and [strip] and [upper] as Python defines them on the ASCII
    range.  The reply to the imposter prompt is read with the whole of
    Unicode in view, further down: there the check ([str.isdigit]) and the
    conversion ([int]) do not agree on every character. *)

Definition is_space (c : ascii) : bool :=
  let n := N_of_ascii c in
  ((9 <=? n) && (n <=? 13) || (28 <=? n) && (n <=? 32))%N.

Definition upper_char (c : ascii) : ascii :=
  let n := N_of_ascii c in
  if ((97 <=? n) && (n <=? 122))%N then ascii_of_N (n - 32) else c.

Fixpoint upper (s : string) : string :=
  match s with
  | EmptyString => EmptyString
  | String c s' => String (upper_char c) (upper s')
  end.

Fixpoint lstrip (s : string) : string :=
  match s with
  | EmptyString => EmptyString
  | String c s' => if is_space c then lstrip s' else s
  end.

Fixpoint rstrip (s : string) : string :=
  match s with
  | EmptyString => EmptyString
  | String c s' =>
      match rstrip s' with
      | EmptyString => if is_space c then EmptyString else String c EmptyString
      | r => String c r
      end
  end.

Definition strip (s : string) : string := lstrip (rstrip s).

(** ** The text of a reply

    A Python [str] is a sequence of code points; a Rocq string holds it in
    UTF-8.  The tables are those of the interpreter (Unicode 14). *)

(** U+FFFD, for a byte sequence that is not UTF-8. *)
Definition REPLACEMENT : N := 65533%N.

(** A continuation byte, 10xxxxxx. *)
Definition is_cont (b : N) : bool := ((128 <=? b) && (b <? 192))%N.

Fixpoint decode_utf8 (s : string) : list N :=
  match s with
  | EmptyString => []
  | String c0 s1 =>
      let b0 := N_of_ascii c0 in
      if (b0 <? 128)%N then b0 :: decode_utf8 s1
      else if ((194 <=? b0) && (b0 <? 224))%N then
        match s1 with
        | String c1 s2 =>
            let b1 := N_of_ascii c1 in
            if is_cont b1
            then ((b0 - 192) * 64 + (b1 - 128))%N :: decode_utf8 s2
            else REPLACEMENT :: decode_utf8 s1
        | EmptyString => [REPLACEMENT]
        end
      else if ((224 <=? b0) && (b0 <? 240))%N then
        match s1 with
        | String c1 (String c2 s3) =>
            let b1 := N_of_ascii c1 in
            let b2 := N_of_ascii c2 in
            let cp := ((b0 - 224) * 4096 + (b1 - 128) * 64 + (b2 - 128))%N in
            if is_cont b1 && is_cont b2 && (2048 <=? cp)%N
               && negb ((55296 <=? cp) && (cp <=? 57343))%N
            then cp :: decode_utf8 s3
            else REPLACEMENT :: decode_utf8 s1
        | _ => REPLACEMENT :: decode_utf8 s1
        end
      else if ((240 <=? b0) && (b0 <? 245))%N then
        match s1 with
        | String c1 (String c2 (String c3 s4)) =>
            let b1 := N_of_ascii c1 in
            let b2 := N_of_ascii c2 in
            let b3 := N_of_ascii c3 in
            let cp := ((b0 - 240) * 262144 + (b1 - 128) * 4096
                       + (b2 - 128) * 64 + (b3 - 128))%N in
            if is_cont b1 && is_cont b2 && is_cont b3
               && (65536 <=? cp)%N && (cp <=? 1114111)%N
            then cp :: decode_utf8 s4
            else REPLACEMENT :: decode_utf8 s1
        | _ => REPLACEMENT :: decode_utf8 s1
        end
      else REPLACEMENT :: decode_utf8 s1
  end.

(** The code points [str.isspace] holds of, as inclusive ranges. *)
Definition SPACE_RANGES : list (N * N) :=
  [(9, 13); (28, 32); (133, 133); (160, 160); (5760, 5760); (8192, 8202);
   (8232, 8233); (8239, 8239); (8287, 8287); (12288, 12288)]%N.

(** The decimal digits of all scripts ([str.isdecimal]), as inclusive ranges.
    Each range is made of runs of ten, zero first: the digit at [cp] in the
    range from [lo] has value [(cp - lo) mod 10]. *)
Definition DECIMAL_RANGES : list (N * N) :=
  [(48, 57); (1632, 1641); (1776, 1785); (1984, 1993); (2406, 2415);
   (2534, 2543); (2662, 2671); (2790, 2799); (2918, 2927); (3046, 3055);
   (3174, 3183); (3302, 3311); (3430, 3439); (3558, 3567); (3664, 3673);
   (3792, 3801); (3872, 3881); (4160, 4169); (4240, 4249); (6112, 6121);
   (6160, 6169); (6470, 6479); (6608, 6617); (6784, 6793); (6800, 6809);
   (6992, 7001); (7088, 7097); (7232, 7241); (7248, 7257); (42528, 42537);
   (43216, 43225); (43264, 43273); (43472, 43481); (43504, 43513);
   (43600, 43609); (44016, 44025); (65296, 65305); (66720, 66729);
   (68912, 68921); (69734, 69743); (69872, 69881); (69942, 69951);
   (70096, 70105); (70384, 70393); (70736, 70745); (70864, 70873);
   (71248, 71257); (71360, 71369); (71472, 71481); (71904, 71913);
   (72016, 72025); (72784, 72793); (73040, 73049); (73120, 73129);
   (92768, 92777); (92864, 92873); (93008, 93017); (120782, 120831);
   (123200, 123209); (123632, 123641); (125264, 125273); (130032, 130041)]%N.

(** The code points that are digits for [str.isdigit] without being decimal:
    superscripts, subscripts, circled and dotted digits and the like. *)
Definition OTHER_DIGIT_RANGES : list (N * N) :=
  [(178, 179); (185, 185); (4969, 4977); (6618, 6618); (8304, 8304);
   (8308, 8313); (8320, 8329); (9312, 9320); (9332, 9340); (9352, 9360);
   (9450, 9450); (9461, 9469); (9471, 9471); (10102, 10110); (10112, 10120);
   (10122, 10130); (68160, 68163); (69216, 69224); (69714, 69722);
   (127232, 127242)]%N.

Definition in_range (cp : N) (r : N * N) : bool :=
  ((r.1 <=? cp) && (cp <=? r.2))%N.

Definition in_ranges (cp : N) (ranges : list (N * N)) : bool :=
  existsb (in_range cp) ranges.

(** The value of a decimal digit; [None] for any other code point. *)
Definition decimal_value (cp : N) : option N :=
  match List.find (in_range cp) DECIMAL_RANGES with
  | Some r => Some ((cp - r.1) mod 10)%N
  | None => None
  end.

Definition cp_isspace (cp : N) : bool := in_ranges cp SPACE_RANGES.

Definition cp_isdigit (cp : N) : bool :=
  in_ranges cp DECIMAL_RANGES || in_ranges cp OTHER_DIGIT_RANGES.

Fixpoint cp_lstrip (l : list N) : list N :=
  match l with
  | [] => []
  | cp :: l' => if cp_isspace cp then cp_lstrip l' else l
  end.

(** [s.strip()]. *)
Definition str_strip (l : list N) : list N :=
  rev (cp_lstrip (rev (cp_lstrip l))).

(** [s.isdigit()]: at least one character, and all of them digits. *)
Definition str_isdigit (l : list N) : bool :=
  match l with [] => false | _ => forallb cp_isdigit l end.

(** The longest digit string [int] converts (the interpreter's default
    [int_max_str_digits]); chat messages are shorter. *)
Definition INT_MAX_STR_DIGITS : nat := 4300.

Fixpoint int_digits (acc : N) (l : list N) : option N :=
  match l with
  | [] => Some acc
  | cp :: l' =>
      match decimal_value cp with
      | Some d => int_digits (10 * acc + d)%N l'
      | None => None
      end
  end.

(** [int(s)] for a string that passed [isdigit]: the number it writes in
    decimal digits, of any script; [None] is the [ValueError] raised for a
    digit that is not decimal, for an empty string or for too long a one. *)
Definition str_int (l : list N) : option nat :=
  match l with
  | [] => None
  | _ =>
      if (INT_MAX_STR_DIGITS <? length l)%nat then None
      else N.to_nat <$> int_digits 0 l
  end.

(** [" " in w]. *)
Fixpoint has_blank (s : string) : bool :=
  match s with
  | EmptyString => false
  | String c s' => Ascii.eqb c " "%char || has_blank s'
  end.

(** [w.startswith("#")]. *)
Definition starts_with_hash (s : string) : bool :=
  match s with String c _ => Ascii.eqb c "#"%char | EmptyString => false end.

(** ** Words *)

Definition FALLBACK_WORDS : list string :=
  ["PIZZA"; "AIRPLANE"; "VOLCANO"; "BICYCLE"; "CHOCOLATE"; "PYRAMID";
   "ROBOT"; "CASTLE"]%string.

(** Text in the ASCII range, where [strip] and [upper] above are exactly
    Python's. *)
Definition ascii_text (s : string) : bool :=
  forallb (λ c, (N_of_ascii c <? 128)%N) (list_ascii_of_string s).

(** The first loop of [load_words], over the lines of the words file. *)
Fixpoint read_words (lines : list string) : list string :=
  match lines with
  | [] => []
  | line :: rest =>
      let w := strip line in
      if (w =? "")%string || starts_with_hash w then read_words rest
      else if has_blank w then read_words rest
      else upper w :: read_words rest
  end.

(** The last loop of [load_words]: keep the first occurrence of each word. *)
Fixpoint dedup_words (seen : list string) (words : list string) : list string :=
  match words with
  | [] => []
  | w :: rest =>
      if bool_decide (w ∈ seen) then dedup_words seen rest
      else w :: dedup_words (w :: seen) rest
  end.

(** [load_words]; [file] is [None] when the words file does not exist. *)
Definition load_words (file : option (list string)) : list string :=
  let words := match file with Some lines => read_words lines | None => [] end in
  let words := match words with [] => FALLBACK_WORDS | _ => words end in
  dedup_words [] words.

(** ** Randomness

    [random.choice] and [random.sample] are library code; the numbers the
    generator produces are an explicit argument.  A draw [r] selects index
    [r mod n] among [n] remaining candidates, and a candidate that was
    selected is taken out of the pool, so a sample never repeats a position.
    [None] stands for the exception Python raises ([IndexError] for a choice
    from an empty sequence, [ValueError] for a sample larger than the
    population). *)

Definition random_choice {A} (r : nat) (l : list A) : option A :=
  match l with
  | [] => None
  | _ => l !! (r mod length l)%nat
  end.

Fixpoint random_sample (draws : list nat) (pool : list Z) (k : nat)
  : option (list Z) :=
  match k with
  | O => Some []
  | S k' =>
      match pool with
      | [] => None
      | _ =>
          let j := (hd 0%nat draws mod length pool)%nat in
          match pool !! j with
          | Some x =>
              match random_sample (tl draws) (delete j pool) k' with
              | Some xs => Some (x :: xs)
              | None => None
              end
          | None => None
          end
      end
  end.

(** ** Clues *)

Definition TIMED_OUT : string := "… (timed out)".

(** [TurnClueView.submit] from [if not state.started] on: the button only
    decides whether the modal opens, it changes nothing. *)
Definition submit_locked (state : GameState) (uid : Z) : Outcome :=
  if negb (started state) then Keep NoActiveGame
  else if voting_open state then Keep VotingOpenNoClues
  else if negb (has_key (players state) uid) then Keep NotInGame
  else if bool_decide (expecting_clue_from state ≠ Some uid) then
    Keep (NotYourTurn (expecting_clue_from state))
  else if has_key (current_round_clues state) uid then
    Keep AlreadySubmittedThisRound
  else Keep ModalOpened.

Definition TurnClueView_submit (G : Games) (key : Key) (uid : Z)
  : Reply * Games :=
  match get_state_from_channel G key with
  | None => (NoActiveGame, G)
  | Some state => commit G key (submit_locked state uid)
  end.

(** [ClueModal.on_submit] from [if not state.started] on; [value] is the
    text typed into the modal. *)
Definition on_submit_locked (state : GameState) (uid : Z) (value : string)
  : Outcome :=
  if negb (started state) then Keep NoActiveGame
  else
    let clue_text := strip value in
    if (clue_text =? "")%string then Keep EmptyClue
    else if voting_open state then Keep VotingOpenNoClues
    else if bool_decide (expecting_clue_from state ≠ Some uid) then
      Keep (NotYourTurn (expecting_clue_from state))
    else if
      match secret_word state with
      | Some w => negb (w =? "")%string && (upper clue_text =? upper w)%string
      | None => false
      end
    then Keep ExactWordClue
    else
      Store ClueSubmitted
        (set_current_round_clues
           (<[uid := clue_text]> (current_round_clues state)) state).

Definition ClueModal_on_submit (G : Games) (key : Key) (uid : Z)
  (value : string) : Reply * Games :=
  match get_state_from_channel G key with
  | None => (NoActiveGame, G)
  | Some state => commit G key (on_submit_locked state uid value)
  end.

(** ** Final vote

    A [VoteView] and its [VoteSelect] keep a reference to the session object
    they were built for, so their handlers take that object directly. *)

(** [VoteView._record]. *)
Definition VoteView_record (state : GameState) (uid target_id : Z) : Outcome :=
  if negb (voting_open state) then Keep VotingClosed
  else if negb (has_key (players state) uid) then Keep NotAPlayer
  else if negb (target_id =? 0) && (target_id =? uid) then Keep SelfVote
  else if negb (target_id =? 0) && negb (has_key (players state) target_id)
  then Keep UnknownTarget
  else
    Store (if target_id =? 0 then VotedSkip else VoteRecorded target_id)
      (set_votes (<[uid := target_id]> (votes state)) state).

(** [VoteView.skip]. *)
Definition VoteView_skip (state : GameState) (uid : Z) : Outcome :=
  VoteView_record state uid 0.

(** [VoteView.clear]. *)
Definition VoteView_clear (state : GameState) (uid : Z) : Outcome :=
  Store VoteCleared (set_votes (delete uid (votes state)) state).

(** The options of a [VoteSelect]: one per alive player, in the fixed
    order. *)
Definition VoteSelect_options (state : GameState) : list Z :=
  alive_players state.

(** [VoteSelect.callback]; [target_id] is [int(self.values[0])], the value
    of the option that was picked. *)
Definition VoteSelect_callback (state : GameState) (uid target_id : Z)
  : Outcome :=
  if negb (voting_open state) then Keep VotingClosed
  else if negb (has_key (players state) uid) then Keep NotAPlayer
  else if target_id =? uid then Keep SelfVote
  else
    Store (VoteRecorded target_id)
      (set_votes (<[uid := target_id]> (votes state)) state).

(** The first locked block of [open_final_voting]. *)
Definition open_final_voting (state : GameState) : GameState :=
  set_votes ∅ (set_voting_open true state).

(** The counting loop of [finalize_final_voting]. *)
Definition count_vote (state : GameState) (voter target : Z)
  (counts : gmap Z nat) : gmap Z nat :=
  if negb (has_key (players state) voter) then counts
  else if negb (target =? 0) && negb (has_key (players state) target)
  then counts
  else <[target := (default 0 (counts !! target) + 1)%nat]> counts.

Definition count_votes (state : GameState) : gmap Z nat :=
  map_fold (count_vote state) ∅ (votes state).

(** The bucket the top guess is picked from. *)
Definition vote_pool (counts : gmap Z nat) : gmap Z nat :=
  let non_skip := filter (λ kv, kv.1 ≠ 0) counts in
  if decide (non_skip = ∅) then counts else non_skip.

(** [top_target] as [finalize_final_voting] computes it.  [max] is only
    called on a pool that is not empty. *)
Definition top_target (counts : gmap Z nat) : option Z :=
  if decide (counts = ∅) then None
  else
    let pool := vote_pool counts in
    let max_votes := max_list (map_to_list pool).*2 in
    let top := (filter (λ kv, kv.2 = max_votes) (map_to_list pool)).*1 in
    match top with
    | [pid] => Some pid
    | _ => None
    end.

(** What the reveal shows.  The vote summary is the count per bucket; the
    order the lines are displayed in is a matter of rendering. *)
Record Reveal := mkReveal {
  reveal_word : string;
  reveal_imposters : gset Z;
  reveal_top : option Z;
  reveal_counts : gmap Z nat
}.

(** [finalize_final_voting]: [None] when voting is not open (the function
    returns at once), otherwise the reveal, the session object with voting
    closed, and the session leaves [GAMES]. *)
Definition finalize_final_voting (state : GameState)
  : option (Reveal * GameState) :=
  if negb (voting_open state) then None
  else
    let counts := count_votes state in
    let top := top_target counts in
    let state' := set_voting_open false state in
    let word := match secret_word state with
                | Some w => if (w =? "")%string then "—"%string else w
                | None => "—"%string
                end in
    Some (mkReveal word (imposters state) top counts, state').

(** ** Round loop

    [game_loop] runs as a task of its own.  Between two of its locked blocks
    it awaits (a message being sent, a sleep), and the handlers of the
    players' interactions run in those gaps.  An [Action] is one such
    interaction with the session; a gap is the list of actions that happen
    in it, in order. *)

Inductive Action :=
  | AJoin (uid : Z) (found : bool)      (* Join button *)
  | ALeave (uid : Z) (found : bool)     (* Leave button *)
  | ASubmit (uid : Z)                   (* Submit Clue button *)
  | AClue (uid : Z) (value : string).   (* the clue modal is submitted *)

Definition handle (state : GameState) (a : Action) : Outcome :=
  match a with
  | AJoin uid found => join_locked state uid found
  | ALeave uid found => leave_locked state uid found
  | ASubmit uid => submit_locked state uid
  | AClue uid value => on_submit_locked state uid value
  end.

Definition perform (state : GameState) (a : Action) : GameState :=
  after state (handle state a).

Definition run_actions (state : GameState) (gap : list Action) : GameState :=
  foldl perform state gap.

(** The replies the actions of a gap receive, in order. *)
Fixpoint replies (state : GameState) (gap : list Action) : list Reply :=
  match gap with
  | [] => []
  | a :: gap' => reply_of (handle state a) :: replies (perform state a) gap'
  end.

(** What happens around one turn: the actions before each poll of
    [wait_for_player_clue] (one list per poll of the turn window), and, in
    the order the loop reaches them, the gap between the last poll and the
    timeout block ([late], only when the window elapses), the gap before the
    turn cursor is cleared and the pause before the next turn. *)
Record TurnScript := mkTurn {
  polls : list (list Action);
  late : list Action;
  before_clear : list Action;
  pause : list Action
}.

Definition quiet_turn : TurnScript := mkTurn [] [] [] [].

(** [wait_for_player_clue]: [true] as soon as a poll finds a clue of
    [player_id], [false] when the window has elapsed. *)
Fixpoint wait_for_player_clue (state : GameState) (player_id : Z)
  (window : list (list Action)) : bool * GameState :=
  match window with
  | [] => (false, state)
  | gap :: window' =>
      let state := run_actions state gap in
      if has_key (current_round_clues state) player_id then (true, state)
      else wait_for_player_clue state player_id window'
  end.

(** The block of [game_loop] under [if not success]. *)
Definition timeout_block (state : GameState) (pid : Z) : GameState :=
  if has_key (current_round_clues state) pid then state
  else
    set_current_round_clues
      (<[pid := TIMED_OUT]> (current_round_clues state)) state.

Inductive TurnResult :=
  | TurnReturned (state : GameState)   (* [return]: voting is open *)
  | TurnDone (state : GameState).

(** The state when [wait_for_player_clue] returns in the turn of [pid]. *)
Definition turn_wait (state : GameState) (pid : Z) (ts : TurnScript)
  : bool * GameState :=
  wait_for_player_clue (set_expecting_clue_from (Some pid) state) pid (polls ts).

(** One iteration of [for pid in turn_order]. *)
Definition play_turn (state : GameState) (pid : Z) (ts : TurnScript)
  : TurnResult :=
  if voting_open state then TurnReturned state
  else
    let '(success, state) := turn_wait state pid ts in
    let state :=
      if success then state
      else timeout_block (run_actions state (late ts)) pid in
    let state := run_actions state (before_clear ts) in
    let state := set_expecting_clue_from None state in
    TurnDone (run_actions state (pause ts)).

Fixpoint play_turns (state : GameState) (turn_order : list Z)
  (scripts : list TurnScript) : TurnResult :=
  match turn_order with
  | [] => TurnDone state
  | pid :: turn_order' =>
      match play_turn state pid (hd quiet_turn scripts) with
      | TurnReturned state => TurnReturned state
      | TurnDone state => play_turns state turn_order' (tl scripts)
      end
  end.

(** What happens around one round: the gap before the round starts, the gap
    while "Round n begins" is sent, one script per turn, the gap before the
    recap block and the gap while the recap is sent. *)
Record RoundScript := mkRound {
  before_round : list Action;
  intro : list Action;
  turns : list TurnScript;
  before_recap : list Action;
  after_recap : list Action
}.

(** The first locked block of an iteration of [while True]. *)
Definition round_start (state : GameState) : GameState :=
  let state := set_round_no (round_no state + 1) state in
  let state := set_current_round_clues ∅ state in
  let state := set_current_turn_index 0 state in
  set_expecting_clue_from None state.

(** The recap block: the clues of the round are copied into the history. *)
Definition round_recap (state : GameState) : GameState :=
  set_history
    (history state ++ [(round_no state, current_round_clues state)]) state.

Inductive LoopResult :=
  | LoopRunning (state : GameState)   (* the script ended before the loop *)
  | LoopReturned (state : GameState)  (* left a turn because voting is open *)
  | LoopVoting (state : GameState).   (* opened the final vote and returned *)

(** One iteration of [while True], up to the test that ends the loop. *)
Definition play_round (state : GameState) (rs : RoundScript) : TurnResult :=
  let state := run_actions state (before_round rs) in
  let state := round_start state in
  let turn_order := alive_players state in
  let state := run_actions state (intro rs) in
  match play_turns state turn_order (turns rs) with
  | TurnReturned state => TurnReturned state
  | TurnDone state =>
      let state := run_actions state (before_recap rs) in
      let state := round_recap state in
      TurnDone (run_actions state (after_recap rs))
  end.

(** [game_loop], driven by one script per round. *)
Fixpoint game_loop (state : GameState) (script : list RoundScript)
  : LoopResult :=
  match script with
  | [] => LoopRunning state
  | rs :: script' =>
      match play_round state rs with
      | TurnReturned state => LoopReturned state
      | TurnDone state =>
          if ROUNDS_BEFORE_FINAL_VOTE <=? round_no state
          then LoopVoting (open_final_voting state)
          else game_loop state script'
      end
  end.

(** ** Starting the game *)

(** [cmd_startgame] up to the prompt, for the message author [author].
    [lobby_msg] is the id of the lobby message sent when a lobby is
    created. *)
Definition startgame_check (state : GameState) (author : Z) (found : bool)
  : Outcome :=
  if negb (is_host state author) then Keep NotHost
  else if started state then Keep AlreadyStarted
  else if (size (players state) <? MIN_PLAYERS)%nat then
    Store NotEnoughPlayers (refresh_lobby_embed found state)
  else Keep (ChooseImposters (imposter_options (size (players state)))).

Definition create_lobby (key : Key) (author lobby_msg : Z) : GameState :=
  let state := new_state key.1 key.2 author in
  let state :=
    set_players (<[author := new_player author]> (players state)) state in
  let state := set_join_order (join_order state ++ [author]) state in
  set_lobby_message_id (Some lobby_msg) state.

Definition cmd_startgame_check (G : Games) (key : Key) (author lobby_msg : Z)
  (found : bool) : Reply * Games :=
  match G !! key with
  | None => (LobbyCreated, <[key := create_lobby key author lobby_msg]> G)
  | Some state => commit G key (startgame_check state author found)
  end.

(** A chat message: author, channel, content. *)
Record Message := mkMessage {
  msg_author : Z;
  msg_channel : Z;
  msg_content : string
}.

(** [msg.content.strip()], as code points. *)
Definition reply_text (m : Message) : list N :=
  str_strip (decode_utf8 (msg_content m)).

(** [int(msg.content.strip())]; [None] is [ValueError]. *)
Definition reply_number (m : Message) : option nat :=
  str_int (reply_text m).

(** [chk]. *)
Definition chk (author channel : Z) (m : Message) : bool :=
  bool_decide (msg_author m = author) && bool_decide (msg_channel m = channel)
  && str_isdigit (reply_text m).

(** [bot.wait_for("message", check=chk, timeout=20)]: the first message of
    the window that passes the check; [None] is [asyncio.TimeoutError]. *)
Definition wait_for_message (author channel : Z) (inbox : list Message)
  : option Message :=
  head (List.filter (chk author channel) inbox).

(** The imposter count: [opts[0]] unless the host answers with one of the
    options.  [None] is an exception that [cmd_startgame] does not catch:
    [IndexError] for [opts[0]] of an empty list, [ValueError] from [int]. *)
Definition choose_imp_count (opts : list nat) (author channel : Z)
  (inbox : list Message) : option nat :=
  match opts with
  | [] => None
  | first :: _ =>
      match wait_for_message author channel inbox with
      | Some msg =>
          match reply_number msg with
          | Some choice =>
              if bool_decide (choice ∈ opts) then Some choice else Some first
          | None => None
          end
      | None => Some first
      end
  end.

(** The random numbers one start consumes. *)
Record Dice := mkDice { word_draw : nat; imposter_draws : list nat }.

Inductive StartResult :=
  | StartRaised (state : GameState)  (* an exception left the block here *)
  | StartDone (state : GameState).

(** The locked block of [cmd_startgame] that starts the game. *)
Definition start_locked (WORDS : list string) (dice : Dice)
  (state : GameState) (imp_count : nat) : StartResult :=
  let state := set_started true state in
  match random_choice (word_draw dice) WORDS with
  | None => StartRaised state
  | Some word =>
      let state := set_secret_word (Some word) state in
      let ids := (map_to_list (players state)).*1 in
      match random_sample (imposter_draws dice) ids imp_count with
      | None => StartRaised state
      | Some imps =>
          let state := set_imposters (list_to_set imps) state in
          let state := set_round_no 0 state in
          let state := set_history [] state in
          let state := set_voting_open false state in
          let state := set_votes ∅ state in
          StartDone (set_expecting_clue_from None state)
      end
  end.

(** What a start attempt by the host of an existing lobby does to the
    session object: the check, the prompt (during which the players in
    [meanwhile] press lobby buttons), then the start.  An exception ends
    the command where it is raised: the session object stays as the
    players' presses left it. *)
Inductive StartAttempt :=
  | Refused (r : Reply) (state : GameState)
  | Raised (state : GameState)
  | Started (imp_count : nat) (state : GameState).

Definition cmd_startgame (WORDS : list string) (dice : Dice)
  (state : GameState) (author : Z) (found : bool) (inbox : list Message)
  (meanwhile : list Action) : StartAttempt :=
  match startgame_check state author found with
  | Keep (ChooseImposters opts) =>
      match choose_imp_count opts author (channel_id state) inbox with
      | None => Raised (run_actions state meanwhile)
      | Some imp_count =>
          let state := run_actions state meanwhile in
          match start_locked WORDS dice state imp_count with
          | StartRaised state => Raised state
          | StartDone state => Started imp_count state
          end
      end
  | o => Refused (reply_of o) (after state o)
  end.

(** ** The lobby as a transition system

    The operations of the lobby phase on the registry: the start command
    up to its prompt (it creates the lobby when there is none), Join and
    Leave. *)

Inductive LobbyOp :=
  | OpStartCmd (key : Key) (author lobby_msg : Z) (found : bool)
  | OpJoin (key : Key) (uid : Z) (found : bool)
  | OpLeave (key : Key) (uid : Z) (found : bool).

Definition lobby_step (G : Games) (op : LobbyOp) : Games :=
  match op with
  | OpStartCmd key author lobby_msg found =>
      (cmd_startgame_check G key author lobby_msg found).2
  | OpJoin key uid found => (LobbyView_join G key uid found).2
  | OpLeave key uid found => (LobbyView_leave G key uid found).2
  end.

(** The registry at every observation point: before the first operation and
    after each one. *)
Fixpoint lobby_trace (G : Games) (ops : list LobbyOp) : list Games :=
  G :: match ops with
       | [] => []
       | op :: ops' => lobby_trace (lobby_step G op) ops'
       end.

(** The roster and the join order hold the same ids. *)
Definition roster_matches_order (state : GameState) : Prop :=
  dom (players state) = list_to_set (join_order state).

(** What every session in the lobby phase satisfies. *)
Record lobby_ok (state : GameState) : Prop := mkLobbyOk {
  lobby_not_started : started state = false;
  lobby_roster : roster_matches_order state;
  lobby_nodup : NoDup (join_order state);
  lobby_host : host_id state ∈ dom (players state)
}.

Definition lobbies_ok (G : Games) : Prop :=
  ∀ key state, G !! key = Some state → lobby_ok state.

(** ** Votes as the tally reads them *)

(** Every entry of the vote map was cast by a member of the roster, for skip
    or for a member of the roster: what the vote handlers let through. *)
Definition votes_wf (state : GameState) : Prop :=
  map_Forall (λ voter target,
    voter ∈ dom (players state)
    ∧ (target = 0 ∨ target ∈ dom (players state))) (votes state).

(** A target the voter may vote for: skip, or another member of the
    roster. *)
Definition valid_target (state : GameState) (voter target : Z) : Prop :=
  target ≠ voter ∧ (target = 0 ∨ target ∈ dom (players state)).

(** The same voter votes again and again, through Skip and the select
    menu's sibling [_record]. *)
Definition revote (state : GameState) (voter : Z) (targets : list Z)
  : GameState :=
  foldl (λ s t, after s (VoteView_record s voter t)) state targets.

(** What a player can do with the vote view: Skip, pick a player in the
    select menu, clear the vote. *)
Inductive VoteAction :=
  | VSkip (uid : Z)
  | VSelect (uid target : Z)
  | VClear (uid : Z).

Definition vote_handle (state : GameState) (a : VoteAction) : Outcome :=
  match a with
  | VSkip uid => VoteView_skip state uid
  | VSelect uid target => VoteSelect_callback state uid target
  | VClear uid => VoteView_clear state uid
  end.

Definition cast_votes (state : GameState) (acts : list VoteAction)
  : GameState :=
  foldl (λ s a, after s (vote_handle s a)) state acts.

(** The value a select menu sends is the value of one of its options. *)
Definition offered (state : GameState) (a : VoteAction) : Prop :=
  match a with
  | VSelect _ target => target ∈ VoteSelect_options state
  | _ => True
  end.

(** The number of voters whose vote is [target]. *)
Definition tally (m : gmap Z Z) (target : Z) : nat :=
  size (filter (λ kv, kv.2 = target) m).

Definition voters_for (state : GameState) (target : Z) : nat :=
  tally (votes state) target.

(** Some player was voted for (a vote that is not skip). *)
Definition some_non_skip_vote (state : GameState) : Prop :=
  ∃ voter target, votes state !! voter = Some target ∧ target ≠ 0.

(** [target] has strictly more votes in [pool] than every other bucket. *)
Definition strictly_highest (pool : gmap Z nat) (target : Z) : Prop :=
  ∃ c, pool !! target = Some c
    ∧ ∀ other c', other ≠ target → pool !! other = Some c' → (c' < c)%nat.

(** Two buckets share the highest count of [pool]. *)
Definition tied_for_highest (pool : gmap Z nat) : Prop :=
  ∃ t1 t2 c, t1 ≠ t2 ∧ pool !! t1 = Some c ∧ pool !! t2 = Some c
    ∧ ∀ other c', pool !! other = Some c' → (c' ≤ c)%nat.

(** ** What the players cannot change

    The fields of a running game that no interaction in a gap of the round
    loop writes. *)
Definition same_round (s s' : GameState) : Prop :=
  started s' = started s ∧ round_no s' = round_no s
  ∧ history s' = history s ∧ voting_open s' = voting_open s
  ∧ votes s' = votes s ∧ secret_word s' = secret_word s.

(** The rounds on record, oldest first. *)
Definition rounds_played (s : GameState) : list Z := (history s).*1.

(** ** Text without surrounding white space *)

(** The first character, if any, is not white space. *)
Definition lclean (s : string) : bool :=
  match s with
  | EmptyString => true
  | String c _ => negb (is_space c)
  end.

(** The last character, if any, is not white space. *)
Fixpoint rclean (s : string) : bool :=
  match s with
  | EmptyString => true
  | String c EmptyString => negb (is_space c)
  | String _ s' => rclean s'
  end.

(** What [load_words] guarantees of each word. *)
Definition clean_word (w : string) : Prop :=
  w ≠ EmptyString ∧ lclean w = true ∧ rclean w = true.

(** ** Sessions used as examples *)

Definition demo_key : Key := (1, 10).

(** A lobby of four: the host 100, then 101, 102 and 103. *)
Definition demo_ops : list LobbyOp :=
  [OpStartCmd demo_key 100 900 true; OpJoin demo_key 101 true;
   OpJoin demo_key 102 false; OpJoin demo_key 103 true].

Definition demo_lobby : GameState :=
  mkGameState 1 10 100 false
    (<[103 := new_player 103]> (<[102 := new_player 102]>
       (<[101 := new_player 101]> (<[100 := new_player 100]> ∅))))
    [100; 101; 102; 103] None ∅ None 0 0 ∅ [] None false ∅.

(** A lobby the host is alone in, as [!startgame] has just created it. *)
Definition demo_solo : GameState := create_lobby demo_key 100 900.

(** A lobby of seven: the host 100, then 101 to 106. *)
Definition demo_seven : GameState :=
  mkGameState 1 10 100 false
    (list_to_map ((λ uid, (uid, new_player uid))
                    <$> [100; 101; 102; 103; 104; 105; 106]))
    [100; 101; 102; 103; 104; 105; 106] None ∅ (Some 900) 0 0 ∅ [] None
    false ∅.

(** The host answers the prompt with "2". *)
Definition demo_answer_two : list Message := [mkMessage 100 10 "2"].


(** A words file with a comment, a phrase, a blank line and a repeated
    word. *)
Definition demo_word_lines : list string :=
  ["# fruit"; " apple "; "two words"; "Pear"; ""; "APPLE"; "fig"].

Definition demo_dice : Dice := mkDice 0 [0; 0]%nat.

(** The same four in a running game: the word is PIZZA, 102 the imposter. *)
Definition demo_game : GameState :=
  set_imposters {[102]}
    (set_secret_word (Some "PIZZA"%string) (set_started true demo_lobby)).

(** Round 1 of that game, in the turn of 101. *)
Definition demo_turn : GameState :=
  set_expecting_clue_from (Some 101) (round_start demo_game).

(** 101 pressed Submit Clue twice, so two modals are open, and sends both
    before the loop polls again. *)
Definition demo_double_submit : TurnScript :=
  mkTurn [[ASubmit 101; ASubmit 101;
           AClue 101 "warm"%string; AClue 101 "cold"%string]] [] [] [].

(** 101 opens the modal but sends nothing before the window elapses. *)
Definition demo_silent_turn : TurnScript :=
  mkTurn [[]; [ASubmit 101]; []] [] [] [].

(** A round in which 100 and 102 give a clue, 101 stays silent and 103 is
    away. *)
Definition demo_round : RoundScript :=
  mkRound [] []
    [mkTurn [[]; [ASubmit 100; AClue 100 "cheesy"%string]] [] [] [];
     demo_silent_turn;
     mkTurn [[AClue 102 "round"%string]] [] [] [AClue 102 "late"%string];
     quiet_turn]
    [] [].

(** The final vote of that game: 100 and 102 vote for 101, 103 skips. *)
Definition demo_vote : GameState :=
  set_votes (<[103 := 0]> (<[102 := 101]> (<[100 := 101]> ∅)))
    (open_final_voting demo_game).

(** ** The rest of the session engine *)

(** [RevealRoleView.reveal]: what the button shows, to its presser only. *)
Inductive RoleCard :=
  | CardNoActiveGame                       (* "No active game here." *)
  | CardNotInGame                          (* "You're not in this game." *)
  | CardImposter                           (* no word is shown *)
  | CardCivilian (word : option string).   (* the secret word *)

Definition reveal_locked (state : GameState) (uid : Z) : RoleCard :=
  if negb (started state) then CardNoActiveGame
  else if negb (has_key (players state) uid) then CardNotInGame
  else if bool_decide (uid ∈ imposters state) then CardImposter
  else CardCivilian (secret_word state).

Definition RevealRoleView_reveal (G : Games) (key : Key) (uid : Z) : RoleCard :=
  match get_state_from_channel G key with
  | None => CardNoActiveGame
  | Some state => reveal_locked state uid
  end.

(** The channel a lobby operation is issued in. *)
Definition op_key (op : LobbyOp) : Key :=
  match op with
  | OpStartCmd key _ _ _ | OpJoin key _ _ | OpLeave key _ _ => key
  end.

(** No player is marked as not alive (nothing in the program ever does). *)
Definition all_alive (state : GameState) : Prop :=
  map_Forall (λ _ p, alive p = true) (players state).

(** What a started game keeps of its lobby. *)
Record game_ok (state : GameState) : Prop := mkGameOk {
  game_started : started state = true;
  game_roster : roster_matches_order state;
  game_nodup : NoDup (join_order state);
  game_alive : all_alive state
}.

(** The fields that are fixed once the game has started. *)
Definition same_cast (s s' : GameState) : Prop :=
  started s' = started s ∧ host_id s' = host_id s
  ∧ players s' = players s ∧ join_order s' = join_order s
  ∧ imposters s' = imposters s ∧ secret_word s' = secret_word s.

(** [clue] is not word [w], whatever the case of the letters. *)
Definition differs_from_word (w clue : string) : Prop :=
  upper clue ≠ upper w.

Definition clues_avoid (w : string) (clues : gmap Z string) : Prop :=
  map_Forall (λ _ clue, differs_from_word w clue) clues.

Definition history_avoids (w : string) (state : GameState) : Prop :=
  Forall (λ entry, clues_avoid w entry.2) (history state).

(** All the votes of a tally, bucket by bucket. *)
Definition total_votes (counts : gmap Z nat) : nat :=
  map_fold (λ _ c acc, (c + acc)%nat) 0%nat counts.

(** The session object a run of the loop, or of a round, ends with. *)
Definition loop_state (r : LoopResult) : GameState :=
  match r with
  | LoopRunning state | LoopReturned state | LoopVoting state => state
  end.

Definition turn_state (r : TurnResult) : GameState :=
  match r with TurnReturned state | TurnDone state => state end.

(** From [s] to [s'] no clue entry was dropped, and the only player who may
    have got one is [who]. *)
Definition clues_grow (who : option Z) (s s' : GameState) : Prop :=
  ∀ u, (u ∈ dom (current_round_clues s) → u ∈ dom (current_round_clues s'))
     ∧ (u ∈ dom (current_round_clues s') →
        u ∈ dom (current_round_clues s) ∨ who = Some u).

(** * Verification *)

(** ** Lobby: roster and join order *)

Section lobby.
Implicit Types (state : GameState) (G : Games) (uid : Z).

Lemma has_key_dom {V} (d : gmap Z V) k : has_key d k = true ↔ k ∈ dom d.
Proof.
  unfold has_key. rewrite elem_of_dom.
  destruct (d !! k); split; intros H; done.
Qed.

Lemma has_key_false {V} (d : gmap Z V) k : has_key d k = false ↔ d !! k = None.
Proof. unfold has_key. by destruct (d !! k). Qed.

Lemma refresh_lobby_embed_fields found state :
  let state' := refresh_lobby_embed found state in
  players state' = players state ∧ join_order state' = join_order state
  ∧ started state' = started state ∧ host_id state' = host_id state.
Proof.
  unfold refresh_lobby_embed.
  destruct (lobby_message_id state) as [mid|]; [|done].
  destruct (mid =? 0); [done|]. by destruct found.
Qed.

Lemma refresh_lobby_ok found state :
  lobby_ok state → lobby_ok (refresh_lobby_embed found state).
Proof.
  intros [Hns Hro Hnd Hho].
  destruct (refresh_lobby_embed_fields found state) as (Hp & Hj & Hs & Hh).
  split; unfold roster_matches_order; rewrite ?Hp, ?Hj, ?Hs, ?Hh; done.
Qed.

Lemma create_lobby_ok key author lobby_msg :
  lobby_ok (create_lobby key author lobby_msg).
Proof.
  split; unfold roster_matches_order; simpl.
  - done.
  - set_solver.
  - apply NoDup_singleton.
  - set_solver.
Qed.

Lemma join_locked_ok state uid found :
  lobby_ok state → lobby_ok (after state (join_locked state uid found)).
Proof.
  intros Hok. unfold join_locked.
  destruct (started state); [done|].
  destruct (has_key (players state) uid) eqn:Hk; [done|].
  simpl. apply refresh_lobby_ok.
  destruct Hok as [Hns Hro Hnd Hho].
  apply has_key_false in Hk.
  split; unfold roster_matches_order in *; simpl.
  - done.
  - rewrite dom_insert_L, list_to_set_app_L, Hro. apply set_eq. intros x.
    rewrite !elem_of_union, elem_of_singleton, !elem_of_list_to_set,
      list_elem_of_singleton. tauto.
  - apply NoDup_app. split_and!; [done| |apply NoDup_singleton].
    intros x Hx Hx'. apply list_elem_of_singleton in Hx'. subst x.
    apply (not_elem_of_dom (players state)) in Hk.
    rewrite Hro in Hk. by apply Hk, elem_of_list_to_set.
  - rewrite dom_insert_L. apply elem_of_union. by right.
Qed.

Lemma leave_locked_ok state uid found :
  lobby_ok state → lobby_ok (after state (leave_locked state uid found)).
Proof.
  intros Hok. unfold leave_locked.
  destruct (started state); [done|].
  destruct (has_key (players state) uid) eqn:Hk; [|done]. simpl.
  case_bool_decide as Hhost; [done|].
  simpl. apply refresh_lobby_ok.
  destruct Hok as [Hns Hro Hnd Hho].
  split; unfold roster_matches_order in *; simpl.
  - done.
  - rewrite dom_delete_L, Hro. apply set_eq. intros x.
    rewrite elem_of_difference, !elem_of_list_to_set, list_elem_of_filter,
      not_elem_of_singleton. tauto.
  - by apply NoDup_filter.
  - rewrite dom_delete_L. apply elem_of_difference. split; [done|].
    rewrite not_elem_of_singleton. congruence.
Qed.

Lemma startgame_check_ok state author found :
  lobby_ok state → lobby_ok (after state (startgame_check state author found)).
Proof.
  intros Hok. unfold startgame_check.
  destruct (is_host state author); [|done]. simpl.
  destruct (started state); [done|].
  destruct (size (players state) <? MIN_PLAYERS)%nat; [|done].
  simpl. by apply refresh_lobby_ok.
Qed.

Lemma commit_ok G key state o :
  lobbies_ok G → G !! key = Some state → lobby_ok (after state o) →
  lobbies_ok (commit G key o).2.
Proof.
  intros HG Hkey Hok key' state'. destruct o as [r|r s|r]; simpl in *.
  - apply HG.
  - destruct (decide (key = key')) as [->|Hne].
    + rewrite lookup_insert_eq. by intros [= <-].
    + rewrite lookup_insert_ne by done. apply HG.
  - intros H. apply lookup_delete_Some in H as [_ H]. by eapply HG.
Qed.

Lemma lobby_step_ok G op : lobbies_ok G → lobbies_ok (lobby_step G op).
Proof.
  intros HG. destruct op as [key author lobby_msg found|key uid found|key uid found];
    simpl.
  - unfold cmd_startgame_check. destruct (G !! key) as [state|] eqn:Hkey.
    + eapply commit_ok; [done..|]. apply startgame_check_ok. by eapply HG.
    + simpl. intros key' state'. destruct (decide (key = key')) as [->|Hne].
      * rewrite lookup_insert_eq. intros [= <-]. apply create_lobby_ok.
      * rewrite lookup_insert_ne by done. apply HG.
  - unfold LobbyView_join, get_state_from_channel.
    destruct (G !! key) as [state|] eqn:Hkey; [|done].
    eapply commit_ok; [done..|]. apply join_locked_ok. by eapply HG.
  - unfold LobbyView_leave, get_state_from_channel.
    destruct (G !! key) as [state|] eqn:Hkey; [|done].
    eapply commit_ok; [done..|]. apply leave_locked_ok. by eapply HG.
Qed.

Lemma lobby_trace_ok ops : ∀ G G',
  lobbies_ok G → G' ∈ lobby_trace G ops → lobbies_ok G'.
Proof.
  induction ops as [|op ops IH]; intros G G' HG Hin; simpl in Hin.
  - apply list_elem_of_singleton in Hin. by subst.
  - apply elem_of_cons in Hin as [->|Hin]; [done|].
    eapply IH; [|done]. by apply lobby_step_ok.
Qed.

Lemma filter_keeps_all (l : list Z) uid :
  uid ∉ l → filter (λ u, u ≠ uid) l = l.
Proof.
  induction l as [|x l IH]; intros Hnot; [done|].
  apply not_elem_of_cons in Hnot as [Hx Hl].
  rewrite filter_cons_True by done. by rewrite IH.
Qed.

(** Removing one id from a duplicate-free list splices it out. *)
Lemma filter_splice (l : list Z) uid :
  NoDup l → uid ∈ l →
  ∃ before rest, l = before ++ uid :: rest
    ∧ filter (λ u, u ≠ uid) l = before ++ rest ∧ uid ∉ before ++ rest.
Proof.
  intros Hnd Hin. apply list_elem_of_split in Hin as (before & rest & ->).
  apply NoDup_app in Hnd as (Hb & Hbr & Hr).
  apply NoDup_cons in Hr as [Hr1 Hr2].
  assert (uid ∉ before) as Hnb.
  { intros H. apply (Hbr _ H). by left. }
  exists before, rest. split; [done|]. split.
  - rewrite filter_app, filter_cons_False by (intros H; by apply H).
    rewrite !filter_keeps_all; done.
  - rewrite elem_of_app. tauto.
Qed.
End lobby.

(** C4.  Whatever start commands (short of the start itself), joins and
    leaves are issued, from the empty registry on, at every observation
    point every lobby's roster holds exactly the ids of its join order; and
    when a member other than the host leaves, the handler answers "Left the
    lobby", the roster loses that id only, and the join order loses its one
    occurrence of that id with every other id staying where it was. *)
Theorem C4_roster_matches_join_order (ops : list LobbyOp) (G : Games)
    (n : nat) :
  lobby_trace ∅ ops !! n = Some G →
  (∀ key state, G !! key = Some state →
     started state = false
     ∧ dom (players state) = list_to_set (join_order state))
  ∧ (∀ key state uid found,
       G !! key = Some state → uid ∈ dom (players state) →
       uid ≠ host_id state →
       ∃ state' before rest,
         LobbyView_leave G key uid found = (LeftLobby, <[key := state']> G)
         ∧ players state' = delete uid (players state)
         ∧ join_order state = before ++ uid :: rest
         ∧ join_order state' = before ++ rest
         ∧ uid ∉ before ++ rest).
Proof.
  intros Hn.
  assert (lobbies_ok G) as HG.
  { eapply (lobby_trace_ok ops ∅); [by intros ? ? ?|].
    by eapply list_elem_of_lookup_2. }
  split.
  - intros key state Hkey. destruct (HG _ _ Hkey). by split.
  - intros key state uid found Hkey Hin Hhost.
    destruct (HG _ _ Hkey) as [Hns Hro Hnd _].
    destruct (filter_splice (join_order state) uid Hnd)
      as (before & rest & Hjo & Hfil & Hnot).
    { apply (elem_of_list_to_set (C:=gset Z)). by rewrite <- Hro. }
    unfold LobbyView_leave, get_state_from_channel, leave_locked.
    rewrite Hkey, Hns.
    apply has_key_dom in Hin. rewrite Hin. simpl.
    rewrite bool_decide_eq_false_2 by done. simpl.
    eexists _, before, rest. split; [reflexivity|].
    destruct (refresh_lobby_embed_fields found
      (set_join_order (filter (λ u, u ≠ uid) (join_order state))
         (set_players (delete uid (players state)) state)))
      as (Hp & Hj & _ & _).
    simpl in Hp, Hj. rewrite Hp, Hj. by rewrite Hfil.
Qed.

Lemma C4_roster_matches_join_order_witness :
  let G := {[demo_key := demo_lobby]} : Games in
  (started demo_lobby = false
   ∧ dom (players demo_lobby) = list_to_set (join_order demo_lobby))
  ∧ ∃ state' before rest,
      LobbyView_leave G demo_key 102 true = (LeftLobby, <[demo_key := state']> G)
      ∧ players state' = delete 102 (players demo_lobby)
      ∧ join_order demo_lobby = before ++ 102 :: rest
      ∧ join_order state' = before ++ rest
      ∧ 102 ∉ before ++ rest.
Proof.
  intros G.
  assert (lobby_trace ∅ demo_ops !! 4%nat = Some G) as Hn
    by (vm_compute; reflexivity).
  assert (G !! demo_key = Some demo_lobby) as Hkey
    by (vm_compute; reflexivity).
  assert (102 ∈ dom (players demo_lobby)) as Hin
    by (apply elem_of_dom; eexists; vm_compute; reflexivity).
  assert (102 ≠ host_id demo_lobby) as Hhost by (simpl; lia).
  pose proof (C4_roster_matches_join_order demo_ops G 4 Hn) as [Hinv Hleave].
  split.
  - exact (Hinv demo_key demo_lobby Hkey).
  - exact (Hleave demo_key demo_lobby 102 true Hkey Hin Hhost).
Defined.

(** ** Casting votes *)

Section voting.
Implicit Types (state : GameState) (voter target uid : Z).

Lemma has_key_not_dom {V} (d : gmap Z V) k : has_key d k = false ↔ k ∉ dom d.
Proof. rewrite has_key_false. symmetry. apply not_elem_of_dom. Qed.

Lemma record_accepted state voter target :
  voting_open state = true → voter ∈ dom (players state) →
  valid_target state voter target →
  VoteView_record state voter target
  = Store (if target =? 0 then VotedSkip else VoteRecorded target)
      (set_votes (<[voter := target]> (votes state)) state).
Proof.
  intros Hopen Hin [Hne Htgt]. unfold VoteView_record.
  rewrite Hopen. apply has_key_dom in Hin. rewrite Hin. simpl.
  destruct (Z.eqb_spec target 0) as [->|H0]; simpl; [done|].
  rewrite (proj2 (Z.eqb_neq _ _)) by done.
  destruct Htgt as [?|Htgt]; [done|].
  apply has_key_dom in Htgt. by rewrite Htgt.
Qed.

Lemma revote_last targets : ∀ state voter,
  voting_open state = true → voter ∈ dom (players state) →
  Forall (valid_target state voter) targets →
  votes (revote state voter targets) !! voter
  = match last targets with Some t => Some t | None => votes state !! voter end.
Proof.
  induction targets as [|t targets IH]; intros state voter Hopen Hin Hall.
  - done.
  - apply Forall_cons in Hall as [Ht Hall].
    unfold revote. simpl. rewrite record_accepted by done. simpl.
    fold (revote (set_votes (<[voter:=t]> (votes state)) state) voter targets).
    rewrite IH by done. rewrite last_cons.
    destruct (last targets); [done|]. apply lookup_insert_eq.
Qed.

Lemma alive_players_roster state uid :
  uid ∈ alive_players state → uid ∈ dom (players state).
Proof.
  unfold alive_players. rewrite list_elem_of_filter. intros [Ha _].
  unfold in_alive in Ha. apply elem_of_dom.
  destruct (players state !! uid); [by eexists|done].
Qed.

(** The vote handlers keep the vote map well formed; for the select menu
    this uses that the value picked is one of the options offered. *)
Lemma record_votes_wf state voter target :
  votes_wf state → votes_wf (after state (VoteView_record state voter target)).
Proof.
  intros Hwf. unfold VoteView_record.
  destruct (voting_open state); [|done]. simpl.
  destruct (has_key (players state) voter) eqn:Hv; [|done]. simpl.
  destruct (Z.eqb_spec target 0) as [->|H0]; simpl.
  - intros v t. simpl. destruct (decide (v = voter)) as [->|Hne].
    + rewrite lookup_insert_eq. intros [= <-]. apply has_key_dom in Hv. auto.
    + rewrite lookup_insert_ne by done. apply Hwf.
  - destruct (target =? voter); [done|].
    destruct (has_key (players state) target) eqn:Ht; [|done]. simpl.
    intros v t. simpl. destruct (decide (v = voter)) as [->|Hne].
    + rewrite lookup_insert_eq. intros [= <-].
      apply has_key_dom in Hv, Ht. auto.
    + rewrite lookup_insert_ne by done. apply Hwf.
Qed.

Lemma callback_votes_wf state voter target :
  target ∈ VoteSelect_options state →
  votes_wf state →
  votes_wf (after state (VoteSelect_callback state voter target)).
Proof.
  intros Hopt Hwf. unfold VoteSelect_callback.
  destruct (voting_open state); [|done]. simpl.
  destruct (has_key (players state) voter) eqn:Hv; [|done]. simpl.
  destruct (target =? voter); [done|]. simpl.
  intros v t. simpl. destruct (decide (v = voter)) as [->|Hne].
  - rewrite lookup_insert_eq. intros [= <-].
    apply has_key_dom in Hv. apply alive_players_roster in Hopt. auto.
  - rewrite lookup_insert_ne by done. apply Hwf.
Qed.

Lemma clear_votes_wf state voter :
  votes_wf state → votes_wf (after state (VoteView_clear state voter)).
Proof.
  intros Hwf v t. simpl. intros H.
  apply lookup_delete_Some in H as [_ H]. by apply Hwf.
Qed.

Lemma open_final_voting_wf state : votes_wf (open_final_voting state).
Proof. intros v t. simpl. by rewrite lookup_empty. Qed.

Lemma vote_handle_roster state a :
  players (after state (vote_handle state a)) = players state
  ∧ join_order (after state (vote_handle state a)) = join_order state.
Proof.
  destruct a as [uid|uid target|uid]; simpl; [| |done].
  - unfold VoteView_skip, VoteView_record. by repeat case_match.
  - unfold VoteSelect_callback. by repeat case_match.
Qed.

(** Every vote map the players can build once voting has opened is well
    formed. *)
Lemma cast_votes_wf acts : ∀ state,
  votes_wf state → Forall (offered state) acts →
  votes_wf (cast_votes state acts).
Proof.
  induction acts as [|a acts IH]; intros state Hwf Hall; [done|].
  apply Forall_cons in Hall as [Ha Hall]. simpl. apply IH.
  - destruct a as [uid|uid target|uid]; simpl.
    + apply record_votes_wf, Hwf.
    + by apply callback_votes_wf.
    + by apply clear_votes_wf.
  - destruct (vote_handle_roster state a) as [Hp Hj].
    eapply Forall_impl; [exact Hall|]. intros [uid|uid target|uid]; try done.
    unfold offered, VoteSelect_options, alive_players, in_alive.
    by rewrite Hp, Hj.
Qed.

End voting.

(** C3.  With 0 reserved for skip (no player has id 0), a vote is refused
    with VotingClosed when voting is not open, with NotAPlayer when the
    voter is not in the roster, with SelfVote when the target is the voter,
    and with UnknownTarget when the target is neither 0 nor in the roster (a
    target the select menu never offers); refused votes change nothing.  An
    accepted vote replaces the voter's entry and touches no other entry, and
    however often a voter votes again, the last target is the one on
    record. *)
Theorem C3_cast_vote (state : GameState) (voter target : Z) :
  0 ∉ dom (players state) →
  (voting_open state = false →
     VoteView_record state voter target = Keep VotingClosed
     ∧ VoteSelect_callback state voter target = Keep VotingClosed)
  ∧ (voting_open state = true → voter ∉ dom (players state) →
     VoteView_record state voter target = Keep NotAPlayer
     ∧ VoteSelect_callback state voter target = Keep NotAPlayer)
  ∧ (voting_open state = true → voter ∈ dom (players state) →
     target = voter →
     VoteView_record state voter target = Keep SelfVote
     ∧ VoteSelect_callback state voter target = Keep SelfVote)
  ∧ (voting_open state = true → voter ∈ dom (players state) →
     target ≠ voter → target ≠ 0 → target ∉ dom (players state) →
     VoteView_record state voter target = Keep UnknownTarget
     ∧ target ∉ VoteSelect_options state)
  ∧ (voting_open state = true → voter ∈ dom (players state) →
     valid_target state voter target →
     let state' := set_votes (<[voter := target]> (votes state)) state in
     after state (VoteView_record state voter target) = state'
     ∧ (target ≠ 0 →
        VoteSelect_callback state voter target
        = Store (VoteRecorded target) state')
     ∧ votes state' !! voter = Some target
     ∧ ∀ other, other ≠ voter → votes state' !! other = votes state !! other)
  ∧ (voting_open state = true → voter ∈ dom (players state) →
     ∀ targets last_target,
       Forall (valid_target state voter) targets →
       last targets = Some last_target →
       votes (revote state voter targets) !! voter = Some last_target).
Proof.
  intros Hzero. split_and!.
  - intros Hopen. unfold VoteView_record, VoteSelect_callback.
    by rewrite Hopen.
  - intros Hopen Hout. unfold VoteView_record, VoteSelect_callback.
    rewrite Hopen. apply has_key_not_dom in Hout. by rewrite Hout.
  - intros Hopen Hin ->. unfold VoteView_record, VoteSelect_callback.
    rewrite Hopen. pose proof Hin as Hk. apply has_key_dom in Hk.
    rewrite Hk, Z.eqb_refl. simpl.
    destruct (Z.eqb_spec voter 0) as [->|_]; [done|]. done.
  - intros Hopen Hin Hne H0 Hout. split.
    + unfold VoteView_record. rewrite Hopen.
      apply has_key_dom in Hin. rewrite Hin. simpl.
      rewrite !(proj2 (Z.eqb_neq _ _)) by done. simpl.
      apply has_key_not_dom in Hout. by rewrite Hout.
    + intros Hopt. by apply Hout, alive_players_roster.
  - intros Hopen Hin Hvalid. simpl. split_and!.
    + by rewrite record_accepted.
    + intros H0. unfold VoteSelect_callback. rewrite Hopen.
      apply has_key_dom in Hin. rewrite Hin. simpl.
      destruct Hvalid as [Hne _].
      by rewrite (proj2 (Z.eqb_neq _ _)).
    + apply lookup_insert_eq.
    + intros other Hne. by apply lookup_insert_ne.
  - intros Hopen Hin targets last_target Hall Hlast.
    rewrite revote_last by done. by rewrite Hlast.
Qed.

Lemma C3_cast_vote_witness :
  VoteView_record demo_vote 100 100 = Keep SelfVote
  ∧ VoteSelect_callback demo_vote 100 100 = Keep SelfVote
  ∧ votes (revote demo_vote 100 [101; 0; 103]) !! 100 = Some 103.
Proof.
  assert (0 ∉ dom (players demo_vote)) as Hzero
    by (apply (bool_decide_unpack _); vm_compute; exact I).
  assert (voting_open demo_vote = true) as Hopen by reflexivity.
  assert (100 ∈ dom (players demo_vote)) as Hin
    by (apply (bool_decide_unpack _); vm_compute; exact I).
  assert (Forall (valid_target demo_vote 100) [101; 0; 103]) as Hall
    by (apply (bool_decide_unpack _); vm_compute; exact I).
  destruct (C3_cast_vote demo_vote 100 100 Hzero)
    as (_ & _ & Hself & _ & _ & Hre).
  destruct (Hself Hopen Hin eq_refl) as [Hrec Hcb].
  split; [exact Hrec|]. split; [exact Hcb|].
  exact (Hre Hopen Hin [101; 0; 103] 103 Hall eq_refl).
Defined.

(** ** Tallying *)

Section tallying.
Implicit Types (state : GameState) (m : gmap Z Z) (counts pool : gmap Z nat).

Lemma tally_empty target : tally ∅ target = 0%nat.
Proof. unfold tally. by rewrite map_filter_empty, map_size_empty. Qed.

Lemma tally_insert_same m voter target :
  m !! voter = None →
  tally (<[voter := target]> m) target = S (tally m target).
Proof.
  intros Hnone. unfold tally.
  rewrite map_filter_insert_True by done.
  rewrite map_size_insert_None; [done|].
  apply map_lookup_filter_None. by left.
Qed.

Lemma tally_insert_other m voter target target' :
  m !! voter = None → target ≠ target' →
  tally (<[voter := target]> m) target' = tally m target'.
Proof.
  intros Hnone Hne. unfold tally.
  rewrite map_filter_insert_not'; [done|done|].
  intros y Hy. by rewrite Hnone in Hy.
Qed.

(** The counting loop, on any part of a well-formed vote map: a bucket
    exists for the targets that were voted for, and holds the number of
    their voters. *)
Lemma count_votes_fold state :
  ∀ m,
    (∀ voter target, m !! voter = Some target →
       voter ∈ dom (players state)
       ∧ (target = 0 ∨ target ∈ dom (players state))) →
    ∀ target,
      map_fold (count_vote state) ∅ m !! target
      = if decide (tally m target = 0%nat) then None
        else Some (tally m target).
Proof.
  apply (map_fold_weak_ind
    (λ counts m,
       (∀ voter target, m !! voter = Some target →
          voter ∈ dom (players state)
          ∧ (target = 0 ∨ target ∈ dom (players state))) →
       ∀ target,
         counts !! target
         = if decide (tally m target = 0%nat) then None
           else Some (tally m target))).
  - intros _ target. by rewrite tally_empty, lookup_empty.
  - intros voter tgt m counts Hnone IH Hwf target.
    assert (∀ v t, m !! v = Some t →
              v ∈ dom (players state) ∧ (t = 0 ∨ t ∈ dom (players state)))
      as Hwf'.
    { intros v t Hv. apply Hwf. rewrite lookup_insert_ne; [done|].
      intros ->. by rewrite Hnone in Hv. }
    specialize (IH Hwf').
    destruct (Hwf voter tgt) as [Hin Htgt]; [apply lookup_insert_eq|].
    unfold count_vote. apply has_key_dom in Hin. rewrite Hin. simpl.
    assert (negb (tgt =? 0) && negb (has_key (players state) tgt) = false)
      as ->.
    { destruct Htgt as [->|Htgt]; [done|].
      apply has_key_dom in Htgt. rewrite Htgt. by rewrite andb_false_r. }
    destruct (decide (tgt = target)) as [->|Hne].
    + rewrite lookup_insert_eq, tally_insert_same by done.
      rewrite IH.
      destruct (decide (S (tally m target) = 0%nat)) as [|_]; [lia|].
      f_equal. case_decide; simpl; lia.
    + rewrite lookup_insert_ne, tally_insert_other by done. apply IH.
Qed.

Lemma count_votes_lookup state target :
  votes_wf state →
  count_votes state !! target
  = if decide (voters_for state target = 0%nat) then None
    else Some (voters_for state target).
Proof. intros Hwf. by apply count_votes_fold. Qed.

Lemma tally_pos m target :
  tally m target ≠ 0%nat ↔ ∃ voter, m !! voter = Some target.
Proof.
  unfold tally. rewrite map_size_empty_iff. split.
  - intros Hne. apply map_choose in Hne as (voter & t & Hl).
    apply map_lookup_filter_Some in Hl as [Hl Ht]. simpl in Ht. subst.
    by exists voter.
  - intros [voter Hv] Hemp.
    assert (filter (λ kv : Z * Z, kv.2 = target) m !! voter = Some target)
      as Hf by (by apply map_lookup_filter_Some).
    by rewrite Hemp, lookup_empty in Hf.
Qed.

(** The pool is the non-skip buckets when there is one, all buckets
    otherwise. *)
Lemma vote_pool_non_skip counts target :
  (∃ t, t ≠ 0 ∧ is_Some (counts !! t)) →
  vote_pool counts !! target
  = if decide (target = 0) then None else counts !! target.
Proof.
  intros (t & Ht & [c Hc]). unfold vote_pool.
  rewrite decide_False.
  - case_decide as H0.
    + subst. apply map_lookup_filter_None. right. intros x _ Hx. by apply Hx.
    + destruct (counts !! target) as [c'|] eqn:Hc'.
      * by apply map_lookup_filter_Some.
      * apply map_lookup_filter_None. by left.
  - intros Hemp.
    assert (filter (λ kv : Z * nat, kv.1 ≠ 0) counts !! t = Some c) as Hf
      by (by apply map_lookup_filter_Some).
    by rewrite Hemp, lookup_empty in Hf.
Qed.

Lemma vote_pool_only_skip counts :
  (∀ t, t ≠ 0 → counts !! t = None) → vote_pool counts = counts.
Proof.
  intros Hnone. unfold vote_pool. rewrite decide_True; [done|].
  apply map_empty. intros t. apply map_lookup_filter_None.
  destruct (decide (t = 0)) as [->|Ht].
  - right. intros x _ Hx. by apply Hx.
  - left. by apply Hnone.
Qed.

Lemma vote_pool_sub counts target c :
  vote_pool counts !! target = Some c → counts !! target = Some c.
Proof.
  unfold vote_pool. case_decide; [done|].
  intros Hl. by apply map_lookup_filter_Some in Hl as [Hl _].
Qed.

(** A duplicate-free list whose elements all equal [x], and which holds
    [x], is [[x]]. *)
Lemma NoDup_all_same {A} (l : list A) (x : A) :
  NoDup l → x ∈ l → (∀ y, y ∈ l → y = x) → l = [x].
Proof.
  intros Hnd Hin Hall. destruct l as [|a l]; [by apply elem_of_nil in Hin|].
  assert (a = x) as -> by (apply Hall; by left).
  destruct l as [|b l]; [done|].
  assert (b = x) as -> by (apply Hall; right; by left).
  apply NoDup_cons in Hnd as [Hnot _]. exfalso. apply Hnot. by left.
Qed.

Lemma top_target_pool counts target :
  top_target counts = Some target ↔ strictly_highest (vote_pool counts) target.
Proof.
  unfold top_target. case_decide as Hemp.
  { split; [done|]. intros (c & Hc & _). subst counts.
    apply vote_pool_sub in Hc. by rewrite lookup_empty in Hc. }
  set (pool := vote_pool counts).
  set (L := map_to_list pool).
  set (M := max_list L.*2).
  assert (∀ t c, (t, c) ∈ L ↔ pool !! t = Some c) as HL
    by (intros; apply elem_of_map_to_list).
  assert (NoDup (filter (λ kv : Z * nat, kv.2 = M) L)) as Hnd
    by apply NoDup_filter, NoDup_map_to_list.
  assert (∀ t c, pool !! t = Some c → (c ≤ M)%nat) as Hle.
  { intros t c Hc. apply max_list_elem_of_le.
    apply list_elem_of_fmap. exists (t, c). split; [done|]. by apply HL. }
  split.
  - intros Htop.
    destruct (filter (λ kv : Z * nat, kv.2 = M) L) as [|[t c] [|? ?]] eqn:Hf;
      simplify_eq/=.
    assert ((target, c) ∈ filter (λ kv : Z * nat, kv.2 = M) L) as Hin
      by (rewrite Hf; by left).
    apply list_elem_of_filter in Hin as [Hc Hin]. simpl in Hc. subst c.
    exists M. split; [by apply HL|].
    intros other c' Hne Hother.
    pose proof (Hle _ _ Hother) as Hc'.
    destruct (decide (c' = M)) as [->|]; [|lia].
    assert ((other, M) ∈ filter (λ kv : Z * nat, kv.2 = M) L) as Hin'
      by (apply list_elem_of_filter; split; [done|by apply HL]).
    rewrite Hf in Hin'. apply list_elem_of_singleton in Hin'. congruence.
  - intros (c & Hc & Hmax).
    assert (M = c) as HM.
    { assert (M ∈ L.*2) as HMin.
      { apply max_list_elem_of. intros Hnil.
        apply fmap_nil_inv in Hnil.
        assert ((target, c) ∈ L) as Hin by (by apply HL).
        rewrite Hnil in Hin. by apply elem_of_nil in Hin. }
      apply list_elem_of_fmap in HMin as ([o c'] & HMc & Ho). simpl in HMc.
      apply HL in Ho. destruct (decide (o = target)) as [->|Hne].
      - congruence.
      - pose proof (Hmax _ _ Hne Ho). pose proof (Hle _ _ Hc). lia. }
    rewrite (NoDup_all_same (filter (λ kv : Z * nat, kv.2 = M) L) (target, c));
      [done|done| |].
    + apply list_elem_of_filter. split; [done|by apply HL].
    + intros [o c'] Hin. apply list_elem_of_filter in Hin as [Hc' Hin].
      simpl in Hc'. apply HL in Hin.
      destruct (decide (o = target)) as [->|Hne]; [congruence|].
      pose proof (Hmax _ _ Hne Hin). lia.
Qed.

Lemma tied_no_strictly_highest pool target :
  tied_for_highest pool → ¬ strictly_highest pool target.
Proof.
  intros (t1 & t2 & c & Hne & H1 & H2 & Hmax) (c' & Hc' & Hstrict).
  pose proof (Hmax _ _ Hc') as Hle.
  destruct (decide (t1 = target)) as [->|Hne1].
  - assert (t2 ≠ target) as Hne2 by congruence.
    pose proof (Hstrict _ _ Hne2 H2). simplify_eq. lia.
  - pose proof (Hstrict _ _ Hne1 H1). lia.
Qed.

End tallying.

(** C1.  When the vote closes on a well-formed vote map, the reveal carries
    one bucket per target that was voted for (skip included), holding the
    number of voters mapped to that target; the top guess is taken among the
    non-skip buckets when some player was voted for, and among all buckets
    otherwise; it is the target whose count is strictly higher than every
    other count of that pool, and there is none when two buckets tie for the
    highest count. *)
Theorem C1_vote_tally (state : GameState) :
  voting_open state = true → votes_wf state →
  ∃ reveal state',
    finalize_final_voting state = Some (reveal, state')
    ∧ voting_open state' = false
    ∧ let counts := reveal_counts reveal in
      let pool := vote_pool counts in
      (∀ target,
         default 0%nat (counts !! target) = voters_for state target
         ∧ (is_Some (counts !! target)
            ↔ ∃ voter, votes state !! voter = Some target))
      ∧ (some_non_skip_vote state →
         ∀ target, pool !! target
                   = if decide (target = 0) then None else counts !! target)
      ∧ (¬ some_non_skip_vote state → pool = counts)
      ∧ (∀ target,
           reveal_top reveal = Some target ↔ strictly_highest pool target)
      ∧ (tied_for_highest pool → reveal_top reveal = None).
Proof.
  intros Hopen Hwf. unfold finalize_final_voting. rewrite Hopen. simpl.
  eexists _, _. split; [reflexivity|]. split; [done|]. simpl.
  assert (∀ target, is_Some (count_votes state !! target)
                    ↔ ∃ voter, votes state !! voter = Some target) as Hbucket.
  { intros target. rewrite count_votes_lookup by done.
    rewrite <- tally_pos. unfold voters_for.
    case_decide as Hz; split; intros H; done. }
  split_and!.
  - intros target. split; [|apply Hbucket].
    rewrite count_votes_lookup by done. by case_decide.
  - intros (voter & t & Hv & Ht) target. apply vote_pool_non_skip.
    exists t. split; [done|]. apply Hbucket. by exists voter.
  - intros Hnone. apply vote_pool_only_skip. intros t Ht.
    apply eq_None_not_Some. intros Hsome.
    apply Hbucket in Hsome as [voter Hv]. apply Hnone. by exists voter, t.
  - apply top_target_pool.
  - intros Htie. destruct (top_target (count_votes state)) as [t|] eqn:Htop;
      [|done].
    apply top_target_pool in Htop. by apply tied_no_strictly_highest in Htop.
Qed.

Lemma C1_vote_tally_witness :
  ∃ reveal state',
    finalize_final_voting demo_vote = Some (reveal, state')
    ∧ voting_open state' = false
    ∧ let counts := reveal_counts reveal in
      let pool := vote_pool counts in
      (∀ target,
         default 0%nat (counts !! target) = voters_for demo_vote target
         ∧ (is_Some (counts !! target)
            ↔ ∃ voter, votes demo_vote !! voter = Some target))
      ∧ (some_non_skip_vote demo_vote →
         ∀ target, pool !! target
                   = if decide (target = 0) then None else counts !! target)
      ∧ (¬ some_non_skip_vote demo_vote → pool = counts)
      ∧ (∀ target,
           reveal_top reveal = Some target ↔ strictly_highest pool target)
      ∧ (tied_for_highest pool → reveal_top reveal = None).
Proof.
  apply C1_vote_tally.
  - reflexivity.
  - unfold votes_wf. apply (bool_decide_unpack _). vm_compute. exact I.
Defined.

Example demo_vote_top :
  (reveal_top <$> (fst <$> finalize_final_voting demo_vote)) = Some (Some 101)
  ∧ (reveal_counts <$> (fst <$> finalize_final_voting demo_vote))
    = Some (<[0 := 1%nat]> (<[101 := 2%nat]> ∅)).
Proof. split; vm_compute; reflexivity. Qed.

(** ** Clues *)

Section text.
Implicit Types (s w : string) (c : ascii).

Lemma is_space_upper_char c : is_space (upper_char c) = is_space c.
Proof. by destruct c as [[] [] [] [] [] [] [] []]. Qed.

Lemma upper_empty s : upper s = EmptyString → s = EmptyString.
Proof. by destruct s. Qed.

Lemma lclean_upper s : lclean (upper s) = lclean s.
Proof. destruct s as [|c s]; [done|]. simpl. by rewrite is_space_upper_char. Qed.

Lemma rclean_upper s : rclean (upper s) = rclean s.
Proof.
  induction s as [|c s IH]; [done|].
  destruct s as [|d s]; simpl in *.
  - by rewrite is_space_upper_char.
  - exact IH.
Qed.

Lemma lstrip_lclean s : lclean s = true → lstrip s = s.
Proof.
  destruct s as [|c s]; [done|]. simpl. by destruct (is_space c).
Qed.

Lemma rstrip_rclean s : rclean s = true → rstrip s = s.
Proof.
  induction s as [|c s IH]; [done|]. intros Hc.
  destruct s as [|d s].
  - simpl in *. by destruct (is_space c).
  - change (rclean (String d s) = true) in Hc.
    change (rstrip (String c (String d s)))
      with (match rstrip (String d s) with
            | EmptyString =>
                if is_space c then EmptyString else String c EmptyString
            | r => String c r
            end).
    by rewrite (IH Hc).
Qed.

Lemma strip_clean s : lclean s = true → rclean s = true → strip s = s.
Proof.
  intros Hl Hr. unfold strip. rewrite (rstrip_rclean s Hr).
  by apply lstrip_lclean.
Qed.

Lemma lclean_lstrip s : lclean (lstrip s) = true.
Proof.
  induction s as [|c s IH]; [done|]. simpl.
  destruct (is_space c) eqn:Hc; [done|]. simpl. by rewrite Hc.
Qed.

Lemma rclean_lstrip s : rclean s = true → rclean (lstrip s) = true.
Proof.
  induction s as [|c s IH]; [done|]. intros Hr. simpl.
  destruct (is_space c) eqn:Hc; [|done].
  destruct s as [|d s]; [done|]. by apply IH.
Qed.

Lemma rclean_rstrip s : rclean (rstrip s) = true.
Proof.
  induction s as [|c s IH]; [done|]. simpl.
  destruct (rstrip s) as [|d r] eqn:Hr.
  - destruct (is_space c) eqn:Hc; [done|]. simpl. by rewrite Hc.
  - exact IH.
Qed.

Lemma strip_is_clean s :
  lclean (strip s) = true ∧ rclean (strip s) = true.
Proof.
  unfold strip. split; [apply lclean_lstrip|].
  apply rclean_lstrip, rclean_rstrip.
Qed.

Lemma read_words_clean lines w : w ∈ read_words lines → clean_word w.
Proof.
  induction lines as [|line lines IH]; simpl; [by intros ?%elem_of_nil|].
  destruct (String.eqb_spec (strip line) "") as [|Hne]; simpl; [done|].
  destruct (starts_with_hash (strip line)); [done|].
  destruct (has_blank (strip line)); [done|].
  intros [->|Hin]%elem_of_cons; [|by apply IH].
  destruct (strip_is_clean line) as [Hl Hr].
  split_and!.
  - intros Hemp. by apply upper_empty in Hemp.
  - by rewrite lclean_upper.
  - by rewrite rclean_upper.
Qed.

Lemma dedup_words_sub words : ∀ seen w,
  w ∈ dedup_words seen words → w ∈ words.
Proof.
  induction words as [|x words IH]; intros seen w; simpl; [done|].
  case_bool_decide.
  - intros Hin. right. by eapply IH.
  - intros [->|Hin]%elem_of_cons; [by left|]. right. by eapply IH.
Qed.

Lemma load_words_clean file w : w ∈ load_words file → clean_word w.
Proof.
  unfold load_words. intros Hin%dedup_words_sub.
  assert (∀ x, x ∈ FALLBACK_WORDS → clean_word x) as Hfb.
  { intros x Hx. unfold FALLBACK_WORDS in Hx.
    repeat (apply elem_of_cons in Hx as [->|Hx]; [by split_and!|]).
    by apply elem_of_nil in Hx. }
  destruct file as [lines|].
  - destruct (read_words lines) as [|x words] eqn:Hrw; [by apply Hfb|].
    apply (read_words_clean lines). by rewrite Hrw.
  - by apply Hfb.
Qed.

(** Text that equals a clean word up to case has no surrounding white
    space either, so stripping leaves it as it is. *)
Lemma strip_same_upper value w :
  clean_word w → upper value = upper w → strip value = value.
Proof.
  intros (_ & Hl & Hr) Heq. apply strip_clean.
  - by rewrite <- lclean_upper, Heq, lclean_upper.
  - by rewrite <- rclean_upper, Heq, rclean_upper.
Qed.

End text.

(** C7.  Whatever the state of the session, a clue whose text equals the
    secret word up to case (as typed, for every word the loader can
    produce, or once stripped, for any word) is refused: the handler
    records nothing, the session object and the registry stay as they were,
    so the clue map and the turn cursor are untouched. *)
Theorem C7_exact_word_never_accepted (file : option (list string))
    (state : GameState) (uid : Z) (value w : string) :
  secret_word state = Some w →
  (w ∈ load_words file ∧ upper value = upper w)
  ∨ upper (strip value) = upper w →
  ∃ r, on_submit_locked state uid value = Keep r
    ∧ r ≠ ClueSubmitted
    ∧ after state (on_submit_locked state uid value) = state
    ∧ ∀ G key, G !! key = Some state →
        ClueModal_on_submit G key uid value = (r, G).
Proof.
  intros Hw Heq.
  assert (upper (strip value) = upper w) as Hup.
  { destruct Heq as [[Hin Heq]|Heq]; [|done].
    apply load_words_clean in Hin.
    by rewrite (strip_same_upper value w). }
  assert (∃ r, on_submit_locked state uid value = Keep r ∧ r ≠ ClueSubmitted)
    as (r & Hr & Hne).
  { unfold on_submit_locked.
    destruct (started state); simpl; [|by eexists].
    destruct (String.eqb_spec (strip value) "") as [|Hnonempty];
      [by eexists|].
    destruct (voting_open state); [by eexists|].
    case_bool_decide; [by eexists|].
    rewrite Hw, Hup, String.eqb_refl.
    destruct (String.eqb_spec w "") as [->|_]; simpl; [|by eexists].
    by apply upper_empty in Hup. }
  exists r. split_and!; try done.
  - by rewrite Hr.
  - intros G key Hkey. unfold ClueModal_on_submit, get_state_from_channel.
    by rewrite Hkey, Hr.
Qed.

Lemma C7_exact_word_never_accepted_witness :
  ∃ r, on_submit_locked demo_turn 101 " Pizza " = Keep r
    ∧ r ≠ ClueSubmitted
    ∧ after demo_turn (on_submit_locked demo_turn 101 " Pizza ") = demo_turn
    ∧ ∀ G key, G !! key = Some demo_turn →
        ClueModal_on_submit G key 101 " Pizza " = (r, G).
Proof.
  apply (C7_exact_word_never_accepted None demo_turn 101 " Pizza " "PIZZA").
  - reflexivity.
  - right. vm_compute. reflexivity.
Defined.

(** C2, on the code: the Submit Clue button refuses a player who already
    has a clue in this round, but the modal's handler, which is the one
    that records, does not look.  In the turn of 101, with two modals open,
    both clues are accepted and the second replaces the first. *)
Theorem C2_second_clue_replaces_first :
  let first := on_submit_locked demo_turn 101 "warm" in
  let state1 := after demo_turn first in
  let second := on_submit_locked state1 101 "cold" in
  let state2 := after state1 second in
  reply_of first = ClueSubmitted
  ∧ current_round_clues state1 !! 101 = Some "warm"%string
  ∧ submit_locked state1 101 = Keep AlreadySubmittedThisRound
  ∧ reply_of second = ClueSubmitted
  ∧ current_round_clues state2 !! 101 = Some "cold"%string
  ∧ replies demo_turn (concat (polls demo_double_submit))
    = [ModalOpened; ModalOpened; ClueSubmitted; ClueSubmitted]
  ∧ ∃ state',
      play_turn (round_start demo_game) 101 demo_double_submit
      = TurnDone state'
      ∧ current_round_clues state' !! 101 = Some "cold"%string.
Proof.
  simpl. split_and!; try (vm_compute; reflexivity).
  eexists. split; vm_compute; reflexivity.
Qed.

(** ** Starting the game *)

Section starting.
Implicit Types (state : GameState) (pool xs : list Z) (k : nat).

Lemma delete_lookup_not_elem pool j (x : Z) :
  NoDup pool → pool !! j = Some x → x ∉ delete j pool.
Proof.
  intros Hnd Hj. rewrite delete_take_drop.
  rewrite <- (take_drop_middle pool j x Hj) in Hnd.
  apply NoDup_app in Hnd as (_ & Hl & Hr).
  apply NoDup_cons in Hr as [Hr _].
  rewrite elem_of_app. intros [Hin|Hin]; [|done].
  apply (Hl _ Hin). by left.
Qed.

(** A sample holds [k] distinct members of the population. *)
Lemma random_sample_spec k : ∀ draws pool xs,
  NoDup pool → random_sample draws pool k = Some xs →
  length xs = k ∧ NoDup xs ∧ xs ⊆ pool.
Proof.
  induction k as [|k IH]; intros draws pool xs Hnd Hs; simpl in Hs.
  - simplify_eq. split_and!; [done|apply NoDup_nil_2|].
    intros x Hx. by apply elem_of_nil in Hx.
  - destruct pool as [|p pool]; [done|].
    set (full := p :: pool) in *.
    destruct (full !! (hd 0%nat draws mod length full)%nat) as [x|] eqn:Hj;
      [|done].
    destruct (random_sample (tl draws)
                (delete (hd 0%nat draws mod length full)%nat full) k)
      as [xs'|] eqn:Hrec; [|done].
    simplify_eq.
    assert (NoDup (delete (hd 0%nat draws mod length full)%nat full)) as Hnd0
      by (apply (sublist_NoDup _ full); [done|apply sublist_delete]).
    destruct (IH _ _ _ Hnd0 Hrec) as (Hlen & Hnd' & Hsub).
    split_and!.
    + simpl. by rewrite Hlen.
    + apply NoDup_cons. split; [|done].
      intros Hin. apply Hsub in Hin.
      by apply (delete_lookup_not_elem full _ x Hnd Hj).
    + intros y [->|Hy]%elem_of_cons.
      * by eapply list_elem_of_lookup_2.
      * apply Hsub in Hy.
        revert Hy. apply sublist_subseteq, sublist_delete.
Qed.

(** Sampling fails only when more is asked than the population holds. *)
Lemma random_sample_is_Some k : ∀ draws pool,
  (k ≤ length pool)%nat → is_Some (random_sample draws pool k).
Proof.
  induction k as [|k IH]; intros draws pool Hk; simpl; [by eexists|].
  destruct pool as [|p pool]; [simpl in Hk; lia|].
  set (full := p :: pool) in *.
  assert (hd 0%nat draws mod length full < length full)%nat as Hlt
    by (apply Nat.mod_upper_bound; simpl; lia).
  destruct (lookup_lt_is_Some_2 _ _ Hlt) as [x Hx]. rewrite Hx.
  destruct (IH (tl draws) (delete (hd 0%nat draws mod length full)%nat full))
    as [xs' Hxs'].
  - rewrite length_delete by (by eexists). lia.
  - rewrite Hxs'. by eexists.
Qed.

Lemma random_sample_None k : ∀ draws pool,
  (length pool < k)%nat → random_sample draws pool k = None.
Proof.
  induction k as [|k IH]; intros draws pool Hk; simpl; [lia|].
  destruct pool as [|p pool]; [done|].
  set (full := p :: pool) in *.
  destruct (full !! (hd 0%nat draws mod length full)%nat) as [x|] eqn:Hj;
    [|done].
  rewrite IH; [done|].
  rewrite length_delete by (by eexists). simpl in *. lia.
Qed.

Lemma random_choice_is_Some {A} r (l : list A) :
  l ≠ [] → is_Some (random_choice r l).
Proof.
  intros Hne. destruct l as [|a l]; [done|]. unfold random_choice.
  apply lookup_lt_is_Some_2, Nat.mod_upper_bound. simpl. lia.
Qed.

Lemma random_choice_elem {A} r (l : list A) x :
  random_choice r l = Some x → x ∈ l.
Proof.
  destruct l as [|a l]; [done|]. unfold random_choice.
  apply list_elem_of_lookup_2.
Qed.

Lemma dedup_words_nonempty words : words ≠ [] → dedup_words [] words ≠ [].
Proof.
  destruct words as [|w words]; [done|]. intros _. cbn [dedup_words].
  case_bool_decide as Hin; [by apply elem_of_nil in Hin|done].
Qed.

Lemma load_words_nonempty file : load_words file ≠ [].
Proof.
  unfold load_words. apply dedup_words_nonempty.
  destruct file as [lines|]; [|done]. by destruct (read_words lines).
Qed.

Lemma roster_ids state :
  let ids := (map_to_list (players state)).*1 in
  NoDup ids ∧ length ids = size (players state)
  ∧ ∀ uid, uid ∈ ids ↔ uid ∈ dom (players state).
Proof.
  simpl. split_and!.
  - apply NoDup_fst_map_to_list.
  - by rewrite length_fmap, length_map_to_list.
  - intros uid. rewrite list_elem_of_fmap, elem_of_dom. split.
    + intros ([u p] & -> & Hin). apply elem_of_map_to_list in Hin. by eexists.
    + intros [p Hp]. exists (uid, p). split; [done|].
      by apply elem_of_map_to_list.
Qed.

Lemma imposter_options_spec n k :
  k ∈ imposter_options n ↔
  k = 1%nat ∨ (k = 2%nat ∧ (ALLOW_2_IMPOSTERS_AT ≤ n)%nat).
Proof.
  unfold imposter_options.
  destruct (Nat.leb_spec ALLOW_2_IMPOSTERS_AT n) as [Hle|Hlt].
  - rewrite !elem_of_cons, elem_of_nil. split.
    + intros [->|[->|[]]]; auto.
    + intros [->|[-> _]]; auto.
  - rewrite elem_of_cons, elem_of_nil. split.
    + intros [->|[]]. by left.
    + intros [->|[-> ?]]; [by left|lia].
Qed.

Lemma choose_imp_count_spec n author channel inbox k :
  choose_imp_count (imposter_options n) author channel inbox = Some k →
  k ∈ imposter_options n.
Proof.
  unfold choose_imp_count.
  assert (1%nat ∈ imposter_options n) as H1
    by (apply imposter_options_spec; by left).
  destruct (imposter_options n) as [|first opts] eqn:Hopts; [done|].
  assert (first = 1%nat) as ->.
  { unfold imposter_options in Hopts. by destruct (_ <=? _)%nat; simplify_eq. }
  destruct (wait_for_message author channel inbox) as [msg|].
  - destruct (reply_number msg) as [choice|]; [|done].
    case_bool_decide; by intros [= <-].
  - by intros [= <-].
Qed.

(** What the start block does, given the state it runs on. *)
Lemma start_locked_done WORDS dice state k state' :
  start_locked WORDS dice state k = StartDone state' →
  started state' = true
  ∧ players state' = players state
  ∧ join_order state' = join_order state
  ∧ (∃ w, secret_word state' = Some w ∧ w ∈ WORDS)
  ∧ size (imposters state') = k
  ∧ imposters state' ⊆ dom (players state')
  ∧ round_no state' = 0 ∧ history state' = [] ∧ voting_open state' = false
  ∧ votes state' = ∅ ∧ expecting_clue_from state' = None.
Proof.
  unfold start_locked.
  destruct (random_choice (word_draw dice) WORDS) as [w|] eqn:Hw; [|done].
  simpl.
  destruct (random_sample (imposter_draws dice)
              (map_to_list (players state)).*1 k) as [imps|] eqn:Hs; [|done].
  intros [= <-]. simpl.
  destruct (roster_ids state) as (Hnd & Hlen & Hids).
  destruct (random_sample_spec _ _ _ _ Hnd Hs) as (Hk & Hnd' & Hsub).
  split_and!; try done.
  - exists w. split; [done|]. by eapply random_choice_elem.
  - by rewrite size_list_to_set.
  - intros uid Hin. apply elem_of_list_to_set in Hin.
    by apply Hids, Hsub.
Qed.

Lemma start_locked_is_done WORDS dice state k :
  WORDS ≠ [] → (k ≤ size (players state))%nat →
  ∃ state', start_locked WORDS dice state k = StartDone state'.
Proof.
  intros HW Hk. unfold start_locked.
  destruct (random_choice_is_Some (word_draw dice) WORDS HW) as [w ->].
  simpl. destruct (roster_ids state) as (_ & Hlen & _).
  destruct (random_sample_is_Some k (imposter_draws dice)
              (map_to_list (players state)).*1) as [imps ->]; [lia|].
  by eexists.
Qed.

(** While the game has not started, whatever the players do in a gap keeps
    the lobby a lobby: in particular the host stays in the roster. *)
Lemma perform_lobby_ok state a : lobby_ok state → lobby_ok (perform state a).
Proof.
  intros Hok. unfold perform. destruct a as [uid found|uid found|uid|uid v];
    simpl.
  - by apply join_locked_ok.
  - by apply leave_locked_ok.
  - unfold submit_locked. by rewrite (lobby_not_started _ Hok).
  - unfold on_submit_locked. by rewrite (lobby_not_started _ Hok).
Qed.

Lemma run_actions_lobby_ok gap : ∀ state,
  lobby_ok state → lobby_ok (run_actions state gap).
Proof.
  induction gap as [|a gap IH]; intros state Hok; [done|].
  apply IH. by apply perform_lobby_ok.
Qed.


End starting.

Lemma startgame_check_prompt (state : GameState) (author : Z) (found : bool) :
  is_host state author = true → started state = false →
  (MIN_PLAYERS ≤ size (players state))%nat →
  startgame_check state author found
  = Keep (ChooseImposters (imposter_options (size (players state)))).
Proof.
  intros Hhost Hns Hsize. unfold startgame_check. rewrite Hhost, Hns. simpl.
  destruct (Nat.ltb_spec (size (players state)) MIN_PLAYERS); [lia|done].
Qed.

(** What holds of every start that goes through, whatever happened during
    the prompt: the imposters are one or two distinct members of the roster
    the game starts with, and two were only on offer if the roster held
    seven when the prompt was sent. *)
Lemma cmd_startgame_started (WORDS : list string) (dice : Dice)
    (state : GameState) (author : Z) (found : bool) (inbox : list Message)
    (meanwhile : list Action) (k : nat) (state' : GameState) :
  cmd_startgame WORDS dice state author found inbox meanwhile
  = Started k state' →
  (k = 1%nat ∨ k = 2%nat)
  ∧ size (imposters state') = k
  ∧ imposters state' ⊆ dom (players state')
  ∧ players state' = players (run_actions state meanwhile)
  ∧ (k = 2%nat → (ALLOW_2_IMPOSTERS_AT ≤ size (players state))%nat).
Proof.
  unfold cmd_startgame, startgame_check.
  destruct (is_host state author); [|done]. simpl.
  destruct (started state); [done|].
  destruct (size (players state) <? MIN_PLAYERS)%nat; [done|].
  destruct (choose_imp_count _ _ _ _) as [k'|] eqn:Hk; [|done].
  apply choose_imp_count_spec, imposter_options_spec in Hk.
  destruct (start_locked WORDS dice (run_actions state meanwhile) k')
    as [s|s] eqn:Hstart; [done|].
  intros [= <- <-].
  apply start_locked_done in Hstart.
  destruct Hstart as (_ & Hp & _ & _ & Hsize & Hsub & _).
  split_and!; try done.
  - destruct Hk as [->|[-> _]]; auto.
  - intros ->. by destruct Hk as [|[_ ?]].
Qed.

(** C5, on the code: the options are computed from the roster as it is when
    the prompt is sent, the lock is released while the host answers, and
    the start block samples from the roster as it is then.  Seven players
    are in the lobby, the host is offered 1 / 2 and answers 2, and one
    player leaves before the answer arrives: the game starts with two
    imposters in a roster of six. *)
Theorem C5_two_imposters_in_roster_of_six :
  size (players demo_seven) = 7%nat
  ∧ ∃ state',
      cmd_startgame FALLBACK_WORDS demo_dice demo_seven 100 true
        demo_answer_two [ALeave 106 true]
      = Started 2 state'
      ∧ size (imposters state') = 2%nat
      ∧ imposters state' ⊆ dom (players state')
      ∧ size (players state') = 6%nat.
Proof.
  split; [vm_compute; reflexivity|].
  eexists. split; [vm_compute; reflexivity|].
  split_and!; [vm_compute; reflexivity| |vm_compute; reflexivity].
  apply (bool_decide_unpack _). vm_compute. exact I.
Qed.

(** C6, as stated, fails: the host alone in the lobby issues the start
    command after the lobby message was deleted.  The command is refused
    with NotEnoughPlayers, and the session no longer is what it was. *)
Lemma C6_lobby_message_forgotten :
  is_host demo_solo 100 = true
  ∧ started demo_solo = false
  ∧ (size (players demo_solo) < MIN_PLAYERS)%nat
  ∧ reply_of (startgame_check demo_solo 100 false) = NotEnoughPlayers
  ∧ after demo_solo (startgame_check demo_solo 100 false) ≠ demo_solo.
Proof.
  split_and!; try (vm_compute; reflexivity).
  - vm_compute. lia.
  - intros Heq. apply (f_equal lobby_message_id) in Heq. discriminate Heq.
Qed.

(** C6, amended.  A start command by the host of a lobby of fewer than
    three is refused with NotEnoughPlayers, and the prompt is never reached;
    the session is left as it was, except that the id of the lobby message
    is forgotten when that message cannot be fetched any more. *)
Theorem C6_start_needs_three_players (state : GameState) (author : Z)
    (found : bool) :
  is_host state author = true → started state = false →
  (size (players state) < MIN_PLAYERS)%nat →
  let state' := after state (startgame_check state author found) in
  reply_of (startgame_check state author found) = NotEnoughPlayers
  ∧ set_lobby_message_id (lobby_message_id state) state' = state
  ∧ (found = true → state' = state)
  ∧ (lobby_message_id state' = lobby_message_id state
     ∨ found = false ∧ lobby_message_id state' = None)
  ∧ ∀ WORDS dice inbox meanwhile,
      cmd_startgame WORDS dice state author found inbox meanwhile
      = Refused NotEnoughPlayers state'.
Proof.
  intros Hhost Hns Hsize. unfold cmd_startgame, startgame_check.
  rewrite Hhost, Hns. simpl.
  destruct (Nat.ltb_spec (size (players state)) MIN_PLAYERS); [|lia]. simpl.
  unfold refresh_lobby_embed.
  destruct state as [g c h st pl jo sw im [mid|] rn ti cl hi ex vo vs]; simpl;
    [|split_and!; by auto].
  destruct (mid =? 0); [split_and!; by auto|].
  destruct found; simpl; split_and!; by auto.
Qed.

Lemma C6_start_needs_three_players_witness :
  let state' := after demo_solo (startgame_check demo_solo 100 false) in
  reply_of (startgame_check demo_solo 100 false) = NotEnoughPlayers
  ∧ set_lobby_message_id (lobby_message_id demo_solo) state' = demo_solo
  ∧ (false = true → state' = demo_solo)
  ∧ (lobby_message_id state' = lobby_message_id demo_solo
     ∨ false = false ∧ lobby_message_id state' = None)
  ∧ ∀ WORDS dice inbox meanwhile,
      cmd_startgame WORDS dice demo_solo 100 false inbox meanwhile
      = Refused NotEnoughPlayers state'.
Proof.
  apply (C6_start_needs_three_players demo_solo 100 false).
  - reflexivity.
  - reflexivity.
  - vm_compute. lia.
Defined.



(** ** The round loop *)

Section rounds.
Implicit Types (state : GameState) (pid uid : Z) (gap : list Action).

Lemma same_round_refl state : same_round state state.
Proof. by repeat split. Qed.

Lemma same_round_trans s1 s2 s3 :
  same_round s1 s2 → same_round s2 s3 → same_round s1 s3.
Proof.
  unfold same_round. intros (?&?&?&?&?&?) (?&?&?&?&?&?).
  split_and!; congruence.
Qed.

Lemma refresh_same_round found state :
  same_round state (refresh_lobby_embed found state)
  ∧ expecting_clue_from (refresh_lobby_embed found state)
    = expecting_clue_from state
  ∧ current_round_clues (refresh_lobby_embed found state)
    = current_round_clues state.
Proof.
  unfold refresh_lobby_embed.
  destruct (lobby_message_id state) as [mid|]; [|by repeat split].
  destruct (mid =? 0); [by repeat split|]. destruct found; by repeat split.
Qed.

(** An interaction leaves the round, the vote and the turn cursor alone. *)
Lemma perform_same_round state a :
  same_round state (perform state a)
  ∧ expecting_clue_from (perform state a) = expecting_clue_from state.
Proof.
  unfold perform. destruct a as [uid found|uid found|uid|uid value]; simpl.
  - unfold join_locked. destruct (started state); [by repeat split|].
    destruct (has_key _ _); [by repeat split|]. simpl.
    destruct (refresh_same_round found
      (set_join_order (join_order state ++ [uid])
         (set_players (<[uid:=new_player uid]> (players state)) state)))
      as (Hs & He & _).
    split; [exact Hs|exact He].
  - unfold leave_locked. destruct (started state); [by repeat split|].
    destruct (has_key _ _); [|by repeat split]. simpl.
    case_bool_decide; [by repeat split|]. simpl.
    destruct (refresh_same_round found
      (set_join_order (filter (λ u, u ≠ uid) (join_order state))
         (set_players (delete uid (players state)) state)))
      as (Hs & He & _).
    split; [exact Hs|exact He].
  - unfold submit_locked. by repeat case_match; repeat split.
  - unfold on_submit_locked. by repeat case_match; repeat split.
Qed.

(** Outside its own turn a player's clue entry cannot change. *)
Lemma perform_clue_frame state a pid :
  expecting_clue_from state ≠ Some pid →
  current_round_clues (perform state a) !! pid
  = current_round_clues state !! pid.
Proof.
  intros Hcur. unfold perform.
  destruct a as [uid found|uid found|uid|uid value]; simpl.
  - unfold join_locked. destruct (started state); [done|].
    destruct (has_key _ _); [done|]. simpl.
    by rewrite (proj2 (proj2 (refresh_same_round found _))).
  - unfold leave_locked. destruct (started state); [done|].
    destruct (has_key _ _); [|done]. simpl.
    case_bool_decide; [done|]. simpl.
    by rewrite (proj2 (proj2 (refresh_same_round found _))).
  - unfold submit_locked. by repeat case_match.
  - unfold on_submit_locked.
    destruct (negb (started state)); [done|].
    destruct (strip value =? "")%string; [done|].
    destruct (voting_open state); [done|].
    case_bool_decide as Hexp; [done|].
    case_match; [done|]. simpl.
    apply lookup_insert_ne. intros ->. by apply Hcur.
Qed.

Lemma run_actions_same_round gap : ∀ state,
  same_round state (run_actions state gap)
  ∧ expecting_clue_from (run_actions state gap) = expecting_clue_from state.
Proof.
  induction gap as [|a gap IH]; intros state; [by repeat split|].
  destruct (perform_same_round state a) as [Hs He].
  destruct (IH (perform state a)) as [Hs' He'].
  split; [by eapply same_round_trans|]. simpl. congruence.
Qed.

Lemma run_actions_clue_frame gap : ∀ state pid,
  expecting_clue_from state ≠ Some pid →
  current_round_clues (run_actions state gap) !! pid
  = current_round_clues state !! pid.
Proof.
  induction gap as [|a gap IH]; intros state pid Hcur; [done|].
  simpl. rewrite IH.
  - by apply perform_clue_frame.
  - by rewrite (proj2 (perform_same_round state a)).
Qed.

Lemma wait_same_round window : ∀ state pid,
  same_round state (wait_for_player_clue state pid window).2
  ∧ expecting_clue_from (wait_for_player_clue state pid window).2
    = expecting_clue_from state.
Proof.
  induction window as [|gap window IH]; intros state pid; [by repeat split|].
  simpl. destruct (run_actions_same_round gap state) as [Hs He].
  destruct (has_key _ _); [done|].
  destruct (IH (run_actions state gap) pid) as [Hs' He'].
  split; [by eapply same_round_trans|]. congruence.
Qed.

Lemma wait_clue_frame window : ∀ state pid other,
  expecting_clue_from state ≠ Some other →
  current_round_clues (wait_for_player_clue state pid window).2 !! other
  = current_round_clues state !! other.
Proof.
  induction window as [|gap window IH]; intros state pid other Hcur; [done|].
  simpl. destruct (has_key _ _).
  - by apply run_actions_clue_frame.
  - rewrite IH.
    + by apply run_actions_clue_frame.
    + by rewrite (proj2 (run_actions_same_round gap state)).
Qed.

(** A poll that does not find a clue means there is none: when the window
    elapses, the player has no entry. *)
Lemma wait_timed_out window : ∀ state pid,
  (wait_for_player_clue state pid window).1 = false →
  window = []
  ∨ current_round_clues (wait_for_player_clue state pid window).2 !! pid
    = None.
Proof.
  induction window as [|gap window IH]; intros state pid Hw; [by left|].
  right. simpl in *.
  destruct (has_key (current_round_clues (run_actions state gap)) pid)
    eqn:Hk; [done|].
  destruct (IH _ _ Hw) as [->|Hnone]; [|done].
  simpl. by apply has_key_false.
Qed.

Lemma timeout_block_same_round state pid :
  same_round state (timeout_block state pid)
  ∧ expecting_clue_from (timeout_block state pid) = expecting_clue_from state.
Proof. unfold timeout_block. by destruct (has_key _ _). Qed.

Lemma timeout_block_other state pid other :
  other ≠ pid →
  current_round_clues (timeout_block state pid) !! other
  = current_round_clues state !! other.
Proof.
  intros Hne. unfold timeout_block. destruct (has_key _ _); [done|].
  simpl. by apply lookup_insert_ne.
Qed.

(** A turn always runs to its end while voting is closed, and leaves the
    round and the vote as they were. *)
Lemma play_turn_done state pid ts :
  voting_open state = false →
  ∃ state', play_turn state pid ts = TurnDone state'
    ∧ same_round state state' ∧ expecting_clue_from state' = None.
Proof.
  intros Hclosed. unfold play_turn, turn_wait. rewrite Hclosed.
  destruct (wait_for_player_clue _ pid (polls ts)) as [success s1] eqn:Hw.
  pose proof (wait_same_round (polls ts)
                (set_expecting_clue_from (Some pid) state) pid) as [Hs1 _].
  rewrite Hw in Hs1. simpl in Hs1.
  eexists. split; [reflexivity|]. split.
  - eapply same_round_trans; [|apply run_actions_same_round].
    eapply (same_round_trans _
      (set_expecting_clue_from None
         (run_actions (if success then s1
                       else timeout_block (run_actions s1 (late ts)) pid)
            (before_clear ts)))); [|apply same_round_refl].
    assert (same_round state
              (run_actions (if success then s1
                            else timeout_block (run_actions s1 (late ts)) pid)
                 (before_clear ts))) as Hs.
    { eapply same_round_trans; [|apply run_actions_same_round].
      destruct success; [exact Hs1|].
      eapply same_round_trans; [|apply timeout_block_same_round].
      eapply same_round_trans; [exact Hs1|apply run_actions_same_round]. }
    exact Hs.
  - by rewrite (proj2 (run_actions_same_round _ _)).
Qed.

(** In the turn of [pid] nobody else's clue entry changes. *)
Lemma play_turn_other state pid ts other state' :
  other ≠ pid → expecting_clue_from state ≠ Some other →
  play_turn state pid ts = TurnDone state' →
  current_round_clues state' !! other = current_round_clues state !! other.
Proof.
  intros Hne Hcur. unfold play_turn, turn_wait.
  destruct (voting_open state); [done|].
  destruct (wait_for_player_clue _ pid (polls ts)) as [success s1] eqn:Hw.
  intros [= <-].
  assert (expecting_clue_from s1 = Some pid) as He1.
  { pose proof (wait_same_round (polls ts)
      (set_expecting_clue_from (Some pid) state) pid) as [_ He].
    by rewrite Hw in He. }
  assert (current_round_clues s1 !! other = current_round_clues state !! other)
    as Hc1.
  { pose proof (wait_clue_frame (polls ts)
      (set_expecting_clue_from (Some pid) state) pid other) as Hc.
    rewrite Hw in Hc. apply Hc. simpl. congruence. }
  rewrite run_actions_clue_frame by done.
  simpl. rewrite <- Hc1.
  destruct success.
  - apply run_actions_clue_frame. congruence.
  - rewrite run_actions_clue_frame.
    + rewrite timeout_block_other by done.
      apply run_actions_clue_frame. congruence.
    + rewrite (proj2 (timeout_block_same_round _ _)).
      rewrite (proj2 (run_actions_same_round _ _)). congruence.
Qed.

Lemma play_turns_done turn_order : ∀ state scripts,
  voting_open state = false →
  ∃ state', play_turns state turn_order scripts = TurnDone state'
    ∧ same_round state state'.
Proof.
  induction turn_order as [|pid turn_order IH]; intros state scripts Hclosed.
  - exists state. split; [done|apply same_round_refl].
  - simpl.
    destruct (play_turn_done state pid (hd quiet_turn scripts) Hclosed)
      as (s1 & -> & Hs1 & _).
    destruct (IH s1 (tl scripts)) as (s2 & -> & Hs2).
    + destruct Hs1 as (_ & _ & _ & -> & _). done.
    + exists s2. split; [done|]. by eapply same_round_trans.
Qed.

(** The turns of the other players leave the entry of [pid] alone. *)
Lemma play_turns_other turn_order : ∀ state scripts pid state',
  pid ∉ turn_order → expecting_clue_from state ≠ Some pid →
  play_turns state turn_order scripts = TurnDone state' →
  current_round_clues state' !! pid = current_round_clues state !! pid.
Proof.
  induction turn_order as [|q turn_order IH];
    intros state scripts pid state' Hnot Hcur Hplay; simpl in Hplay.
  - by simplify_eq.
  - apply not_elem_of_cons in Hnot as [Hne Hnot].
    destruct (play_turn state q (hd quiet_turn scripts)) as [|s1] eqn:Hq;
      [done|].
    rewrite (IH s1 (tl scripts) pid state' Hnot); [|  |done].
    + by eapply play_turn_other.
    + destruct (voting_open state) eqn:Hv.
      * unfold play_turn in Hq. by rewrite Hv in Hq.
      * destruct (play_turn_done state q (hd quiet_turn scripts) Hv)
          as (s1' & Hq' & _ & He).
        rewrite Hq in Hq'. simplify_eq. by rewrite He.
Qed.

End rounds.

Section game.
Implicit Types (state : GameState) (script : list RoundScript).

(** A round always runs to its recap while voting is closed; it is one more
    round on the counter and one more entry of the history. *)
Lemma play_round_done state rs :
  voting_open state = false →
  ∃ state', play_round state rs = TurnDone state'
    ∧ voting_open state' = false
    ∧ started state' = started state
    ∧ round_no state' = round_no state + 1
    ∧ rounds_played state' = rounds_played state ++ [round_no state + 1].
Proof.
  intros Hclosed. unfold play_round.
  set (s0 := run_actions state (before_round rs)).
  destruct (run_actions_same_round (before_round rs) state)
    as [(Hst0 & Hr0 & Hh0 & Hv0 & _) _]. fold s0 in Hst0, Hr0, Hh0, Hv0.
  set (s1 := round_start s0).
  set (s2 := run_actions s1 (intro rs)).
  destruct (run_actions_same_round (intro rs) s1)
    as [(Hst2 & Hr2 & Hh2 & Hv2 & _) _]. fold s2 in Hst2, Hr2, Hh2, Hv2.
  destruct (play_turns_done (alive_players s1) s2 (turns rs))
    as (s3 & -> & Hst3 & Hr3 & Hh3 & Hv3 & _).
  { rewrite Hv2. simpl. by rewrite Hv0. }
  set (s4 := run_actions s3 (before_recap rs)).
  destruct (run_actions_same_round (before_recap rs) s3)
    as [(Hst4 & Hr4 & Hh4 & Hv4 & _) _]. fold s4 in Hst4, Hr4, Hh4, Hv4.
  destruct (run_actions_same_round (after_recap rs) (round_recap s4))
    as [(Hst5 & Hr5 & Hh5 & Hv5 & _) _].
  eexists. split; [reflexivity|].
  unfold rounds_played.
  rewrite Hv5, Hst5, Hr5, Hh5. simpl.
  rewrite Hv4, Hst4, Hr4, Hh4, Hv3, Hst3, Hr3, Hh3, Hv2, Hst2, Hr2, Hh2. simpl.
  rewrite Hv0, Hst0, Hr0, Hh0. rewrite fmap_app. done.
Qed.

(** The loop, from any round counter below the threshold: as long as the
    script covers fewer rounds than are left, the loop is still running
    with voting closed; once it covers them, the loop has opened the vote
    right after the round that reached the threshold. *)
Lemma game_loop_rounds script : ∀ state,
  voting_open state = false → round_no state < ROUNDS_BEFORE_FINAL_VOTE →
  let n := Z.of_nat (length script) in
  (round_no state + n < ROUNDS_BEFORE_FINAL_VOTE →
   ∃ state', game_loop state script = LoopRunning state'
     ∧ voting_open state' = false
     ∧ round_no state' = round_no state + n
     ∧ rounds_played state'
       = rounds_played state ++ seqZ (round_no state + 1) n)
  ∧ (ROUNDS_BEFORE_FINAL_VOTE ≤ round_no state + n →
     ∃ state', game_loop state script = LoopVoting state'
       ∧ voting_open state' = true ∧ votes state' = ∅
       ∧ round_no state' = ROUNDS_BEFORE_FINAL_VOTE
       ∧ rounds_played state'
         = rounds_played state
           ++ seqZ (round_no state + 1)
                (ROUNDS_BEFORE_FINAL_VOTE - round_no state)).
Proof.
  induction script as [|rs script IH]; intros state Hclosed Hlt; simpl.
  - split; [|lia]. intros _. exists state.
    rewrite Z.add_0_r, seqZ_nil, app_nil_r by lia. done.
  - destruct (play_round_done state rs Hclosed)
      as (s & -> & Hv & _ & Hr & Hh).
    destruct (Z.leb_spec ROUNDS_BEFORE_FINAL_VOTE (round_no s)) as [Hge|Hlt'].
    + split; [lia|]. intros _. eexists. split; [reflexivity|].
      simpl. split_and!; try done; [lia|].
      unfold rounds_played in *. simpl. rewrite Hh.
      replace (ROUNDS_BEFORE_FINAL_VOTE - round_no state) with 1 by lia.
      by rewrite seqZ_cons, seqZ_nil by lia.
    + destruct (IH s Hv Hlt') as [IHrun IHvote]. split.
      * intros Hn. destruct IHrun as (s' & -> & Hv' & Hr' & Hh'); [lia|].
        exists s'. split_and!; try done; [lia|].
        rewrite Hh', Hh, <- app_assoc. f_equal. simpl.
        rewrite (seqZ_cons (round_no state + 1)) by lia. f_equal.
        f_equal; lia.
      * intros Hn. destruct IHvote as (s' & -> & Hv' & Hvo & Hr' & Hh'); [lia|].
        exists s'. split_and!; try done.
        rewrite Hh', Hh, <- app_assoc. f_equal. simpl.
        rewrite (seqZ_cons (round_no state + 1)) by lia. f_equal.
        f_equal; lia.
Qed.

(** While voting is open neither the button nor the modal gets a clue
    through. *)
Lemma no_clue_while_voting state uid value :
  voting_open state = true →
  (∃ r, on_submit_locked state uid value = Keep r ∧ r ≠ ClueSubmitted)
  ∧ (∃ r, submit_locked state uid = Keep r ∧ r ≠ ModalOpened).
Proof.
  intros Hopen. unfold on_submit_locked, submit_locked. rewrite Hopen.
  split.
  - destruct (negb (started state)); [by eexists|].
    destruct (strip value =? "")%string; by eexists.
  - destruct (negb (started state)); by eexists.
Qed.

End game.

(** C8.  From a freshly started game (round 0, voting closed), whatever the
    players do in the gaps of the loop: while the script covers fewer than
    three rounds the loop is still running, voting is closed and the rounds
    on record are the ones played so far; as soon as it covers three, the
    loop has stopped with voting open and an empty vote map, the counter at
    3 and rounds 1, 2, 3 added to the record, and the rest of the script is
    never played.  And while voting is open every clue submission, through
    the button or the modal, is refused and changes nothing. *)
Theorem C8_vote_after_three_rounds (state : GameState)
    (script : list RoundScript) :
  round_no state = 0 → voting_open state = false →
  ((length script < 3)%nat →
   ∃ state', game_loop state script = LoopRunning state'
     ∧ voting_open state' = false
     ∧ round_no state' = Z.of_nat (length script)
     ∧ rounds_played state'
       = rounds_played state ++ seqZ 1 (Z.of_nat (length script)))
  ∧ ((3 ≤ length script)%nat →
     ∃ state', game_loop state script = LoopVoting state'
       ∧ game_loop state (take 3 script) = LoopVoting state'
       ∧ voting_open state' = true ∧ votes state' = ∅
       ∧ round_no state' = 3
       ∧ rounds_played state' = rounds_played state ++ [1; 2; 3])
  ∧ (∀ voting uid value, voting_open voting = true →
     (∃ r, on_submit_locked voting uid value = Keep r ∧ r ≠ ClueSubmitted)
     ∧ (∃ r, submit_locked voting uid = Keep r ∧ r ≠ ModalOpened)
     ∧ after voting (on_submit_locked voting uid value) = voting).
Proof.
  intros Hr Hclosed.
  destruct (game_loop_rounds script state Hclosed) as [Hrun Hvote];
    [rewrite Hr; unfold ROUNDS_BEFORE_FINAL_VOTE; lia|].
  unfold ROUNDS_BEFORE_FINAL_VOTE in *. rewrite Hr in *. simpl in *.
  split_and!.
  - intros Hn. destruct Hrun as (s & Hs & ? & ? & ?); [lia|]. by exists s.
  - intros Hn. destruct Hvote as (s & Hs & ? & ? & ? & Hh); [lia|].
    exists s. split_and!; try done.
    destruct (game_loop_rounds (take 3 script) state Hclosed) as [_ Hvote3];
      [rewrite Hr; unfold ROUNDS_BEFORE_FINAL_VOTE; lia|].
    unfold ROUNDS_BEFORE_FINAL_VOTE in *. rewrite Hr in *.
    destruct Hvote3 as (s3 & Hs3 & _); [rewrite length_take; lia|].
    rewrite Hs3. f_equal.
    (* the loop never looks at the script beyond the round that ends it *)
    clear -Hs Hs3 Hn.
    revert state s s3 Hs Hs3 Hn.
    generalize 3%nat as k.
    induction script as [|rs script IH]; intros k state s s3 Hs Hs3 Hn.
    + by rewrite take_nil in Hs3.
    + destruct k as [|k]; [done|]. simpl in Hs, Hs3.
      destruct (play_round state rs) as [|s1]; [done|].
      destruct (_ <=? _); [congruence|].
      destruct script as [|rs' script'].
      * by rewrite take_nil in Hs3.
      * destruct k as [|k]; [done|].
        eapply (IH (S k)); [done..|simpl in *; lia].
  - intros voting uid value Hopen.
    destruct (no_clue_while_voting voting uid value Hopen)
      as [(r & Hr1 & Hne1) Hbutton].
    split_and!; [by exists r|done|by rewrite Hr1].
Qed.

Lemma C8_vote_after_three_rounds_witness :
  (∃ state',
     game_loop demo_game [demo_round; demo_round] = LoopRunning state'
     ∧ voting_open state' = false
     ∧ round_no state' = 2
     ∧ rounds_played state' = rounds_played demo_game ++ seqZ 1 2)
  ∧ ∃ state',
      game_loop demo_game [demo_round; demo_round; demo_round; demo_round]
      = LoopVoting state'
      ∧ game_loop demo_game
          (take 3 [demo_round; demo_round; demo_round; demo_round])
        = LoopVoting state'
      ∧ voting_open state' = true ∧ votes state' = ∅
      ∧ round_no state' = 3
      ∧ rounds_played state' = rounds_played demo_game ++ [1; 2; 3].
Proof.
  assert (round_no demo_game = 0) as Hr by reflexivity.
  assert (voting_open demo_game = false) as Hclosed by reflexivity.
  split.
  - destruct (C8_vote_after_three_rounds demo_game [demo_round; demo_round]
                Hr Hclosed) as (Hrun & _ & _).
    apply Hrun. simpl. lia.
  - destruct (C8_vote_after_three_rounds demo_game
                [demo_round; demo_round; demo_round; demo_round] Hr Hclosed)
      as (_ & Hvote & _).
    apply Hvote. simpl. lia.
Defined.

(** C9.  In the turn of [pid], when the window elapses without any poll
    having found a clue of theirs, the timeout block runs once, after the
    last gap: if the player still has no clue, their entry becomes the
    placeholder; if a clue was accepted in that last gap, the block leaves
    the session as it is.  The block touches nobody else's entry, running
    it again would change nothing, and the turns of the other players of
    the round leave the entry of [pid] alone. *)
Theorem C9_timeout_placeholder (state : GameState) (pid : Z)
    (ts : TurnScript) :
  voting_open state = false →
  (turn_wait state pid ts).1 = false →
  let elapsed := run_actions (turn_wait state pid ts).2 (late ts) in
  let written := timeout_block elapsed pid in
  (current_round_clues elapsed !! pid = None →
   current_round_clues written !! pid = Some TIMED_OUT)
  ∧ (late ts = [] → polls ts ≠ [] →
     current_round_clues written !! pid = Some TIMED_OUT)
  ∧ (∀ clue, current_round_clues elapsed !! pid = Some clue →
     written = elapsed)
  ∧ (∀ other, other ≠ pid →
     current_round_clues written !! other
     = current_round_clues elapsed !! other)
  ∧ timeout_block written pid = written
  ∧ play_turn state pid ts
    = TurnDone
        (run_actions
           (set_expecting_clue_from None
              (run_actions written (before_clear ts))) (pause ts))
  ∧ (∀ turn_order scripts s s',
       pid ∉ turn_order → expecting_clue_from s ≠ Some pid →
       play_turns s turn_order scripts = TurnDone s' →
       current_round_clues s' !! pid = current_round_clues s !! pid).
Proof.
  intros Hclosed Hwait. simpl.
  set (elapsed := run_actions (turn_wait state pid ts).2 (late ts)).
  assert (current_round_clues elapsed !! pid = None →
          current_round_clues (timeout_block elapsed pid) !! pid
          = Some TIMED_OUT) as Hwrite.
  { intros Hnone. unfold timeout_block.
    rewrite (proj2 (has_key_false _ _) Hnone). simpl.
    apply lookup_insert_eq. }
  split_and!.
  - exact Hwrite.
  - intros Hlate Hpolls. apply Hwrite. unfold elapsed. rewrite Hlate. simpl.
    unfold turn_wait in *.
    destruct (wait_timed_out _ _ _ Hwait) as [?|Hnone]; done.
  - intros clue Hclue. unfold timeout_block, has_key. by rewrite Hclue.
  - intros other Hne. by apply timeout_block_other.
  - unfold timeout_block at 1.
    destruct (has_key (current_round_clues (timeout_block elapsed pid)) pid)
      eqn:Hk; [done|].
    apply has_key_false in Hk. unfold timeout_block in Hk.
    destruct (has_key (current_round_clues elapsed) pid) eqn:Hk'.
    + apply has_key_dom, elem_of_dom in Hk' as [c Hc]. congruence.
    + simpl in Hk. by rewrite lookup_insert_eq in Hk.
  - unfold play_turn. rewrite Hclosed.
    destruct (turn_wait state pid ts) as [success s1] eqn:Hw.
    simpl in Hwait. subst success. done.
  - intros turn_order scripts s s'. apply play_turns_other.
Qed.

Lemma C9_timeout_placeholder_witness :
  let state := round_start demo_game in
  let elapsed :=
    run_actions (turn_wait state 101 demo_silent_turn).2
      (late demo_silent_turn) in
  let written := timeout_block elapsed 101 in
  (current_round_clues elapsed !! 101 = None →
   current_round_clues written !! 101 = Some TIMED_OUT)
  ∧ (late demo_silent_turn = [] → polls demo_silent_turn ≠ [] →
     current_round_clues written !! 101 = Some TIMED_OUT)
  ∧ (∀ clue, current_round_clues elapsed !! 101 = Some clue →
     written = elapsed)
  ∧ (∀ other, other ≠ 101 →
     current_round_clues written !! other
     = current_round_clues elapsed !! other)
  ∧ timeout_block written 101 = written
  ∧ play_turn state 101 demo_silent_turn
    = TurnDone
        (run_actions
           (set_expecting_clue_from None
              (run_actions written (before_clear demo_silent_turn)))
           (pause demo_silent_turn))
  ∧ (∀ turn_order scripts s s',
       101 ∉ turn_order → expecting_clue_from s ≠ Some 101 →
       play_turns s turn_order scripts = TurnDone s' →
       current_round_clues s' !! 101 = current_round_clues s !! 101).
Proof.
  apply (C9_timeout_placeholder (round_start demo_game) 101 demo_silent_turn).
  - reflexivity.
  - vm_compute. reflexivity.
Defined.

(** The round of the examples, played: 100 and 102 have their clue on
    record, 101 and 103 the placeholder; what 102 sends in the pause after
    their turn is refused. *)
Example demo_round_played :
  ∃ state',
    play_round demo_game demo_round = TurnDone state'
    ∧ history state'
      = [(1, <[103 := TIMED_OUT]> (<[102 := "round"%string]>
               (<[101 := TIMED_OUT]> (<[100 := "cheesy"%string]> ∅))))].
Proof. eexists. split; vm_compute; reflexivity. Qed.

(** * Further properties of the code *)

(** ** Lobby *)

Section more_lobby.
Implicit Types (state : GameState) (G : Games) (uid : Z).

Lemma lobby_size state :
  lobby_ok state → size (players state) = length (join_order state).
Proof.
  intros [_ Hro Hnd _]. unfold roster_matches_order in Hro.
  rewrite <- size_dom, Hro. by apply size_list_to_set.
Qed.

Lemma lobby_member_order state uid :
  lobby_ok state → uid ∈ dom (players state) ↔ uid ∈ join_order state.
Proof.
  intros [_ Hro _ _]. unfold roster_matches_order in Hro.
  rewrite Hro. apply elem_of_list_to_set.
Qed.

Lemma commit_other G key key' o :
  key ≠ key' → (commit G key o).2 !! key' = G !! key'.
Proof.
  intros Hne. destruct o as [r|r s|r]; simpl; [done| |].
  - by apply lookup_insert_ne.
  - by apply lookup_delete_ne.
Qed.

End more_lobby.

(** Host leaving closes the lobby.  In every lobby the operations of the
    lobby phase can produce, the host is in the roster, so the host pressing
    Leave always removes the session, however many players are in it;
    afterwards Join and Leave find no lobby in that channel and the next
    start command opens a fresh one for its author. *)
Theorem host_leave_closes_lobby (ops : list LobbyOp) (G : Games) (n : nat)
    (key : Key) (state : GameState) (found : bool) :
  lobby_trace ∅ ops !! n = Some G → G !! key = Some state →
  let G' := delete key G in
  LobbyView_leave G key (host_id state) found = (HostLeftLobbyClosed, G')
  ∧ (∀ uid f, LobbyView_join G' key uid f = (NoLobbyHere, G'))
  ∧ (∀ uid f, LobbyView_leave G' key uid f = (NoLobbyHere, G'))
  ∧ (∀ author msg f,
       cmd_startgame_check G' key author msg f
       = (LobbyCreated, <[key := create_lobby key author msg]> G')).
Proof.
  intros Hn Hkey.
  assert (lobby_ok state) as [Hns _ _ Hhost].
  { eapply (lobby_trace_ok ops ∅); [by intros ? ? ?| |exact Hkey].
    by eapply list_elem_of_lookup_2. }
  simpl. split_and!.
  - unfold LobbyView_leave, get_state_from_channel, leave_locked.
    rewrite Hkey, Hns. apply has_key_dom in Hhost. rewrite Hhost. simpl.
    by rewrite bool_decide_eq_true_2.
  - intros uid f. unfold LobbyView_join, get_state_from_channel.
    by rewrite lookup_delete_eq.
  - intros uid f. unfold LobbyView_leave, get_state_from_channel.
    by rewrite lookup_delete_eq.
  - intros author msg f. unfold cmd_startgame_check.
    by rewrite lookup_delete_eq.
Qed.

Lemma host_leave_closes_lobby_witness :
  let G := {[demo_key := demo_lobby]} : Games in
  let G' := delete demo_key G in
  LobbyView_leave G demo_key (host_id demo_lobby) true
  = (HostLeftLobbyClosed, G')
  ∧ (∀ uid f, LobbyView_join G' demo_key uid f = (NoLobbyHere, G'))
  ∧ (∀ uid f, LobbyView_leave G' demo_key uid f = (NoLobbyHere, G'))
  ∧ (∀ author msg f,
       cmd_startgame_check G' demo_key author msg f
       = (LobbyCreated, <[demo_key := create_lobby demo_key author msg]> G')).
Proof.
  intros G G'.
  apply (host_leave_closes_lobby demo_ops G 4 demo_key demo_lobby true).
  - vm_compute. reflexivity.
  - vm_compute. reflexivity.
Defined.

(** Join then Leave is a round trip.  A user who is not in a lobby joins
    and is appended to the order; joining again is refused; leaving puts
    the roster and the join order back exactly as they were.  And in a
    lobby the roster has as many players as the join order has ids. *)
Theorem join_leave_round_trip (state : GameState) (uid : Z) (f1 f2 f3 : bool) :
  lobby_ok state → uid ∉ dom (players state) →
  let joined := after state (join_locked state uid f1) in
  let left := after joined (leave_locked joined uid f3) in
  reply_of (join_locked state uid f1) = JoinedLobby
  ∧ join_order joined = join_order state ++ [uid]
  ∧ size (players joined) = S (size (players state))
  ∧ size (players joined) = length (join_order joined)
  ∧ join_locked joined uid f2 = Keep AlreadyJoined
  ∧ reply_of (leave_locked joined uid f3) = LeftLobby
  ∧ players left = players state
  ∧ join_order left = join_order state.
Proof.
  intros Hok Hout. simpl.
  pose proof (join_locked_ok state uid f1 Hok) as Hok1.
  pose proof Hok as [Hns Hro Hnd Hhost].
  assert (uid ≠ host_id state) as Hne by (intros ->; done).
  assert (uid ∉ join_order state) as Hnot
    by (by rewrite <- (lobby_member_order state uid Hok)).
  apply has_key_not_dom in Hout.
  unfold join_locked in *. rewrite Hns, Hout in *. simpl in *.
  destruct (refresh_lobby_embed_fields f1
    (set_join_order (join_order state ++ [uid])
       (set_players (<[uid:=new_player uid]> (players state)) state)))
    as (Hp & Hj & Hs & Hh). simpl in Hp, Hj, Hs, Hh.
  set (joined := refresh_lobby_embed f1 _) in *.
  assert (has_key (players joined) uid = true) as Hin.
  { apply has_key_dom. rewrite Hp, dom_insert_L.
    apply elem_of_union. left. by apply elem_of_singleton. }
  split_and!; try done.
  - rewrite Hp. apply map_size_insert_None. by apply has_key_false.
  - by apply lobby_size.
  - by rewrite Hs, Hns, Hin.
  - unfold leave_locked. rewrite Hs, Hns, Hin, Hh. simpl.
    by rewrite bool_decide_eq_false_2.
  - unfold leave_locked. rewrite Hs, Hns, Hin, Hh. simpl.
    rewrite bool_decide_eq_false_2 by done. simpl.
    rewrite (proj1 (refresh_lobby_embed_fields f3 _)). simpl.
    rewrite Hp. apply delete_insert_id. by apply has_key_false.
  - unfold leave_locked. rewrite Hs, Hns, Hin, Hh. simpl.
    rewrite bool_decide_eq_false_2 by done. simpl.
    rewrite (proj1 (proj2 (refresh_lobby_embed_fields f3 _))). simpl.
    rewrite Hj, filter_app, filter_keeps_all by done.
    rewrite filter_cons_False by (intros H; by apply H).
    by rewrite filter_nil, app_nil_r.
Qed.

Lemma join_leave_round_trip_witness :
  let joined := after demo_lobby (join_locked demo_lobby 104 true) in
  let left := after joined (leave_locked joined 104 false) in
  reply_of (join_locked demo_lobby 104 true) = JoinedLobby
  ∧ join_order joined = join_order demo_lobby ++ [104]
  ∧ size (players joined) = S (size (players demo_lobby))
  ∧ size (players joined) = length (join_order joined)
  ∧ join_locked joined 104 true = Keep AlreadyJoined
  ∧ reply_of (leave_locked joined 104 false) = LeftLobby
  ∧ players left = players demo_lobby
  ∧ join_order left = join_order demo_lobby.
Proof.
  apply (join_leave_round_trip demo_lobby 104 true true false).
  - split.
    + reflexivity.
    + vm_compute. reflexivity.
    + apply (bool_decide_unpack _). vm_compute. exact I.
    + apply (bool_decide_unpack _). vm_compute. exact I.
  - apply (bool_decide_unpack _). vm_compute. exact I.
Defined.

(** Sessions do not interfere.  A lobby operation issued in one channel
    leaves the session of every other channel, present or absent, exactly as
    it was. *)
Theorem sessions_independent (G : Games) (op : LobbyOp) (key' : Key) :
  op_key op ≠ key' → lobby_step G op !! key' = G !! key'.
Proof.
  intros Hne.
  destruct op as [key author msg found|key uid found|key uid found];
    simpl in *.
  - unfold cmd_startgame_check. destruct (G !! key).
    + by apply commit_other.
    + simpl. by apply lookup_insert_ne.
  - unfold LobbyView_join, get_state_from_channel. destruct (G !! key).
    + by apply commit_other.
    + done.
  - unfold LobbyView_leave, get_state_from_channel. destruct (G !! key).
    + by apply commit_other.
    + done.
Qed.

Lemma sessions_independent_witness :
  lobby_step {[demo_key := demo_lobby]} (OpLeave (1, 11) 100 true) !! demo_key
  = ({[demo_key := demo_lobby]} : Games) !! demo_key.
Proof.
  apply (sessions_independent _ (OpLeave (1, 11) 100 true) demo_key).
  simpl. unfold demo_key. intros [= ?].
Defined.

(** ** A started game *)

Section cast.
Implicit Types (state : GameState) (pid uid : Z) (gap : list Action).

Lemma same_cast_refl state : same_cast state state.
Proof. by repeat split. Qed.

Lemma same_cast_trans s1 s2 s3 :
  same_cast s1 s2 → same_cast s2 s3 → same_cast s1 s3.
Proof.
  unfold same_cast. intros (?&?&?&?&?&?) (?&?&?&?&?&?).
  split_and!; congruence.
Qed.

Lemma same_cast_started s1 s2 :
  started s1 = true → same_cast s1 s2 → started s2 = true.
Proof. intros H (Hs & _). congruence. Qed.

Lemma perform_same_cast state a :
  started state = true → same_cast state (perform state a).
Proof.
  intros Hs. unfold perform.
  destruct a as [uid found|uid found|uid|uid value]; simpl.
  - unfold join_locked. rewrite Hs. apply same_cast_refl.
  - unfold leave_locked. rewrite Hs. apply same_cast_refl.
  - unfold submit_locked. repeat case_match; apply same_cast_refl.
  - unfold on_submit_locked. repeat case_match; by repeat split.
Qed.

Lemma run_actions_same_cast gap : ∀ state,
  started state = true → same_cast state (run_actions state gap).
Proof.
  induction gap as [|a gap IH]; intros state Hs; [apply same_cast_refl|].
  pose proof (perform_same_cast state a Hs) as H1.
  eapply same_cast_trans; [exact H1|]. apply IH.
  by eapply same_cast_started.
Qed.

Lemma wait_same_cast window : ∀ state pid,
  started state = true →
  same_cast state (wait_for_player_clue state pid window).2.
Proof.
  induction window as [|gap window IH]; intros state pid Hs;
    [apply same_cast_refl|].
  simpl. pose proof (run_actions_same_cast gap state Hs) as H1.
  destruct (has_key _ _); [done|].
  eapply same_cast_trans; [exact H1|]. apply IH.
  by eapply same_cast_started.
Qed.

Lemma timeout_block_same_cast state pid :
  same_cast state (timeout_block state pid).
Proof. unfold timeout_block. destruct (has_key _ _); by repeat split. Qed.

Lemma play_turn_same_cast state pid ts :
  started state = true → same_cast state (turn_state (play_turn state pid ts)).
Proof.
  intros Hs. unfold play_turn, turn_wait.
  destruct (voting_open state); [apply same_cast_refl|].
  destruct (wait_for_player_clue _ pid (polls ts)) as [success s1] eqn:Hw.
  pose proof (wait_same_cast (polls ts)
                (set_expecting_clue_from (Some pid) state) pid Hs) as H1.
  rewrite Hw in H1. simpl in H1.
  assert (same_cast state s1) as H1' by exact H1.
  set (s2 := if success then s1
             else timeout_block (run_actions s1 (late ts)) pid).
  assert (same_cast state s2) as H2.
  { unfold s2. destruct success; [done|].
    eapply same_cast_trans; [|apply timeout_block_same_cast].
    eapply same_cast_trans; [exact H1'|]. apply run_actions_same_cast.
    by eapply same_cast_started. }
  simpl.
  assert (same_cast state (run_actions s2 (before_clear ts))) as H3.
  { eapply same_cast_trans; [exact H2|]. apply run_actions_same_cast.
    by eapply same_cast_started. }
  eapply same_cast_trans;
    [|apply run_actions_same_cast; simpl; by eapply same_cast_started].
  exact H3.
Qed.

Lemma play_turns_same_cast turn_order : ∀ state scripts,
  started state = true →
  same_cast state (turn_state (play_turns state turn_order scripts)).
Proof.
  induction turn_order as [|pid turn_order IH]; intros state scripts Hs;
    [apply same_cast_refl|].
  simpl.
  pose proof (play_turn_same_cast state pid (hd quiet_turn scripts) Hs) as H1.
  destruct (play_turn state pid (hd quiet_turn scripts)) as [s1|s1];
    [exact H1|].
  simpl in H1. eapply same_cast_trans; [exact H1|]. apply IH.
  by eapply same_cast_started.
Qed.

Lemma play_round_same_cast state rs :
  started state = true → same_cast state (turn_state (play_round state rs)).
Proof.
  intros Hs. unfold play_round.
  pose proof (run_actions_same_cast (before_round rs) state Hs) as H0.
  set (s0 := run_actions state (before_round rs)) in *.
  assert (same_cast state (round_start s0)) as H1.
  { eapply same_cast_trans; [exact H0|]. by repeat split. }
  set (s1 := round_start s0) in *.
  assert (same_cast state (run_actions s1 (intro rs))) as H2.
  { eapply same_cast_trans; [exact H1|]. apply run_actions_same_cast.
    by eapply same_cast_started. }
  pose proof (play_turns_same_cast (alive_players s1)
                (run_actions s1 (intro rs)) (turns rs)
                (same_cast_started _ _ Hs H2)) as H3.
  destruct (play_turns _ _ _) as [s3|s3]; simpl in *.
  - by eapply same_cast_trans.
  - assert (same_cast state s3) as H3' by (by eapply same_cast_trans).
    assert (same_cast state (round_recap (run_actions s3 (before_recap rs))))
      as H4.
    { eapply same_cast_trans;
        [|apply (same_cast_refl (round_recap _))].
      eapply same_cast_trans; [exact H3'|].
      eapply same_cast_trans;
        [apply run_actions_same_cast; by eapply same_cast_started|].
      by repeat split. }
    eapply same_cast_trans; [exact H4|]. apply run_actions_same_cast.
    by eapply same_cast_started.
Qed.

Lemma game_loop_same_cast script : ∀ state,
  started state = true → same_cast state (loop_state (game_loop state script)).
Proof.
  induction script as [|rs script IH]; intros state Hs;
    [apply same_cast_refl|].
  simpl. pose proof (play_round_same_cast state rs Hs) as H1.
  destruct (play_round state rs) as [s1|s1]; simpl in *; [done|].
  destruct (_ <=? _).
  - simpl. eapply same_cast_trans; [exact H1|]. by repeat split.
  - eapply same_cast_trans; [exact H1|]. apply IH.
    by eapply same_cast_started.
Qed.

Lemma cast_votes_same_cast acts : ∀ state,
  same_cast state (cast_votes state acts).
Proof.
  induction acts as [|a acts IH]; intros state; [apply same_cast_refl|].
  simpl. eapply same_cast_trans; [|apply IH].
  destruct a as [uid|uid target|uid]; simpl.
  - unfold VoteView_skip, VoteView_record.
    repeat case_match; by repeat split.
  - unfold VoteSelect_callback. repeat case_match; by repeat split.
  - by repeat split.
Qed.

End cast.

(** Once the game has started, the cast is fixed.  Join and Leave are
    refused, and wherever the round loop stands and whatever is voted
    afterwards, the roster, the join order, the host, the imposters and the
    secret word are the ones the game started with. *)
Theorem cast_frozen_after_start (state : GameState) :
  started state = true →
  (∀ uid found,
     join_locked state uid found = Keep GameAlreadyStarted
     ∧ leave_locked state uid found = Keep CantLeaveMidGame)
  ∧ (∀ script acts,
       let state' := loop_state (game_loop state script) in
       same_cast state state'
       ∧ same_cast state (cast_votes state' acts)).
Proof.
  intros Hs. split.
  - intros uid found. unfold join_locked, leave_locked. by rewrite Hs.
  - intros script acts. simpl.
    pose proof (game_loop_same_cast script state Hs) as H1.
    split; [done|]. eapply same_cast_trans; [exact H1|].
    apply cast_votes_same_cast.
Qed.

Lemma cast_frozen_after_start_witness :
  (∀ uid found,
     join_locked demo_game uid found = Keep GameAlreadyStarted
     ∧ leave_locked demo_game uid found = Keep CantLeaveMidGame)
  ∧ (∀ script acts,
       let state' := loop_state (game_loop demo_game script) in
       same_cast demo_game state'
       ∧ same_cast demo_game (cast_votes state' acts)).
Proof. apply (cast_frozen_after_start demo_game). reflexivity. Defined.

Section order.
Implicit Types (state : GameState) (pid uid : Z) (gap : list Action).

Lemma alive_players_all state :
  roster_matches_order state → all_alive state →
  alive_players state = join_order state.
Proof.
  intros Hro Halive. unfold alive_players.
  assert (∀ uid, uid ∈ join_order state → in_alive state uid = true) as Hall.
  { intros uid Hin. apply (elem_of_list_to_set (C:=gset Z)) in Hin.
    rewrite <- Hro in Hin. apply elem_of_dom in Hin as [p Hp].
    unfold in_alive. rewrite Hp. by apply (Halive uid p). }
  induction (join_order state) as [|x l IH]; [done|].
  rewrite filter_cons_True by (apply Hall; by left).
  f_equal. apply IH. intros uid Hin. apply Hall. by right.
Qed.

Lemma same_cast_alive_players s s' :
  same_cast s s' → alive_players s' = alive_players s.
Proof.
  intros (_ & _ & Hp & Hj & _). unfold alive_players, in_alive.
  by rewrite Hp, Hj.
Qed.

Lemma same_cast_game_ok s s' : game_ok s → same_cast s s' → game_ok s'.
Proof.
  intros [Hs Hro Hnd Hal] (Hs' & _ & Hp & Hj & _).
  split; unfold roster_matches_order, all_alive in *;
    rewrite ?Hs', ?Hp, ?Hj; done.
Qed.

Lemma clues_grow_refl who state : clues_grow who state state.
Proof. intros u. split; auto. Qed.

Lemma clues_grow_trans who s1 s2 s3 :
  clues_grow who s1 s2 → clues_grow who s2 s3 → clues_grow who s1 s3.
Proof.
  intros H12 H23 u. destruct (H12 u) as [Ha Hb], (H23 u) as [Hc Hd].
  split; [auto|]. intros H3. destruct (Hd H3) as [H2|?]; auto.
Qed.

Lemma perform_clues_grow state a :
  clues_grow (expecting_clue_from state) state (perform state a).
Proof.
  unfold perform. destruct a as [uid found|uid found|uid|uid value]; simpl.
  - unfold join_locked. destruct (started state); [apply clues_grow_refl|].
    destruct (has_key _ _); [apply clues_grow_refl|]. simpl.
    intros u. by rewrite (proj2 (proj2 (refresh_same_round found _))); auto.
  - unfold leave_locked. destruct (started state); [apply clues_grow_refl|].
    destruct (has_key _ _); [|apply clues_grow_refl]. simpl.
    case_bool_decide; [apply clues_grow_refl|]. simpl.
    intros u. by rewrite (proj2 (proj2 (refresh_same_round found _))); auto.
  - unfold submit_locked. repeat case_match; apply clues_grow_refl.
  - unfold on_submit_locked.
    destruct (negb (started state)); [apply clues_grow_refl|].
    destruct (strip value =? "")%string; [apply clues_grow_refl|].
    destruct (voting_open state); [apply clues_grow_refl|].
    case_bool_decide as Hexp; [apply clues_grow_refl|].
    case_match; [apply clues_grow_refl|].
    intros u. simpl. rewrite dom_insert_L, elem_of_union, elem_of_singleton.
    split; [auto|]. intros [->|?]; auto.
Qed.

Lemma run_actions_clues_grow gap : ∀ state,
  clues_grow (expecting_clue_from state) state (run_actions state gap).
Proof.
  induction gap as [|a gap IH]; intros state; [apply clues_grow_refl|].
  simpl. eapply clues_grow_trans; [apply perform_clues_grow|].
  specialize (IH (perform state a)).
  by rewrite (proj2 (perform_same_round state a)) in IH.
Qed.

Lemma wait_clues_grow window : ∀ state pid,
  clues_grow (expecting_clue_from state) state
    (wait_for_player_clue state pid window).2.
Proof.
  induction window as [|gap window IH]; intros state pid;
    [apply clues_grow_refl|].
  simpl. destruct (has_key _ _); [apply run_actions_clues_grow|].
  eapply clues_grow_trans; [apply run_actions_clues_grow|].
  specialize (IH (run_actions state gap) pid).
  by rewrite (proj2 (run_actions_same_round gap state)) in IH.
Qed.

Lemma wait_found window : ∀ state pid,
  (wait_for_player_clue state pid window).1 = true →
  pid ∈ dom (current_round_clues (wait_for_player_clue state pid window).2).
Proof.
  induction window as [|gap window IH]; intros state pid; [done|].
  simpl. destruct (has_key _ pid) eqn:Hk; [|apply IH].
  intros _. by apply has_key_dom.
Qed.

Lemma timeout_block_dom state pid u :
  u ∈ dom (current_round_clues (timeout_block state pid))
  ↔ u = pid ∨ u ∈ dom (current_round_clues state).
Proof.
  unfold timeout_block.
  destruct (has_key (current_round_clues state) pid) eqn:Hk.
  - apply has_key_dom in Hk. split; [auto|]. by intros [->|?].
  - simpl. by rewrite dom_insert_L, elem_of_union, elem_of_singleton.
Qed.

(** A turn ends with an entry for its player, and for nobody new. *)
Lemma play_turn_dom state pid ts :
  voting_open state = false → expecting_clue_from state = None →
  ∃ state', play_turn state pid ts = TurnDone state'
    ∧ expecting_clue_from state' = None
    ∧ voting_open state' = false
    ∧ ∀ u, u ∈ dom (current_round_clues state')
           ↔ u = pid ∨ u ∈ dom (current_round_clues state).
Proof.
  intros Hclosed Hnone.
  destruct (play_turn_done state pid ts Hclosed)
    as (state' & Hplay & (_ & _ & _ & Hv & _) & He).
  exists state'. split_and!; [done|done|congruence|].
  unfold play_turn, turn_wait in Hplay. rewrite Hclosed in Hplay.
  set (s0 := set_expecting_clue_from (Some pid) state) in *.
  pose proof (wait_clues_grow (polls ts) s0 pid) as Hg1.
  pose proof (wait_found (polls ts) s0 pid) as Hf1.
  pose proof (proj2 (wait_same_round (polls ts) s0 pid)) as He1.
  destruct (wait_for_player_clue s0 pid (polls ts)) as [success s1].
  simpl in Hg1, Hf1, He1.
  set (s2 := if success then s1
             else timeout_block (run_actions s1 (late ts)) pid) in *.
  assert (expecting_clue_from s2 = Some pid) as He2.
  { unfold s2. destruct success; [done|].
    rewrite (proj2 (timeout_block_same_round _ _)).
    by rewrite (proj2 (run_actions_same_round _ _)). }
  assert (∀ u, u ∈ dom (current_round_clues s2)
               ↔ u = pid ∨ u ∈ dom (current_round_clues state)) as Hd2.
  { intros u. unfold s2. destruct success.
    - destruct (Hg1 u) as [Ha Hb]. split.
      + intros Hu. destruct (Hb Hu) as [?|Heq]; [by right|].
        left. simpl in Heq. congruence.
      + intros [->|Hu]; [by apply Hf1|by apply Ha].
    - rewrite timeout_block_dom.
      pose proof (run_actions_clues_grow (late ts) s1 u) as [Hc Hd].
      destruct (Hg1 u) as [Ha Hb]. rewrite He1 in Hd. simpl in *.
      split.
      + intros [->|Hu]; [by left|].
        destruct (Hd Hu) as [Hu1|?]; [|left; congruence].
        destruct (Hb Hu1) as [?|?]; [by right|left; congruence].
      + intros [->|Hu]; [by left|]. right. by apply Hc, Ha. }
  set (s3 := run_actions s2 (before_clear ts)) in *.
  pose proof (run_actions_clues_grow (before_clear ts) s2) as Hg3.
  rewrite He2 in Hg3. fold s3 in Hg3.
  set (s4 := set_expecting_clue_from None s3) in *.
  pose proof (run_actions_clues_grow (pause ts) s4) as Hg4.
  simpl in Hg4.
  injection Hplay as <-.
  intros u. destruct (Hg3 u) as [Ha Hb], (Hg4 u) as [Hc Hd].
  rewrite <- Hd2. simpl in *. split.
  - intros Hu. destruct (Hd Hu) as [Hu3|?]; [|done].
    destruct (Hb Hu3) as [?|Heq]; [done|].
    apply Hd2. left. congruence.
  - intros Hu. by apply Hc, Ha.
Qed.

Lemma play_turns_dom turn_order : ∀ state scripts,
  voting_open state = false → expecting_clue_from state = None →
  ∃ state', play_turns state turn_order scripts = TurnDone state'
    ∧ expecting_clue_from state' = None
    ∧ ∀ u, u ∈ dom (current_round_clues state')
           ↔ u ∈ turn_order ∨ u ∈ dom (current_round_clues state).
Proof.
  induction turn_order as [|pid turn_order IH];
    intros state scripts Hclosed Hnone.
  - exists state. split_and!; [done|done|].
    intros u. rewrite elem_of_nil. tauto.
  - simpl.
    destruct (play_turn_dom state pid (hd quiet_turn scripts) Hclosed Hnone)
      as (s1 & -> & He1 & Hv1 & Hd1).
    destruct (IH s1 (tl scripts) Hv1 He1) as (s2 & -> & He2 & Hd2).
    exists s2. split_and!; [done|done|].
    intros u. rewrite Hd2, Hd1, elem_of_cons. tauto.
Qed.

Lemma lobby_member_order_game state uid :
  game_ok state → uid ∈ dom (players state) ↔ uid ∈ join_order state.
Proof.
  intros [_ Hro _ _]. unfold roster_matches_order in Hro.
  rewrite Hro. apply elem_of_list_to_set.
Qed.

End order.

(** The turn order never changes.  In a started game whose roster matches
    its join order, wherever the round loop stands, the session is still
    such a game with the same join order, the order the next round takes its
    turns in is that join order, and so is the list of options of the vote
    menu. *)
Theorem turn_order_is_join_order (state : GameState)
    (script : list RoundScript) (gap : list Action) :
  game_ok state →
  let state' := loop_state (game_loop state script) in
  game_ok state'
  ∧ join_order state' = join_order state
  ∧ alive_players (round_start (run_actions state' gap)) = join_order state
  ∧ VoteSelect_options state' = join_order state.
Proof.
  intros Hok. simpl.
  pose proof (game_loop_same_cast script state (game_started _ Hok)) as Hc.
  pose proof (same_cast_game_ok _ _ Hok Hc) as Hok'.
  pose proof Hc as (_ & _ & _ & Hj & _).
  split_and!; [done|done| |].
  - pose proof (run_actions_same_cast gap _ (game_started _ Hok')) as Hc'.
    assert (same_cast (loop_state (game_loop state script))
              (round_start (run_actions (loop_state (game_loop state script))
                              gap))) as Hc''.
    { eapply same_cast_trans; [exact Hc'|]. by repeat split. }
    rewrite (same_cast_alive_players _ _ Hc'').
    rewrite alive_players_all; [done|apply Hok'..].
  - unfold VoteSelect_options.
    rewrite alive_players_all; [done|apply Hok'..].
Qed.

(** Every round records every player once.  A round of a started game with
    voting closed runs to its recap, and the entry it appends to the history
    carries the next round number and a clue map whose keys are exactly the
    players of the roster: each has a clue or the placeholder. *)
Theorem round_records_every_player (state : GameState) (rs : RoundScript) :
  game_ok state → voting_open state = false →
  ∃ state' clues,
    play_round state rs = TurnDone state'
    ∧ history state' = history state ++ [(round_no state + 1, clues)]
    ∧ dom clues = dom (players state)
    ∧ size clues = length (join_order state)
    ∧ game_ok state' ∧ voting_open state' = false.
Proof.
  intros Hok Hclosed.
  pose proof (play_round_same_cast state rs (game_started _ Hok)) as Hcast.
  destruct (play_round_done state rs Hclosed)
    as (state' & Hplay & Hv' & _ & _ & _).
  rewrite Hplay in Hcast. simpl in Hcast.
  pose proof Hplay as Hplay0.
  unfold play_round in Hplay.
  set (s0 := run_actions state (before_round rs)) in *.
  pose proof (run_actions_same_cast (before_round rs) state
                (game_started _ Hok)) as Hc0. fold s0 in Hc0.
  destruct (run_actions_same_round (before_round rs) state)
    as [(_ & Hr0 & Hh0 & Hv0 & _) _]. fold s0 in Hr0, Hh0, Hv0.
  set (s1 := round_start s0) in *.
  assert (same_cast state s1) as Hc1
    by (eapply same_cast_trans; [exact Hc0|by repeat split]).
  assert (alive_players s1 = join_order state) as Horder.
  { rewrite (same_cast_alive_players _ _ Hc1).
    apply alive_players_all; apply Hok. }
  set (s2 := run_actions s1 (intro rs)) in *.
  pose proof (run_actions_clues_grow (intro rs) s1) as Hg2. fold s2 in Hg2.
  destruct (run_actions_same_round (intro rs) s1)
    as [(_ & Hr2 & Hh2 & Hv2 & _) He2]. fold s2 in Hr2, Hh2, Hv2, He2.
  simpl in Hg2, He2, Hr2, Hh2, Hv2.
  destruct (play_turns_dom (alive_players s1) s2 (turns rs))
    as (s3 & Hplay3 & He3 & Hd3); [congruence|done|].
  rewrite Hplay3 in Hplay.
  destruct (play_turns_done (alive_players s1) s2 (turns rs))
    as (s3' & Hplay3' & (_ & Hr3 & Hh3 & _)); [congruence|].
  rewrite Hplay3 in Hplay3'. injection Hplay3' as <-.
  set (s4 := run_actions s3 (before_recap rs)) in *.
  pose proof (run_actions_clues_grow (before_recap rs) s3) as Hg4.
  rewrite He3 in Hg4. fold s4 in Hg4.
  destruct (run_actions_same_round (before_recap rs) s3)
    as [(_ & Hr4 & Hh4 & _) _]. fold s4 in Hr4, Hh4.
  destruct (run_actions_same_round (after_recap rs) (round_recap s4))
    as [(_ & _ & Hh5 & _) _].
  injection Hplay as <-.
  assert (dom (current_round_clues s4) = dom (players state)) as Hdom.
  { apply set_eq. intros u.
    rewrite (lobby_member_order_game state u Hok), <- Horder.
    destruct (Hg4 u) as [Ha Hb], (Hg2 u) as [Hc Hd].
    split.
    - intros Hu. destruct (Hb Hu) as [Hu3|?]; [|done].
      apply Hd3 in Hu3 as [?|Hu2]; [done|].
      destruct (Hd Hu2) as [Hu1|?]; [|done].
      simpl in Hu1. by rewrite dom_empty_L in Hu1.
    - intros Hu. apply Ha, Hd3. by left. }
  eexists _, (current_round_clues s4). split; [exact Hplay0|].
  split_and!; try done.
  - rewrite Hh5. simpl. rewrite Hh4, Hh3, Hh2, Hr4, Hr3, Hr2. simpl.
    by rewrite Hh0, Hr0.
  - rewrite <- size_dom, Hdom, size_dom.
    destruct Hok as [_ Hro Hnd _]. unfold roster_matches_order in Hro.
    rewrite <- size_dom, Hro. by apply size_list_to_set.
  - by eapply same_cast_game_ok.
Qed.

Lemma demo_game_ok : game_ok demo_game.
Proof.
  split.
  - reflexivity.
  - vm_compute. reflexivity.
  - apply (bool_decide_unpack _). vm_compute. exact I.
  - unfold all_alive. apply (bool_decide_unpack _). vm_compute. exact I.
Qed.

Lemma turn_order_is_join_order_witness :
  let state' := loop_state (game_loop demo_game [demo_round; demo_round]) in
  game_ok state'
  ∧ join_order state' = join_order demo_game
  ∧ alive_players (round_start (run_actions state' [AJoin 200 true]))
    = join_order demo_game
  ∧ VoteSelect_options state' = join_order demo_game.
Proof.
  apply (turn_order_is_join_order demo_game [demo_round; demo_round]
           [AJoin 200 true]).
  split.
  - reflexivity.
  - vm_compute. reflexivity.
  - apply (bool_decide_unpack _). vm_compute. exact I.
  - unfold all_alive. apply (bool_decide_unpack _). vm_compute. exact I.
Defined.

Lemma round_records_every_player_witness :
  ∃ state' clues,
    play_round demo_game demo_round = TurnDone state'
    ∧ history state' = history demo_game ++ [(round_no demo_game + 1, clues)]
    ∧ dom clues = dom (players demo_game)
    ∧ size clues = length (join_order demo_game)
    ∧ game_ok state' ∧ voting_open state' = false.
Proof.
  apply (round_records_every_player demo_game demo_round).
  - split.
    + reflexivity.
    + vm_compute. reflexivity.
    + apply (bool_decide_unpack _). vm_compute. exact I.
    + unfold all_alive. apply (bool_decide_unpack _). vm_compute. exact I.
  - reflexivity.
Defined.

Lemma play_turn_same_round_any (state : GameState) (pid : Z)
    (ts : TurnScript) :
  same_round state (turn_state (play_turn state pid ts)).
Proof.
  destruct (voting_open state) eqn:Hv.
  - unfold play_turn. rewrite Hv. apply same_round_refl.
  - destruct (play_turn_done state pid ts Hv) as (s1 & -> & Hs & _). done.
Qed.

Lemma play_turns_same_round_any (turn_order : list Z) :
  ∀ (state : GameState) (scripts : list TurnScript),
    same_round state (turn_state (play_turns state turn_order scripts)).
Proof.
  induction turn_order as [|pid turn_order IH]; intros state scripts;
    [apply same_round_refl|].
  simpl.
  pose proof (play_turn_same_round_any state pid (hd quiet_turn scripts))
    as H1.
  destruct (play_turn state pid (hd quiet_turn scripts)) as [s1|s1];
    [exact H1|].
  simpl in H1. eapply same_round_trans; [exact H1|apply IH].
Qed.

(** ** The secret word stays out of the record *)

Section avoid.
Variable w : string.
Hypothesis Hblank : has_blank w = false.
Implicit Types (state : GameState) (pid uid : Z) (gap : list Action).

Lemma is_blank_upper_char c :
  Ascii.eqb (upper_char c) " " = Ascii.eqb c " ".
Proof. by destruct c as [[] [] [] [] [] [] [] []]. Qed.

Lemma has_blank_upper s : has_blank (upper s) = has_blank s.
Proof.
  induction s as [|c s IH]; [done|]. simpl.
  by rewrite is_blank_upper_char, IH.
Qed.

Lemma placeholder_differs : differs_from_word w TIMED_OUT.
Proof.
  intros Heq. apply (f_equal has_blank) in Heq.
  rewrite !has_blank_upper, Hblank in Heq. vm_compute in Heq. discriminate.
Qed.

Lemma perform_avoids state a :
  secret_word state = Some w →
  clues_avoid w (current_round_clues state) →
  clues_avoid w (current_round_clues (perform state a)).
Proof.
  intros Hw Hav. unfold perform.
  destruct a as [uid found|uid found|uid|uid value]; simpl.
  - unfold join_locked. destruct (started state); [done|].
    destruct (has_key _ _); [done|]. simpl.
    by rewrite (proj2 (proj2 (refresh_same_round found _))).
  - unfold leave_locked. destruct (started state); [done|].
    destruct (has_key _ _); [|done]. simpl.
    case_bool_decide; [done|]. simpl.
    by rewrite (proj2 (proj2 (refresh_same_round found _))).
  - unfold submit_locked. by repeat case_match.
  - unfold on_submit_locked.
    destruct (negb (started state)); [done|].
    destruct (String.eqb_spec (strip value) "") as [|Hne]; [done|].
    destruct (voting_open state); [done|].
    case_bool_decide; [done|]. rewrite Hw.
    destruct (String.eqb_spec w "") as [->|Hwne]; simpl.
    + apply map_Forall_insert_2; [|done].
      intros Heq. by apply upper_empty in Heq.
    + destruct (String.eqb_spec (upper (strip value)) (upper w)) as [|Hd];
        [done|].
      simpl. by apply map_Forall_insert_2.
Qed.

Lemma run_actions_avoids gap : ∀ state,
  secret_word state = Some w →
  clues_avoid w (current_round_clues state) →
  clues_avoid w (current_round_clues (run_actions state gap)).
Proof.
  induction gap as [|a gap IH]; intros state Hw Hav; [done|].
  simpl. apply IH.
  - destruct (perform_same_round state a) as [(_&_&_&_&_&Hs) _]. congruence.
  - by apply perform_avoids.
Qed.

Lemma run_actions_secret gap state :
  secret_word (run_actions state gap) = secret_word state
  ∧ history (run_actions state gap) = history state.
Proof.
  destruct (run_actions_same_round gap state) as [(_&_&Hh&_&_&Hs) _]. done.
Qed.

Lemma wait_avoids window : ∀ state pid,
  secret_word state = Some w →
  clues_avoid w (current_round_clues state) →
  clues_avoid w
    (current_round_clues (wait_for_player_clue state pid window).2).
Proof.
  induction window as [|gap window IH]; intros state pid Hw Hav; [done|].
  simpl. pose proof (run_actions_avoids gap state Hw Hav) as H1.
  destruct (has_key _ _); [done|]. apply IH; [|done].
  by rewrite (proj1 (run_actions_secret gap state)).
Qed.

Lemma timeout_block_avoids state pid :
  clues_avoid w (current_round_clues state) →
  clues_avoid w (current_round_clues (timeout_block state pid)).
Proof.
  intros Hav. unfold timeout_block. destruct (has_key _ _); [done|].
  simpl. apply map_Forall_insert_2; [apply placeholder_differs|done].
Qed.

Lemma play_turn_avoids state pid ts :
  secret_word state = Some w →
  clues_avoid w (current_round_clues state) →
  clues_avoid w (current_round_clues (turn_state (play_turn state pid ts))).
Proof.
  intros Hw Hav. unfold play_turn, turn_wait.
  destruct (voting_open state); [done|].
  set (s0 := set_expecting_clue_from (Some pid) state).
  pose proof (wait_avoids (polls ts) s0 pid Hw Hav) as H1.
  pose proof (wait_same_round (polls ts) s0 pid) as [(_&_&_&_&_&Hs1) _].
  destruct (wait_for_player_clue s0 pid (polls ts)) as [success s1].
  simpl in H1, Hs1.
  assert (secret_word s1 = Some w) as Hw1 by (rewrite Hs1; exact Hw).
  set (s2 := if success then s1
             else timeout_block (run_actions s1 (late ts)) pid).
  assert (secret_word s2 = Some w ∧ clues_avoid w (current_round_clues s2))
    as [Hw2 H2].
  { unfold s2. destruct success; [done|]. split.
    - rewrite (proj2 (proj2 (proj2 (proj2 (proj2
        (proj1 (timeout_block_same_round _ pid))))))).
      by rewrite (proj1 (run_actions_secret _ _)).
    - apply timeout_block_avoids. by apply run_actions_avoids. }
  simpl. apply run_actions_avoids.
  - simpl. by rewrite (proj1 (run_actions_secret _ _)).
  - simpl. by apply run_actions_avoids.
Qed.

Lemma play_turns_avoids turn_order : ∀ state scripts,
  secret_word state = Some w →
  clues_avoid w (current_round_clues state) →
  clues_avoid w
    (current_round_clues (turn_state (play_turns state turn_order scripts))).
Proof.
  induction turn_order as [|pid turn_order IH]; intros state scripts Hw Hav;
    [done|].
  simpl.
  pose proof (play_turn_avoids state pid (hd quiet_turn scripts) Hw Hav) as H1.
  destruct (voting_open state) eqn:Hv.
  - unfold play_turn in *. by rewrite Hv in *.
  - destruct (play_turn_done state pid (hd quiet_turn scripts) Hv)
      as (s1 & Hp & (_&_&_&_&_&Hs1) & _).
    rewrite Hp in *. simpl in H1. apply IH; [congruence|done].
Qed.

Lemma play_round_avoids state rs :
  secret_word state = Some w → history_avoids w state →
  history_avoids w (turn_state (play_round state rs)).
Proof.
  intros Hw Hh. unfold play_round.
  set (s0 := run_actions state (before_round rs)).
  destruct (run_actions_secret (before_round rs) state) as [Hw0 Hh0].
  fold s0 in Hw0, Hh0.
  set (s1 := round_start s0).
  set (s2 := run_actions s1 (intro rs)).
  destruct (run_actions_secret (intro rs) s1) as [Hw2 Hh2].
  fold s2 in Hw2, Hh2. simpl in Hw2, Hh2.
  assert (secret_word s2 = Some w) as Hw2' by congruence.
  assert (clues_avoid w (current_round_clues s2)) as Hav2.
  { apply run_actions_avoids; [simpl; congruence|].
    simpl. apply map_Forall_empty. }
  pose proof (play_turns_avoids (alive_players s1) s2 (turns rs) Hw2' Hav2)
    as Hav3.
  pose proof (play_turns_same_round_any (alive_players s1) s2 (turns rs))
    as (_&_&Hh3&_&_&Hs3).
  destruct (play_turns s2 (alive_players s1) (turns rs)) as [s3|s3];
    simpl in *.
  - unfold history_avoids. by rewrite Hh3, Hh2, Hh0.
  - unfold history_avoids.
    rewrite (proj2 (run_actions_secret _ _)). simpl.
    rewrite (proj2 (run_actions_secret _ _)), Hh3, Hh2, Hh0.
    apply Forall_app. split; [done|].
    apply Forall_singleton. simpl.
    apply run_actions_avoids; [congruence|done].
Qed.

End avoid.

Lemma play_round_secret (state : GameState) (rs : RoundScript) :
  secret_word (turn_state (play_round state rs)) = secret_word state.
Proof.
  unfold play_round.
  set (s0 := run_actions state (before_round rs)).
  pose proof (proj1 (run_actions_secret (before_round rs) state)) as H0.
  fold s0 in H0.
  set (s1 := round_start s0).
  pose proof (proj1 (run_actions_secret (intro rs) s1)) as H2.
  simpl in H2.
  pose proof (play_turns_same_round_any (alive_players s1)
                (run_actions s1 (intro rs)) (turns rs)) as (_&_&_&_&_&H3).
  destruct (play_turns _ _ _) as [s3|s3]; simpl in *; [congruence|].
  rewrite (proj1 (run_actions_secret _ _)). simpl.
  rewrite (proj1 (run_actions_secret _ _)). congruence.
Qed.

Lemma load_words_no_blank (file : option (list string)) (w : string) :
  w ∈ load_words file → has_blank w = false.
Proof.
  unfold load_words. intros Hin%dedup_words_sub.
  assert (∀ x, x ∈ FALLBACK_WORDS → has_blank x = false) as Hfb.
  { intros x Hx. unfold FALLBACK_WORDS in Hx.
    repeat (apply elem_of_cons in Hx as [->|Hx]; [done|]).
    by apply elem_of_nil in Hx. }
  assert (∀ lines x, x ∈ read_words lines → has_blank x = false) as Hrw.
  { induction lines as [|line lines IH]; intros x; simpl;
      [by intros ?%elem_of_nil|].
    destruct ((strip line =? "")%string || starts_with_hash (strip line));
      [apply IH|].
    destruct (has_blank (strip line)) eqn:Hb; [apply IH|].
    intros [->|Hx]%elem_of_cons; [|by apply IH].
    by rewrite has_blank_upper. }
  destruct file as [lines|]; [|by apply Hfb].
  destruct (read_words lines) as [|x words] eqn:Hr; [by apply Hfb|].
  apply (Hrw lines). by rewrite Hr.
Qed.

(** The secret word never gets into the record.  In a game whose word comes
    from the loader, whatever the players submit and wherever the loop
    stands, no clue of any round of the history equals the secret word up to
    case: the modal refuses it and the timeout placeholder cannot be it. *)
Theorem secret_word_never_recorded (file : option (list string))
    (state : GameState) (w : string) (script : list RoundScript) :
  secret_word state = Some w → w ∈ load_words file →
  history_avoids w state →
  history_avoids w (loop_state (game_loop state script)).
Proof.
  intros Hw Hin. apply load_words_no_blank in Hin.
  revert state Hw. induction script as [|rs script IH]; intros state Hw Hh;
    [done|].
  simpl.
  pose proof (play_round_avoids w Hin state rs Hw Hh) as H1.
  pose proof (play_round_secret state rs) as Hs.
  destruct (play_round state rs) as [s1|s1]; simpl in *; [done|].
  destruct (_ <=? _); [done|]. apply IH; [congruence|done].
Qed.

Lemma secret_word_never_recorded_witness :
  history_avoids "PIZZA"
    (loop_state (game_loop demo_game [demo_round; demo_round; demo_round])).
Proof.
  apply (secret_word_never_recorded None demo_game "PIZZA").
  - reflexivity.
  - apply (bool_decide_unpack _). vm_compute. exact I.
  - apply (bool_decide_unpack _). vm_compute. exact I.
Defined.

(** ** The word list *)

Section words.
Implicit Types (w : string) (words seen : list string).

Lemma upper_char_idem c : upper_char (upper_char c) = upper_char c.
Proof. by destruct c as [[] [] [] [] [] [] [] []]. Qed.

Lemma upper_idem s : upper (upper s) = upper s.
Proof.
  induction s as [|c s IH]; [done|]. simpl. by rewrite upper_char_idem, IH.
Qed.

Lemma read_words_elem lines w :
  w ∈ read_words lines ↔
  ∃ line, line ∈ lines ∧ w = upper (strip line)
    ∧ strip line ≠ EmptyString
    ∧ starts_with_hash (strip line) = false
    ∧ has_blank (strip line) = false.
Proof.
  induction lines as [|line lines IH]; simpl.
  - split; [by intros ?%elem_of_nil|]. by intros (? & ?%elem_of_nil & _).
  - destruct (String.eqb_spec (strip line) "") as [He|He]; simpl.
    { rewrite IH. split.
      - intros (l & Hl & ?). exists l. split; [by right|done].
      - intros (l & [->|Hl]%elem_of_cons & Hw & Hne & ?); [done|].
        by exists l. }
    destruct (starts_with_hash (strip line)) eqn:Hh.
    { rewrite IH. split.
      - intros (l & Hl & ?). exists l. split; [by right|done].
      - intros (l & [->|Hl]%elem_of_cons & Hw & Hne & Hh' & ?);
          [congruence|]. by exists l. }
    destruct (has_blank (strip line)) eqn:Hb.
    { rewrite IH. split.
      - intros (l & Hl & ?). exists l. split; [by right|done].
      - intros (l & [->|Hl]%elem_of_cons & Hw & Hne & Hh' & Hb');
          [congruence|]. by exists l. }
    rewrite elem_of_cons, IH. split.
    + intros [->|(l & Hl & ?)].
      * exists line. split; [by left|done].
      * exists l. split; [by right|done].
    + intros (l & [->|Hl]%elem_of_cons & Hw & ?); [by left|].
      right. by exists l.
Qed.

Lemma dedup_words_spec words : ∀ seen,
  NoDup (dedup_words seen words)
  ∧ dedup_words seen words `sublist_of` words
  ∧ ∀ w, w ∈ dedup_words seen words ↔ w ∈ words ∧ w ∉ seen.
Proof.
  induction words as [|x words IH]; intros seen; simpl.
  - split_and!; [apply NoDup_nil_2|done|].
    intros w. rewrite elem_of_nil. tauto.
  - case_bool_decide as Hx.
    + destruct (IH seen) as (Hnd & Hsub & Hel). split_and!; [done| |].
      * by apply sublist_cons.
      * intros w. rewrite Hel, elem_of_cons. split; [tauto|].
        intros [[->|?] ?]; tauto.
    + destruct (IH (x :: seen)) as (Hnd & Hsub & Hel). split_and!.
      * apply NoDup_cons. split; [|done].
        rewrite Hel, elem_of_cons. tauto.
      * by apply sublist_skip.
      * intros w. rewrite !elem_of_cons, Hel, elem_of_cons.
        destruct (decide (w = x)) as [->|Hne]; tauto.
Qed.

End words.

(** The words the game can draw.  Whatever the words file holds, or when
    there is none, the loaded list is not empty and has no duplicates, and
    each of its words is non-empty, in upper case, a single token without
    blank, and free of surrounding white space. *)
Theorem words_well_formed (file : option (list string)) :
  load_words file ≠ []
  ∧ NoDup (load_words file)
  ∧ ∀ w, w ∈ load_words file →
      w ≠ EmptyString ∧ upper w = w ∧ has_blank w = false ∧ strip w = w.
Proof.
  split_and!.
  - apply load_words_nonempty.
  - unfold load_words. apply dedup_words_spec.
  - intros w Hin.
    pose proof (load_words_clean file w Hin) as (Hne & Hl & Hr).
    split_and!; [done| |by eapply load_words_no_blank|by apply strip_clean].
    unfold load_words in Hin. apply dedup_words_sub in Hin.
    assert (∀ x, x ∈ FALLBACK_WORDS → upper x = x) as Hfb.
    { intros x Hx. unfold FALLBACK_WORDS in Hx.
      repeat (apply elem_of_cons in Hx as [->|Hx]; [done|]).
      by apply elem_of_nil in Hx. }
    destruct file as [lines|]; [|by apply Hfb].
    destruct (read_words lines) as [|x words] eqn:Hrw; [by apply Hfb|].
    rewrite <- Hrw in Hin. apply read_words_elem in Hin as (l & _ & -> & _).
    apply upper_idem.
Qed.

Lemma read_words_app (l1 l2 : list string) :
  read_words (l1 ++ l2) = read_words l1 ++ read_words l2.
Proof.
  induction l1 as [|line l1 IH]; [done|]. simpl.
  destruct ((strip line =? "")%string || starts_with_hash (strip line));
    [done|].
  destruct (has_blank (strip line)); [done|]. by rewrite IH.
Qed.

Lemma dedup_words_app (l1 : list string) : ∀ seen l2,
  ∃ seen', (∀ x, x ∈ seen' ↔ x ∈ l1 ∨ x ∈ seen)
    ∧ dedup_words seen (l1 ++ l2)
      = dedup_words seen l1 ++ dedup_words seen' l2.
Proof.
  induction l1 as [|w l1 IH]; intros seen l2; simpl.
  - exists seen. split; [|done]. intros x. rewrite elem_of_nil. tauto.
  - case_bool_decide as Hw.
    + destruct (IH seen l2) as (seen' & Hs & ->). exists seen'.
      split; [|done]. intros x. rewrite Hs, elem_of_cons.
      split; [tauto|]. intros [[->|?]|?]; tauto.
    + destruct (IH (w :: seen) l2) as (seen' & Hs & ->). exists seen'.
      split; [|done]. intros x. rewrite Hs, !elem_of_cons. tauto.
Qed.

Lemma dedup_words_first (before after : list string) (w : string) :
  w ∉ before →
  ∃ kept rest,
    dedup_words [] (before ++ w :: after) = kept ++ w :: rest
    ∧ ∀ x, x ∈ kept ↔ x ∈ before.
Proof.
  intros Hw.
  destruct (dedup_words_app before [] (w :: after)) as (seen' & Hs & ->).
  simpl. rewrite bool_decide_eq_false_2.
  - eexists _, _. split; [done|]. intros x.
    destruct (dedup_words_spec before []) as (_ & _ & ->).
    rewrite elem_of_nil. tauto.
  - rewrite Hs, elem_of_nil. tauto.
Qed.

Lemma ascii_text_cons (c : ascii) (s : string) :
  ascii_text (String c s) = (N_of_ascii c <? 128)%N && ascii_text s.
Proof. done. Qed.

Lemma is_space_cp (c : ascii) :
  (N_of_ascii c <? 128)%N = true → cp_isspace (N_of_ascii c) = is_space c.
Proof. destruct c as [[] [] [] [] [] [] [] []]; vm_compute; by intros. Qed.

Lemma decode_utf8_ascii (c : ascii) (s : string) :
  (N_of_ascii c <? 128)%N = true →
  decode_utf8 (String c s) = N_of_ascii c :: decode_utf8 s.
Proof. intros Hc. cbn [decode_utf8]. cbv zeta. by rewrite Hc. Qed.

Lemma lstrip_ascii (s : string) :
  ascii_text s = true →
  ascii_text (lstrip s) = true
  ∧ decode_utf8 (lstrip s) = cp_lstrip (decode_utf8 s).
Proof.
  induction s as [|c s IH]; [done|].
  rewrite ascii_text_cons. intros [Hc Hs]%andb_true_iff.
  rewrite decode_utf8_ascii by done. cbn [lstrip cp_lstrip].
  rewrite is_space_cp by done. destruct (is_space c); [by apply IH|].
  rewrite ascii_text_cons, Hc, Hs, decode_utf8_ascii by done. done.
Qed.

Lemma cp_lstrip_snoc (m : list N) (x : N) :
  cp_lstrip (m ++ [x])
  = match cp_lstrip m with
    | [] => if cp_isspace x then [] else [x]
    | r => r ++ [x]
    end.
Proof.
  induction m as [|y m IH]; [done|]. cbn [app cp_lstrip].
  by destruct (cp_isspace y).
Qed.

Lemma cp_rstrip_cons (x : N) (l : list N) :
  rev (cp_lstrip (rev (x :: l)))
  = match rev (cp_lstrip (rev l)) with
    | [] => if cp_isspace x then [] else [x]
    | r => x :: r
    end.
Proof.
  cbn [rev]. rewrite cp_lstrip_snoc.
  destruct (cp_lstrip (rev l)) as [|a r]; [by destruct (cp_isspace x)|].
  rewrite rev_app_distr. cbn [rev app].
  by destruct (rev r ++ [a]) eqn:Hr; [destruct (rev r)|].
Qed.

Lemma rstrip_ascii (s : string) :
  ascii_text s = true →
  ascii_text (rstrip s) = true
  ∧ decode_utf8 (rstrip s) = rev (cp_lstrip (rev (decode_utf8 s))).
Proof.
  induction s as [|c s IH]; [done|].
  rewrite ascii_text_cons. intros [Hc Hs]%andb_true_iff.
  destruct (IH Hs) as [Ha Hd].
  rewrite decode_utf8_ascii, cp_rstrip_cons by done. rewrite <- Hd.
  rewrite is_space_cp by done. cbn [rstrip].
  destruct (rstrip s) as [|a r].
  { destruct (is_space c); [done|].
    by rewrite ascii_text_cons, decode_utf8_ascii, Hc. }
  rewrite ascii_text_cons in Ha. apply andb_true_iff in Ha as [Ha Hr].
  rewrite !decode_utf8_ascii by done.
  by rewrite !ascii_text_cons, Hc, Ha, Hr.
Qed.

Lemma cp_strip_comm (l : list N) :
  cp_lstrip (rev (cp_lstrip (rev l))) = rev (cp_lstrip (rev (cp_lstrip l))).
Proof.
  induction l as [|x l IH]; [done|]. rewrite cp_rstrip_cons.
  cbn [cp_lstrip]. destruct (cp_isspace x) eqn:Hx.
  - rewrite <- IH. destruct (rev (cp_lstrip (rev l))) as [|a r]; [done|].
    cbn [cp_lstrip]. by rewrite Hx.
  - rewrite cp_rstrip_cons.
    destruct (rev (cp_lstrip (rev l))) as [|a r]; cbn [cp_lstrip];
      by rewrite Hx.
Qed.

Lemma strip_ascii (s : string) :
  ascii_text s = true → decode_utf8 (strip s) = str_strip (decode_utf8 s).
Proof.
  intros Hs. unfold strip, str_strip.
  destruct (rstrip_ascii s Hs) as [Ha Hd].
  destruct (lstrip_ascii (rstrip s) Ha) as [_ ->].
  by rewrite Hd, cp_strip_comm.
Qed.

(** How the words file is read, for a file of ASCII text.  On such lines
    the stripping of the model is the one of the interpreter's white-space
    table.  The lines are taken in order, and each contributes either
    nothing or one word: a line yields a word exactly when, once stripped,
    it is not empty, does not start with '#' and holds no blank, and the
    word is the stripped line in upper case.  When lines yield words, the
    loaded list holds exactly these words, each once, in the order of their
    first occurrence: ahead of a word stand exactly the words read before
    it first occurred.  When no line yields a word, or there is no file,
    the built-in list is used. *)
Theorem words_file_reading (lines : list string) :
  Forall (λ line, ascii_text line = true) lines →
  (∀ line, line ∈ lines →
     decode_utf8 (strip line) = str_strip (decode_utf8 line))
  ∧ (∀ w, w ∈ read_words lines ↔
       ∃ line, line ∈ lines ∧ w = upper (strip line)
         ∧ strip line ≠ EmptyString
         ∧ starts_with_hash (strip line) = false
         ∧ has_blank (strip line) = false)
  ∧ (∀ before line after, lines = before ++ line :: after →
       (strip line ≠ EmptyString ∧ starts_with_hash (strip line) = false
        ∧ has_blank (strip line) = false →
        read_words lines
        = read_words before ++ upper (strip line) :: read_words after)
       ∧ (strip line = EmptyString ∨ starts_with_hash (strip line) = true
          ∨ has_blank (strip line) = true →
          read_words lines = read_words before ++ read_words after))
  ∧ (read_words lines ≠ [] →
     NoDup (load_words (Some lines))
     ∧ load_words (Some lines) `sublist_of` read_words lines
     ∧ (∀ w, w ∈ load_words (Some lines) ↔ w ∈ read_words lines)
     ∧ ∀ before w after,
         read_words lines = before ++ w :: after → w ∉ before →
         ∃ kept rest,
           load_words (Some lines) = kept ++ w :: rest
           ∧ ∀ x, x ∈ kept ↔ x ∈ before)
  ∧ (read_words lines = [] → load_words (Some lines) = FALLBACK_WORDS)
  ∧ load_words None = FALLBACK_WORDS.
Proof.
  intros Hascii. split_and!.
  - intros line Hin. apply strip_ascii.
    by apply (proj1 (Forall_forall _ _) Hascii).
  - apply read_words_elem.
  - intros before line after ->. rewrite read_words_app. simpl. split.
    + intros (Hne & -> & ->).
      by destruct (String.eqb_spec (strip line) "") as [He|He].
    + intros [->|[Hh|Hb]]; [done| |].
      * rewrite Hh. by rewrite orb_true_r.
      * rewrite Hb. by destruct (_ || _).
  - intros Hne. unfold load_words.
    destruct (read_words lines) as [|x words] eqn:Hrw; [done|].
    destruct (dedup_words_spec (x :: words) []) as (Hnd & Hsub & Hel).
    split_and!; [done|done| |].
    + intros w. rewrite Hel. split; [tauto|].
      intros Hin. split; [done|]. apply not_elem_of_nil.
    + intros before w after -> Hw. by apply dedup_words_first.
  - intros Hemp. unfold load_words. rewrite Hemp. vm_compute. reflexivity.
  - vm_compute. reflexivity.
Qed.

Lemma words_file_reading_witness :
  Forall (λ line, ascii_text line = true) demo_word_lines
  ∧ read_words demo_word_lines = ["APPLE"; "PEAR"; "APPLE"; "FIG"]
  ∧ load_words (Some demo_word_lines) = ["APPLE"; "PEAR"; "FIG"]
  ∧ (∀ line, line ∈ demo_word_lines →
       decode_utf8 (strip line) = str_strip (decode_utf8 line))
  ∧ (∀ w, w ∈ read_words demo_word_lines ↔
       ∃ line, line ∈ demo_word_lines ∧ w = upper (strip line)
         ∧ strip line ≠ EmptyString
         ∧ starts_with_hash (strip line) = false
         ∧ has_blank (strip line) = false)
  ∧ (∀ before line after, demo_word_lines = before ++ line :: after →
       (strip line ≠ EmptyString ∧ starts_with_hash (strip line) = false
        ∧ has_blank (strip line) = false →
        read_words demo_word_lines
        = read_words before ++ upper (strip line) :: read_words after)
       ∧ (strip line = EmptyString ∨ starts_with_hash (strip line) = true
          ∨ has_blank (strip line) = true →
          read_words demo_word_lines = read_words before ++ read_words after))
  ∧ (read_words demo_word_lines ≠ [] →
     NoDup (load_words (Some demo_word_lines))
     ∧ load_words (Some demo_word_lines) `sublist_of` read_words demo_word_lines
     ∧ (∀ w, w ∈ load_words (Some demo_word_lines)
             ↔ w ∈ read_words demo_word_lines)
     ∧ ∀ before w after,
         read_words demo_word_lines = before ++ w :: after → w ∉ before →
         ∃ kept rest,
           load_words (Some demo_word_lines) = kept ++ w :: rest
           ∧ ∀ x, x ∈ kept ↔ x ∈ before)
  ∧ (read_words demo_word_lines = [] →
     load_words (Some demo_word_lines) = FALLBACK_WORDS)
  ∧ load_words None = FALLBACK_WORDS.
Proof.
  assert (Forall (λ line, ascii_text line = true) demo_word_lines) as Hascii.
  { unfold demo_word_lines. repeat (apply Forall_cons; split; [reflexivity|]).
    apply Forall_nil_2. }
  split; [exact Hascii|].
  split; [vm_compute; reflexivity|].
  split; [vm_compute; reflexivity|].
  exact (words_file_reading demo_word_lines Hascii).
Defined.

(** ** More on the vote *)

Section more_votes.
Implicit Types (state : GameState) (counts : gmap Z nat) (m : gmap Z Z).

Lemma total_votes_empty : total_votes ∅ = 0%nat.
Proof. unfold total_votes. by rewrite map_fold_empty. Qed.

Lemma total_votes_insert_new counts t c :
  counts !! t = None → total_votes (<[t := c]> counts) = (c + total_votes counts)%nat.
Proof.
  intros Hnone. unfold total_votes.
  rewrite map_fold_insert_L; [done| |done].
  intros. lia.
Qed.

Lemma total_votes_bump counts t :
  total_votes (<[t := (default 0 (counts !! t) + 1)%nat]> counts)
  = S (total_votes counts).
Proof.
  destruct (counts !! t) as [c|] eqn:Hc; simpl.
  - rewrite <- (insert_delete_id counts t c Hc) at 2.
    rewrite <- insert_delete_eq.
    rewrite !total_votes_insert_new by apply lookup_delete_eq. lia.
  - rewrite total_votes_insert_new by done. lia.
Qed.

Lemma count_votes_total state :
  ∀ m,
    map_Forall (λ voter target,
      voter ∈ dom (players state)
      ∧ (target = 0 ∨ target ∈ dom (players state))) m →
    total_votes (map_fold (count_vote state) ∅ m) = size m.
Proof.
  apply (map_fold_weak_ind
    (λ counts m,
       map_Forall (λ voter target,
         voter ∈ dom (players state)
         ∧ (target = 0 ∨ target ∈ dom (players state))) m →
       total_votes counts = size m)).
  - intros _. by rewrite total_votes_empty, map_size_empty.
  - intros voter tgt m counts Hnone IH Hwf.
    apply map_Forall_insert in Hwf as [[Hin Htgt] Hwf]; [|done].
    unfold count_vote. apply has_key_dom in Hin. rewrite Hin. simpl.
    assert (negb (tgt =? 0) && negb (has_key (players state) tgt) = false)
      as ->.
    { destruct Htgt as [->|Htgt]; [done|].
      apply has_key_dom in Htgt. rewrite Htgt. by rewrite andb_false_r. }
    rewrite total_votes_bump, map_size_insert_None by done.
    by rewrite IH.
Qed.

Lemma votes_within_roster state :
  votes_wf state → (size (votes state) ≤ size (players state))%nat.
Proof.
  intros Hwf. rewrite <- !size_dom. apply subseteq_size.
  intros v Hv. apply elem_of_dom in Hv as [t Ht].
  by destruct (Hwf v t Ht).
Qed.

Lemma tally_le_size m t : (tally m t ≤ size m)%nat.
Proof.
  unfold tally. rewrite <- !size_dom. apply subseteq_size.
  apply dom_filter_subseteq.
Qed.

End more_votes.

(** A tally loses no vote and invents none.  On a well-formed vote map the
    buckets add up to the number of players who have a vote on record,
    which is at most the size of the roster, and no bucket holds more than
    that. *)
Theorem tally_counts_every_vote (state : GameState) :
  votes_wf state →
  total_votes (count_votes state) = size (votes state)
  ∧ (size (votes state) ≤ size (players state))%nat
  ∧ ∀ target,
      (default 0%nat (count_votes state !! target) ≤ size (votes state))%nat.
Proof.
  intros Hwf. split_and!.
  - by apply count_votes_total.
  - by apply votes_within_roster.
  - intros target. rewrite count_votes_lookup by done.
    pose proof (tally_le_size (votes state) target) as Hle.
    unfold voters_for. case_decide; simpl; lia.
Qed.

Lemma tally_counts_every_vote_witness :
  total_votes (count_votes demo_vote) = size (votes demo_vote)
  ∧ (size (votes demo_vote) ≤ size (players demo_vote))%nat
  ∧ ∀ target,
      (default 0%nat (count_votes demo_vote !! target)
       ≤ size (votes demo_vote))%nat.
Proof.
  apply (tally_counts_every_vote demo_vote).
  unfold votes_wf. apply (bool_decide_unpack _). vm_compute. exact I.
Defined.

(** The top guess at the edges.  With no vote on record there is no top
    guess and no bucket.  When every vote on record is a skip, the top guess
    is the skip bucket itself, 0.  As soon as one player was voted for, the
    top guess, if there is one, is a member of the roster who got a vote,
    never skip. *)
Theorem top_guess_edges (state : GameState) :
  voting_open state = true → votes_wf state →
  ∃ reveal state',
    finalize_final_voting state = Some (reveal, state')
    ∧ (votes state = ∅ →
       reveal_top reveal = None ∧ reveal_counts reveal = ∅)
    ∧ (votes state ≠ ∅ → ¬ some_non_skip_vote state →
       reveal_top reveal = Some 0)
    ∧ (∀ target, reveal_top reveal = Some target →
       (∃ voter, votes state !! voter = Some target)
       ∧ (some_non_skip_vote state →
          target ≠ 0 ∧ target ∈ dom (players state))).
Proof.
  intros Hopen Hwf. unfold finalize_final_voting. rewrite Hopen. simpl.
  eexists _, _. split; [reflexivity|]. simpl.
  assert (∀ t, is_Some (count_votes state !! t)
               ↔ ∃ voter, votes state !! voter = Some t) as Hbucket.
  { intros t. rewrite count_votes_lookup by done.
    rewrite <- tally_pos. unfold voters_for.
    case_decide as Hz; split; intros H; done. }
  split_and!.
  - intros Hemp.
    assert (count_votes state = ∅) as Hc.
    { unfold count_votes. by rewrite Hemp, map_fold_empty. }
    rewrite Hc. split; [|done]. unfold top_target. by rewrite decide_True.
  - intros Hne Hskip. apply top_target_pool.
    assert (∀ t, t ≠ 0 → count_votes state !! t = None) as Hnone.
    { intros t Ht. apply eq_None_not_Some. intros Hs.
      apply Hbucket in Hs as [voter Hv]. apply Hskip. by exists voter, t. }
    rewrite vote_pool_only_skip by done.
    apply map_choose in Hne as (voter & t & Hv).
    assert (t = 0) as ->.
    { destruct (decide (t = 0)); [done|]. exfalso. apply Hskip.
      by exists voter, t. }
    destruct (proj2 (Hbucket 0)) as [c Hc]; [by exists voter|].
    exists c. split; [done|]. intros other c' Hother Hc'.
    by rewrite Hnone in Hc'.
  - intros target Htop. apply top_target_pool in Htop as (c & Hc & _).
    pose proof (vote_pool_sub _ _ _ Hc) as Hc'.
    assert (∃ voter, votes state !! voter = Some target) as [voter Hv]
      by (apply Hbucket; by eexists).
    split; [by exists voter|].
    intros (v & t & Hvt & Ht).
    assert (target ≠ 0) as Hne.
    { intros ->. rewrite vote_pool_non_skip in Hc; [done|].
      exists t. split; [done|]. apply Hbucket. by exists v. }
    split; [done|]. destruct (Hwf voter target Hv) as [_ [?|?]]; done.
Qed.

Lemma top_guess_edges_witness :
  ∃ reveal state',
    finalize_final_voting demo_vote = Some (reveal, state')
    ∧ (votes demo_vote = ∅ →
       reveal_top reveal = None ∧ reveal_counts reveal = ∅)
    ∧ (votes demo_vote ≠ ∅ → ¬ some_non_skip_vote demo_vote →
       reveal_top reveal = Some 0)
    ∧ (∀ target, reveal_top reveal = Some target →
       (∃ voter, votes demo_vote !! voter = Some target)
       ∧ (some_non_skip_vote demo_vote →
          target ≠ 0 ∧ target ∈ dom (players demo_vote))).
Proof.
  apply (top_guess_edges demo_vote).
  - reflexivity.
  - unfold votes_wf. apply (bool_decide_unpack _). vm_compute. exact I.
Defined.

(** Voting and clearing is a round trip.  When a player without a vote on
    record casts an accepted vote and then clears it, the vote map is back
    to what it was and the target has lost the voter it had gained;
    clearing again changes nothing; and Clear Vote removes the presser's
    entry only. *)
Theorem clear_vote_round_trip (state : GameState) (voter target : Z) :
  voting_open state = true → voter ∈ dom (players state) →
  valid_target state voter target → votes state !! voter = None →
  let voted := after state (VoteView_record state voter target) in
  let cleared := after voted (VoteView_clear voted voter) in
  votes voted !! voter = Some target
  ∧ voters_for voted target = S (voters_for state target)
  ∧ votes cleared = votes state
  ∧ voters_for cleared target = voters_for state target
  ∧ votes (after cleared (VoteView_clear cleared voter)) = votes cleared
  ∧ ∀ other, other ≠ voter →
      votes (after voted (VoteView_clear voted voter)) !! other
      = votes voted !! other.
Proof.
  intros Hopen Hin Hvalid Hnone. simpl.
  rewrite record_accepted by done. simpl.
  assert (delete voter (<[voter:=target]> (votes state)) = votes state)
    as Hback by (by apply delete_insert_id).
  split_and!.
  - apply lookup_insert_eq.
  - unfold voters_for. simpl. by apply tally_insert_same.
  - done.
  - unfold voters_for. simpl. by rewrite Hback.
  - rewrite Hback. by apply delete_id.
  - intros other Hne. by apply lookup_delete_ne.
Qed.

Lemma clear_vote_round_trip_witness :
  let voted := after demo_vote (VoteView_record demo_vote 101 100) in
  let cleared := after voted (VoteView_clear voted 101) in
  votes voted !! 101 = Some 100
  ∧ voters_for voted 100 = S (voters_for demo_vote 100)
  ∧ votes cleared = votes demo_vote
  ∧ voters_for cleared 100 = voters_for demo_vote 100
  ∧ votes (after cleared (VoteView_clear cleared 101)) = votes cleared
  ∧ ∀ other, other ≠ 101 →
      votes (after voted (VoteView_clear voted 101)) !! other
      = votes voted !! other.
Proof.
  apply (clear_vote_round_trip demo_vote 101 100).
  - reflexivity.
  - apply (bool_decide_unpack _). vm_compute. exact I.
  - apply (bool_decide_unpack _). vm_compute. exact I.
  - vm_compute. reflexivity.
Defined.

(** ** More on the start *)

Section more_start.
Implicit Types (state : GameState) (uid : Z) (gap : list Action).

Lemma refresh_all_alive found state :
  all_alive state → all_alive (refresh_lobby_embed found state).
Proof.
  unfold all_alive.
  by rewrite (proj1 (refresh_lobby_embed_fields found state)).
Qed.

Lemma create_lobby_alive key author lobby_msg :
  all_alive (create_lobby key author lobby_msg).
Proof.
  unfold all_alive. simpl. apply map_Forall_insert_2; [done|].
  apply map_Forall_empty.
Qed.

Lemma perform_all_alive state a : all_alive state → all_alive (perform state a).
Proof.
  intros Hal. unfold perform.
  destruct a as [uid found|uid found|uid|uid value]; simpl.
  - unfold join_locked. destruct (started state); [done|].
    destruct (has_key _ _); [done|]. simpl. apply refresh_all_alive.
    unfold all_alive. simpl. by apply map_Forall_insert_2.
  - unfold leave_locked. destruct (started state); [done|].
    destruct (has_key _ _); [|done]. simpl.
    case_bool_decide; [done|]. simpl. apply refresh_all_alive.
    unfold all_alive. simpl. by apply map_Forall_delete.
  - unfold submit_locked. by repeat case_match.
  - unfold on_submit_locked. by repeat case_match.
Qed.

Lemma run_actions_all_alive gap : ∀ state,
  all_alive state → all_alive (run_actions state gap).
Proof.
  induction gap as [|a gap IH]; intros state Hal; [done|].
  apply IH. by apply perform_all_alive.
Qed.

Lemma startgame_check_alive state author found :
  all_alive state → all_alive (after state (startgame_check state author found)).
Proof.
  intros Hal. unfold startgame_check.
  destruct (is_host state author); [|done]. simpl.
  destruct (started state); [done|].
  destruct (size (players state) <? MIN_PLAYERS)%nat; [|done].
  simpl. by apply refresh_all_alive.
Qed.

Lemma commit_alive (G : Games) key state o :
  (∀ k s, G !! k = Some s → all_alive s) → G !! key = Some state →
  all_alive (after state o) →
  ∀ k s, (commit G key o).2 !! k = Some s → all_alive s.
Proof.
  intros HG Hkey Hal k s. destruct o as [r|r st|r]; simpl in *.
  - apply HG.
  - destruct (decide (key = k)) as [->|Hne].
    + rewrite lookup_insert_eq. by intros [= <-].
    + rewrite lookup_insert_ne by done. apply HG.
  - intros H. apply lookup_delete_Some in H as [_ H]. by eapply HG.
Qed.

Lemma lobby_step_alive (G : Games) op :
  (∀ k s, G !! k = Some s → all_alive s) →
  ∀ k s, lobby_step G op !! k = Some s → all_alive s.
Proof.
  intros HG.
  destruct op as [key author lobby_msg found|key uid found|key uid found];
    simpl.
  - unfold cmd_startgame_check. destruct (G !! key) as [state|] eqn:Hkey.
    + eapply commit_alive; [done..|]. apply startgame_check_alive.
      by eapply HG.
    + simpl. intros k s. destruct (decide (key = k)) as [->|Hne].
      * rewrite lookup_insert_eq. intros [= <-]. apply create_lobby_alive.
      * rewrite lookup_insert_ne by done. apply HG.
  - unfold LobbyView_join, get_state_from_channel.
    destruct (G !! key) as [state|] eqn:Hkey; [|done].
    eapply commit_alive; [done..|].
    apply (perform_all_alive state (AJoin uid found)). by eapply HG.
  - unfold LobbyView_leave, get_state_from_channel.
    destruct (G !! key) as [state|] eqn:Hkey; [|done].
    eapply commit_alive; [done..|].
    apply (perform_all_alive state (ALeave uid found)). by eapply HG.
Qed.

Lemma lobby_trace_alive ops : ∀ (G G' : Games),
  (∀ k s, G !! k = Some s → all_alive s) → G' ∈ lobby_trace G ops →
  ∀ k s, G' !! k = Some s → all_alive s.
Proof.
  induction ops as [|op ops IH]; intros G G' HG Hin; simpl in Hin.
  - apply list_elem_of_singleton in Hin. by subst.
  - apply elem_of_cons in Hin as [->|Hin]; [done|].
    eapply IH; [|done]. by apply lobby_step_alive.
Qed.

End more_start.

(** A start from any lobby yields a well-formed game.  Whatever lobby the
    lobby operations have produced and whatever its players do during the
    prompt, a start that goes through leaves a started session whose join
    order is duplicate-free and holds exactly the roster, all alive, with
    the round counter at 0, an empty history, voting closed, no vote, no
    turn cursor, and a secret word from the word list. *)
Theorem start_yields_game (ops : list LobbyOp) (G : Games) (n : nat)
    (key : Key) (state : GameState) (WORDS : list string) (dice : Dice)
    (author : Z) (found : bool) (inbox : list Message)
    (meanwhile : list Action) (k : nat) (state' : GameState) :
  lobby_trace ∅ ops !! n = Some G → G !! key = Some state →
  cmd_startgame WORDS dice state author found inbox meanwhile
  = Started k state' →
  game_ok state'
  ∧ join_order state' = join_order (run_actions state meanwhile)
  ∧ host_id state' = host_id state
  ∧ round_no state' = 0 ∧ history state' = [] ∧ voting_open state' = false
  ∧ votes state' = ∅ ∧ expecting_clue_from state' = None
  ∧ ∃ w, secret_word state' = Some w ∧ w ∈ WORDS.
Proof.
  intros Hn Hkey Hstart.
  assert (G ∈ lobby_trace ∅ ops) as HG by (by eapply list_elem_of_lookup_2).
  assert (lobby_ok state) as Hok
    by (eapply (lobby_trace_ok ops ∅); [by intros ? ? ?|exact HG|exact Hkey]).
  assert (all_alive state) as Hal
    by (eapply (lobby_trace_alive ops ∅); [by intros ? ? ?|exact HG|exact Hkey]).
  pose proof (run_actions_lobby_ok meanwhile state Hok) as [_ Hro Hnd Hho].
  pose proof (run_actions_all_alive meanwhile state Hal) as Hal'.
  assert (host_id (run_actions state meanwhile) = host_id state) as Hhost.
  { clear. revert state. induction meanwhile as [|a gap IH]; intros state;
      [done|]. simpl. rewrite IH. unfold perform.
    destruct a as [uid f|uid f|uid|uid v]; simpl.
    - unfold join_locked. repeat case_match; try done. simpl.
      by rewrite (proj2 (proj2 (proj2 (refresh_lobby_embed_fields f _)))).
    - unfold leave_locked. repeat case_match; try done. simpl.
      by rewrite (proj2 (proj2 (proj2 (refresh_lobby_embed_fields f _)))).
    - unfold submit_locked. by repeat case_match.
    - unfold on_submit_locked. by repeat case_match. }
  unfold cmd_startgame in Hstart.
  destruct (startgame_check state author found) as [[]| |]; try done.
  destruct (choose_imp_count _ _ _ _) as [k'|]; [|done].
  destruct (start_locked WORDS dice (run_actions state meanwhile) k')
    as [s|s] eqn:Hs; [done|].
  injection Hstart as <- <-.
  pose proof (start_locked_done _ _ _ _ _ Hs)
    as (Hst & Hp & Hj & Hword & _ & _ & Hr & Hh & Hv & Hvo & He).
  assert (host_id s = host_id (run_actions state meanwhile)) as Hhost'.
  { unfold start_locked in Hs.
    destruct (random_choice _ _) as [w|]; [|done].
    destruct (random_sample _ _ _) as [imps|]; [|done].
    by injection Hs as <-. }
  split_and!; try done; [|congruence].
  split; unfold roster_matches_order, all_alive; rewrite ?Hp, ?Hj; done.
Qed.

Lemma start_yields_game_witness :
  ∃ state',
    cmd_startgame FALLBACK_WORDS demo_dice demo_lobby 100 true [] []
    = Started 1 state'
    ∧ game_ok state'
    ∧ join_order state' = join_order (run_actions demo_lobby [])
    ∧ host_id state' = host_id demo_lobby
    ∧ round_no state' = 0 ∧ history state' = [] ∧ voting_open state' = false
    ∧ votes state' = ∅ ∧ expecting_clue_from state' = None
    ∧ ∃ w, secret_word state' = Some w ∧ w ∈ FALLBACK_WORDS.
Proof.
  eexists. split; [vm_compute; reflexivity|].
  apply (start_yields_game demo_ops {[demo_key := demo_lobby]} 4 demo_key
           demo_lobby FALLBACK_WORDS demo_dice 100 true [] [] 1).
  - vm_compute. reflexivity.
  - vm_compute. reflexivity.
  - vm_compute. reflexivity.
Defined.

(** The role cards after a start.  Once the start block has run, a roster
    member is shown the imposter card exactly when drawn as imposter, and
    that card carries no word; every other roster member is shown the one
    secret word, which comes from the word list; exactly [k] players hold
    the imposter card; anybody else is told they are not in the game. *)
Theorem role_cards_after_start (WORDS : list string) (dice : Dice)
    (state state' : GameState) (k : nat) :
  start_locked WORDS dice state k = StartDone state' →
  size (imposters state') = k
  ∧ (∀ uid, reveal_locked state' uid = CardImposter ↔ uid ∈ imposters state')
  ∧ (∃ w, w ∈ WORDS
       ∧ ∀ uid, uid ∈ dom (players state') → uid ∉ imposters state' →
           reveal_locked state' uid = CardCivilian (Some w))
  ∧ (∀ uid, uid ∉ dom (players state') →
       reveal_locked state' uid = CardNotInGame).
Proof.
  intros Hstart. apply start_locked_done in Hstart.
  destruct Hstart as (Hs & _ & _ & (w & Hw & Hin) & Hsize & Hsub & _).
  split_and!.
  - done.
  - intros uid. unfold reveal_locked. rewrite Hs. simpl. split.
    + destruct (has_key _ _); [|done]. by case_bool_decide.
    + intros Himp. pose proof (Hsub _ Himp) as Hr.
      apply has_key_dom in Hr. rewrite Hr. simpl.
      by rewrite bool_decide_eq_true_2.
  - exists w. split; [done|]. intros uid Hr Hnot.
    unfold reveal_locked. rewrite Hs. apply has_key_dom in Hr.
    rewrite Hr. simpl. by rewrite bool_decide_eq_false_2, Hw.
  - intros uid Hout. unfold reveal_locked. rewrite Hs.
    apply has_key_not_dom in Hout. by rewrite Hout.
Qed.

Lemma role_cards_after_start_witness :
  ∃ state',
    start_locked FALLBACK_WORDS demo_dice demo_lobby 1 = StartDone state'
    ∧ size (imposters state') = 1%nat
    ∧ (∀ uid, reveal_locked state' uid = CardImposter
              ↔ uid ∈ imposters state')
    ∧ (∃ w, w ∈ FALLBACK_WORDS
         ∧ ∀ uid, uid ∈ dom (players state') → uid ∉ imposters state' →
             reveal_locked state' uid = CardCivilian (Some w))
    ∧ (∀ uid, uid ∉ dom (players state') →
         reveal_locked state' uid = CardNotInGame).
Proof.
  eexists. split; [vm_compute; reflexivity|].
  apply (role_cards_after_start FALLBACK_WORDS demo_dice demo_lobby).
  vm_compute. reflexivity.
Defined.

(** A start on a roster that shrank below the chosen count.  When fewer
    players are left at the start than imposters were chosen, drawing the
    imposters fails after the session was already marked as started: no
    imposter is set and no round begins, yet the session now refuses Join,
    Leave and a new start command as if a game were running. *)
Theorem start_fails_when_roster_shrank (WORDS : list string) (dice : Dice)
    (state : GameState) (k : nat) :
  WORDS ≠ [] → (size (players state) < k)%nat →
  ∃ state',
    start_locked WORDS dice state k = StartRaised state'
    ∧ started state' = true
    ∧ imposters state' = imposters state
    ∧ players state' = players state
    ∧ round_no state' = round_no state
    ∧ (∃ w, secret_word state' = Some w ∧ w ∈ WORDS)
    ∧ (∀ uid found,
         join_locked state' uid found = Keep GameAlreadyStarted
         ∧ leave_locked state' uid found = Keep CantLeaveMidGame)
    ∧ (∀ found,
         startgame_check state' (host_id state') found = Keep AlreadyStarted).
Proof.
  intros HW Hk. unfold start_locked.
  destruct (random_choice_is_Some (word_draw dice) WORDS HW) as [w Hw].
  rewrite Hw. simpl.
  destruct (roster_ids state) as (_ & Hlen & _).
  rewrite random_sample_None by lia.
  eexists. split; [reflexivity|]. simpl. split_and!; try done.
  - exists w. split; [done|]. by eapply random_choice_elem.
  - intros found. unfold startgame_check, is_host. simpl.
    by rewrite bool_decide_eq_true_2.
Qed.

Lemma start_fails_when_roster_shrank_witness :
  ∃ state',
    start_locked FALLBACK_WORDS demo_dice demo_solo 2 = StartRaised state'
    ∧ started state' = true
    ∧ imposters state' = imposters demo_solo
    ∧ players state' = players demo_solo
    ∧ round_no state' = round_no demo_solo
    ∧ (∃ w, secret_word state' = Some w ∧ w ∈ FALLBACK_WORDS)
    ∧ (∀ uid found,
         join_locked state' uid found = Keep GameAlreadyStarted
         ∧ leave_locked state' uid found = Keep CantLeaveMidGame)
    ∧ (∀ found,
         startgame_check state' (host_id state') found = Keep AlreadyStarted).
Proof.
  apply (start_fails_when_roster_shrank FALLBACK_WORDS demo_dice demo_solo 2).
  - discriminate.
  - vm_compute. lia.
Defined.

(** The host's answer is honoured.  When the first message that passes the
    check reads as one of the offered numbers and nothing happens in the
    lobby meanwhile, the game starts with that many imposters: distinct
    members of an unchanged roster. *)
Theorem host_choice_honoured (file : option (list string)) (dice : Dice)
    (state : GameState) (author : Z) (found : bool) (inbox : list Message)
    (msg : Message) (choice : nat) :
  lobby_ok state → is_host state author = true →
  (MIN_PLAYERS ≤ size (players state))%nat →
  wait_for_message author (channel_id state) inbox = Some msg →
  reply_number msg = Some choice →
  choice ∈ imposter_options (size (players state)) →
  ∃ state',
    cmd_startgame (load_words file) dice state author found inbox []
    = Started choice state'
    ∧ size (imposters state') = choice
    ∧ imposters state' ⊆ dom (players state')
    ∧ players state' = players state.
Proof.
  intros Hok Hhost Hsize Hmsg Hnum Hopt.
  unfold cmd_startgame.
  rewrite startgame_check_prompt by (done || apply Hok).
  assert (choose_imp_count (imposter_options (size (players state))) author
            (channel_id state) inbox = Some choice) as ->.
  { unfold choose_imp_count. rewrite Hmsg, Hnum.
    destruct (imposter_options (size (players state))) eqn:Ho.
    - by apply elem_of_nil in Hopt.
    - by rewrite bool_decide_eq_true_2. }
  simpl.
  destruct (start_locked_is_done (load_words file) dice state choice)
    as [state' Hstart].
  { apply load_words_nonempty. }
  { apply imposter_options_spec in Hopt as [->|[-> ?]].
    - unfold MIN_PLAYERS in Hsize. lia.
    - unfold MIN_PLAYERS in Hsize. lia. }
  rewrite Hstart. exists state'. split; [done|].
  apply start_locked_done in Hstart.
  destruct Hstart as (_ & Hp & _ & _ & Hsz & Hsub & _). done.
Qed.

Lemma host_choice_honoured_witness :
  ∃ state',
    cmd_startgame (load_words None) demo_dice demo_seven 100 true
      demo_answer_two []
    = Started 2 state'
    ∧ size (imposters state') = 2%nat
    ∧ imposters state' ⊆ dom (players state')
    ∧ players state' = players demo_seven.
Proof.
  apply (host_choice_honoured None demo_dice demo_seven 100 true
           demo_answer_two (mkMessage 100 10 "2") 2).
  - split.
    + reflexivity.
    + vm_compute. reflexivity.
    + apply (bool_decide_unpack _). vm_compute. exact I.
    + apply (bool_decide_unpack _). vm_compute. exact I.
  - reflexivity.
  - vm_compute. lia.
  - vm_compute. reflexivity.
  - vm_compute. reflexivity.
  - apply (bool_decide_unpack _). vm_compute. exact I.
Defined.

(** A reply that is digits but not a number stops the command.  When the
    first message that passes the check cannot be converted (a digit such
    as a superscript two passes [isdigit], and [int] refuses it), the
    exception is not caught: the command ends there, before the start
    block.  The session is what the players' presses during the prompt
    made of it, still a lobby that has not started; a later message of the
    host is never looked at. *)
Theorem reply_not_a_number_stops_start (WORDS : list string) (dice : Dice)
    (state : GameState) (author : Z) (found : bool) (inbox : list Message)
    (meanwhile : list Action) (msg : Message) :
  lobby_ok state → is_host state author = true →
  (MIN_PLAYERS ≤ size (players state))%nat →
  wait_for_message author (channel_id state) inbox = Some msg →
  reply_number msg = None →
  chk author (channel_id state) msg = true
  ∧ cmd_startgame WORDS dice state author found inbox meanwhile
    = Raised (run_actions state meanwhile)
  ∧ started (run_actions state meanwhile) = false.
Proof.
  intros Hok Hhost Hsize Hmsg Hnum. split_and!.
  - unfold wait_for_message in Hmsg. apply head_Some_elem_of in Hmsg.
    apply list_elem_of_In, List.filter_In in Hmsg. by destruct Hmsg.
  - unfold cmd_startgame.
    rewrite startgame_check_prompt by (done || apply Hok).
    unfold choose_imp_count. rewrite Hmsg, Hnum.
    unfold imposter_options. by destruct (_ <=? _)%nat.
  - apply (run_actions_lobby_ok meanwhile state Hok).
Qed.

Lemma reply_not_a_number_stops_start_witness :
  chk 100 (channel_id demo_lobby) (mkMessage 100 10 "²") = true
  ∧ cmd_startgame FALLBACK_WORDS demo_dice demo_lobby 100 true
      [mkMessage 101 10 "1"; mkMessage 100 10 "²"; mkMessage 100 10 "1"]
      [ALeave 103 true]
    = Raised (run_actions demo_lobby [ALeave 103 true])
  ∧ started (run_actions demo_lobby [ALeave 103 true]) = false.
Proof.
  apply (reply_not_a_number_stops_start FALLBACK_WORDS demo_dice demo_lobby
           100 true
           [mkMessage 101 10 "1"; mkMessage 100 10 "²"; mkMessage 100 10 "1"]
           [ALeave 103 true] (mkMessage 100 10 "²")).
  - split.
    + reflexivity.
    + vm_compute. reflexivity.
    + apply (bool_decide_unpack _). vm_compute. exact I.
    + apply (bool_decide_unpack _). vm_compute. exact I.
  - reflexivity.
  - vm_compute. lia.
  - vm_compute. reflexivity.
  - vm_compute. reflexivity.
Defined.

(** The reveal happens once.  Closing an open vote yields the reveal and a
    session with voting closed; closing again does nothing, and from then
    on Skip and the select menu answer that voting is closed and record
    nothing. *)
Theorem reveal_happens_once (state : GameState) :
  voting_open state = true →
  ∃ reveal state',
    finalize_final_voting state = Some (reveal, state')
    ∧ finalize_final_voting state' = None
    ∧ votes state' = votes state
    ∧ reveal_imposters reveal = imposters state
    ∧ ∀ uid target,
        VoteView_record state' uid target = Keep VotingClosed
        ∧ VoteSelect_callback state' uid target = Keep VotingClosed.
Proof.
  intros Hopen. unfold finalize_final_voting. rewrite Hopen. simpl.
  eexists _, _. split; [reflexivity|]. simpl. split_and!; done.
Qed.

Lemma reveal_happens_once_witness :
  ∃ reveal state',
    finalize_final_voting demo_vote = Some (reveal, state')
    ∧ finalize_final_voting state' = None
    ∧ votes state' = votes demo_vote
    ∧ reveal_imposters reveal = imposters demo_vote
    ∧ ∀ uid target,
        VoteView_record state' uid target = Keep VotingClosed
        ∧ VoteSelect_callback state' uid target = Keep VotingClosed.
Proof. apply (reveal_happens_once demo_vote). reflexivity. Defined.

(** The lobby message id is only ever forgotten.  Whatever the players do,
    the stored id of the lobby message either stays what it is or becomes
    null, and once null it stays null: the lobby embed is then never
    refreshed again. *)
Theorem lobby_message_only_forgotten (gap : list Action) (state : GameState) :
  (lobby_message_id (run_actions state gap) = lobby_message_id state
   ∨ lobby_message_id (run_actions state gap) = None)
  ∧ (lobby_message_id state = None →
     lobby_message_id (run_actions state gap) = None)
  ∧ ∀ author found,
      lobby_message_id (after state (startgame_check state author found))
      = lobby_message_id state
      ∨ lobby_message_id (after state (startgame_check state author found))
        = None.
Proof.
  assert (∀ found s,
            lobby_message_id (refresh_lobby_embed found s) = lobby_message_id s
            ∨ lobby_message_id (refresh_lobby_embed found s) = None) as Hre.
  { intros found s. unfold refresh_lobby_embed.
    destruct (lobby_message_id s) as [mid|] eqn:Hm; [|by left].
    destruct (mid =? 0); [by left|]. destruct found; [by left|by right]. }
  assert (∀ s a,
            lobby_message_id (perform s a) = lobby_message_id s
            ∨ lobby_message_id (perform s a) = None) as Hstep.
  { intros s a. unfold perform.
    destruct a as [uid f|uid f|uid|uid v]; simpl.
    - unfold join_locked. repeat case_match; try by left. simpl.
      apply (Hre f (set_join_order _ (set_players _ s))).
    - unfold leave_locked. repeat case_match; try by left. simpl.
      apply (Hre f (set_join_order _ (set_players _ s))).
    - unfold submit_locked. repeat case_match; by left.
    - unfold on_submit_locked. repeat case_match; by left. }
  assert (lobby_message_id (run_actions state gap) = lobby_message_id state
          ∨ lobby_message_id (run_actions state gap) = None) as Hrun.
  { revert state. induction gap as [|a gap IH]; intros state; [by left|].
    simpl. destruct (IH (perform state a)) as [-> | ->]; [|by right].
    apply Hstep. }
  split_and!.
  - exact Hrun.
  - intros Hnone. destruct Hrun as [-> | ->]; done.
  - intros author found. unfold startgame_check.
    repeat case_match; try by left. simpl. apply Hre.
Qed.
